(** * Upload pipeline of the image-processing web application

    A shallow embedding of the server-side TypeScript of the repository:
    the upload route (three variants of [route.ts]), the retention sweep
    ([cleanup.ts] and the route-local [cleanupOldFiles]), the in-memory rate
    limiter and the batch processing route, together with the properties the
    specification states about them.

    Conventions of the embedding.
    - A JavaScript string is the list of its UTF-16 code units ([jsstring]);
      [js "..."] writes an ASCII literal.
    - Integers that the code keeps in JS numbers (millisecond clocks, sizes,
      counters, indices) are [Z] or [N]; all of them stay far below 2^53.
    - What the environment decides (clock, random token, outcome of a
      filesystem call or of the external tool) is an explicit input.
    - A thrown exception is a value of [Exn]; [try]/[catch] is a [match]. *)

From Stdlib Require Import ZArith NArith Lia List Bool String Ascii Decimal.
From Stdlib Require DecimalPos.
From stdpp Require Import base option list gmap.

Set Warnings "-register-all".

Local Open Scope Z_scope.

(* ===================================================================== *)
(** ** JavaScript strings and arrays *)
(* ===================================================================== *)

Module JS.

(** A UTF-16 code unit is an [N]; a string is the list of its code units.
    Both names are abbreviations, so that type class search sees [list N]. *)
Abbreviation char := N (only parsing).
Abbreviation jsstring := (list N) (only parsing).

(** ASCII literal. *)
Definition js (s : string) : jsstring :=
  List.map N_of_ascii (list_ascii_of_string s).

(** [Array.prototype.slice(start, end)] and [String.prototype.slice] for
    the non-negative arguments the code passes. *)
Definition slice {A} (l : list A) (start end_ : Z) : list A :=
  take (Z.to_nat (end_ - start)) (drop (Z.to_nat start) l).

(** [s.slice(start)] *)
Definition slice_from {A} (l : list A) (start : Z) : list A :=
  drop (Z.to_nat start) l.

(** [arr.every((x, i) => p(x, i))]: the callback sees the index. *)
Fixpoint every_from {A} (p : A -> nat -> bool) (i : nat) (l : list A) : bool :=
  match l with
  | [] => true
  | x :: l' => p x i && every_from p (S i) l'
  end.

Definition every {A} (p : A -> nat -> bool) (l : list A) : bool :=
  every_from p 0%nat l.

Definition is_digit (c : char) : bool := ((48 <=? c) && (c <=? 57))%N.
Definition is_upper (c : char) : bool := ((65 <=? c) && (c <=? 90))%N.
Definition is_lower (c : char) : bool := ((97 <=? c) && (c <=? 122))%N.

(** The regular expression class [[a-zA-Z0-9]]. *)
Definition is_alnum (c : char) : bool := is_lower c || is_upper c || is_digit c.

Definition DASH : char := 45%N.

(** [s.replace(/[^a-zA-Z0-9]/g, '-')]: without the [u] flag the pattern
    matches one code unit at a time. *)
Definition replace_non_alnum (s : jsstring) : jsstring :=
  List.map (fun c => if is_alnum c then c else DASH) s.

(** [String.prototype.toLowerCase] on the ASCII range. Code units outside
    ASCII are left as they are: the Unicode case mapping is not modelled.
    The two uses in the code do not depend on it: one lower-cases a string
    that [replace_non_alnum] has already made ASCII, the other tests the
    result for membership in a set of lower-case ASCII words none of which
    contains a letter that a non-ASCII character lower-cases to. *)
Definition lower_char (c : char) : char :=
  if is_upper c then (c + 32)%N else c.

Definition toLowerCase (s : jsstring) : jsstring := List.map lower_char s.

(** Decimal digits of a [Decimal.uint], most significant first. *)
Fixpoint uint_chars (u : Decimal.uint) : jsstring :=
  match u with
  | Decimal.Nil => []
  | Decimal.D0 u => 48%N :: uint_chars u
  | Decimal.D1 u => 49%N :: uint_chars u
  | Decimal.D2 u => 50%N :: uint_chars u
  | Decimal.D3 u => 51%N :: uint_chars u
  | Decimal.D4 u => 52%N :: uint_chars u
  | Decimal.D5 u => 53%N :: uint_chars u
  | Decimal.D6 u => 54%N :: uint_chars u
  | Decimal.D7 u => 55%N :: uint_chars u
  | Decimal.D8 u => 56%N :: uint_chars u
  | Decimal.D9 u => 57%N :: uint_chars u
  end.

(** [String(n)] / [`${n}`] for an integer-valued number. *)
Definition string_of_int (z : Z) : jsstring :=
  match z with
  | Z0 => [48%N]
  | Zpos p => uint_chars (Pos.to_uint p)
  | Zneg p => DASH :: uint_chars (Pos.to_uint p)
  end.

(** One base-36 digit, as [Number.prototype.toString(36)] prints it. *)
Definition digit36 (d : N) : char :=
  let d := (d mod 36)%N in
  if (d <? 10)%N then (48 + d)%N else (97 + (d - 10))%N.

(** [x.toString(36)] for a number [0 <= x < 1] whose base-36 expansion has
    the fraction digits [frac] (no exponent notation exists for a radix
    other than 10): ["0"] when there is none, ["0.d1d2..."] otherwise.
    This is how the output of [Math.random()] enters the model. *)
Definition toString36 (frac : list N) : jsstring :=
  match frac with
  | [] => [48%N]
  | _ => 48%N :: 46%N :: List.map digit36 frac
  end.

(** [haystack.includes(needle)] *)
Fixpoint starts_with (needle s : jsstring) : bool :=
  match needle, s with
  | [], _ => true
  | _ :: _, [] => false
  | a :: needle', b :: s' => (a =? b)%N && starts_with needle' s'
  end.

Fixpoint includes (needle s : jsstring) : bool :=
  starts_with needle s ||
  match s with
  | [] => false
  | _ :: s' => includes needle s'
  end.

Definition string_eqb (a b : jsstring) : bool := bool_decide (a = b).

End JS.

Export JS.

(* ===================================================================== *)
(** ** Node's [path] module (POSIX flavour) *)
(* ===================================================================== *)

(** [path.extname] and [path.basename] are platform code, not code of the
    repository. They are transcribed here from Node's [lib/path.js]
    ([posix] object), loop for loop: both scan the path from its last
    character to its first, and [break] out at the first separator that
    follows a non-separator. *)
Module Path.

Definition CHAR_FORWARD_SLASH : char := 47%N.
Definition CHAR_DOT : char := 46%N.

Record ExtState := mkExtState {
  startDot : Z;
  startPart : Z;
  end_ : Z;
  matchedSlash : bool;
  preDotState : Z
}.

Definition ext_init : ExtState := mkExtState (-1) 0 (-1) true 0.

Definition ext_see_non_slash (i : Z) (st : ExtState) : ExtState :=
  if end_ st =? -1
  then mkExtState (startDot st) (startPart st) (i + 1) false (preDotState st)
  else st.

Definition ext_see_dot (i : Z) (st : ExtState) : ExtState :=
  if startDot st =? -1
  then mkExtState i (startPart st) (end_ st) (matchedSlash st) (preDotState st)
  else if negb (preDotState st =? 1)
  then mkExtState (startDot st) (startPart st) (end_ st) (matchedSlash st) 1
  else st.

Definition ext_see_other (st : ExtState) : ExtState :=
  if negb (startDot st =? -1)
  then mkExtState (startDot st) (startPart st) (end_ st) (matchedSlash st) (-1)
  else st.

(** The body of [for (let i = path.length - 1; i >= 0; --i)]: [rpath] holds
    the characters at indices [i], [i-1], ..., [0]. *)
Fixpoint extname_loop (rpath : jsstring) (i : Z) (st : ExtState) : ExtState :=
  match rpath with
  | [] => st
  | code :: rest =>
      if (code =? CHAR_FORWARD_SLASH)%N then
        if negb (matchedSlash st)
        then mkExtState (startDot st) (i + 1) (end_ st) (matchedSlash st)
                        (preDotState st)                       (* break *)
        else extname_loop rest (i - 1) st                      (* continue *)
      else
        let st1 := ext_see_non_slash i st in
        let st2 := if (code =? CHAR_DOT)%N then ext_see_dot i st1
                   else ext_see_other st1 in
        extname_loop rest (i - 1) st2
  end.

Definition extname (path : jsstring) : jsstring :=
  let st := extname_loop (rev path) (Z.of_nat (length path) - 1) ext_init in
  if (startDot st =? -1) || (end_ st =? -1) || (preDotState st =? 0) ||
     ((preDotState st =? 1) && (startDot st =? end_ st - 1) &&
      (startDot st =? startPart st + 1))
  then []
  else slice path (startDot st) (end_ st).

Record BaseState := mkBaseState {
  bstart : Z;
  bend : Z;
  bmatchedSlash : bool;
  extIdx : Z;
  firstNonSlashEnd : Z
}.

(** Character of [suffix] at a signed index ([charCodeAt]); [None] stands
    for the [NaN] of an index out of range, equal to no code unit. *)
Definition char_code_at (s : jsstring) (i : Z) : option char :=
  if i <? 0 then None else s !! Z.to_nat i.

Definition base_see_non_slash (suffix : jsstring) (code : char) (i : Z)
    (st : BaseState) : BaseState :=
  let st1 :=
    if firstNonSlashEnd st =? -1
    then mkBaseState (bstart st) (bend st) false (extIdx st) (i + 1)
    else st in
  if 0 <=? extIdx st1 then
    if bool_decide (char_code_at suffix (extIdx st1) = Some code) then
      if extIdx st1 - 1 =? -1
      then mkBaseState (bstart st1) i (bmatchedSlash st1) (extIdx st1 - 1)
                       (firstNonSlashEnd st1)
      else mkBaseState (bstart st1) (bend st1) (bmatchedSlash st1)
                       (extIdx st1 - 1) (firstNonSlashEnd st1)
    else mkBaseState (bstart st1) (firstNonSlashEnd st1) (bmatchedSlash st1)
                     (-1) (firstNonSlashEnd st1)
  else st1.

(** The loop of [basename] taken when a non-empty suffix is given. *)
Fixpoint basename_suffix_loop (suffix rpath : jsstring) (i : Z)
    (st : BaseState) : BaseState :=
  match rpath with
  | [] => st
  | code :: rest =>
      if (code =? CHAR_FORWARD_SLASH)%N then
        if negb (bmatchedSlash st)
        then mkBaseState (i + 1) (bend st) (bmatchedSlash st) (extIdx st)
                         (firstNonSlashEnd st)                 (* break *)
        else basename_suffix_loop suffix rest (i - 1) st
      else
        basename_suffix_loop suffix rest (i - 1)
          (base_see_non_slash suffix code i st)
  end.

(** The loop of [basename] taken without a suffix; only [bstart], [bend]
    and [bmatchedSlash] are used. *)
Fixpoint basename_plain_loop (rpath : jsstring) (i : Z) (st : BaseState)
    : BaseState :=
  match rpath with
  | [] => st
  | code :: rest =>
      if (code =? CHAR_FORWARD_SLASH)%N then
        if negb (bmatchedSlash st)
        then mkBaseState (i + 1) (bend st) (bmatchedSlash st) (extIdx st)
                         (firstNonSlashEnd st)                 (* break *)
        else basename_plain_loop rest (i - 1) st
      else if bend st =? -1
      then basename_plain_loop rest (i - 1)
             (mkBaseState (bstart st) (i + 1) false (extIdx st)
                          (firstNonSlashEnd st))
      else basename_plain_loop rest (i - 1) st
  end.

(** [path.basename(path, suffix)] *)
Definition basename (path suffix : jsstring) : jsstring :=
  let len := Z.of_nat (length path) in
  if (0 <? Z.of_nat (length suffix)) &&
     (Z.of_nat (length suffix) <=? len) then
    if string_eqb suffix path then []
    else
      let st := basename_suffix_loop suffix (rev path) (len - 1)
                  (mkBaseState 0 (-1) true (Z.of_nat (length suffix) - 1) (-1)) in
      let e := if bstart st =? bend st then firstNonSlashEnd st
               else if bend st =? -1 then len
               else bend st in
      slice path (bstart st) e
  else
    let st := basename_plain_loop (rev path) (len - 1)
                (mkBaseState 0 (-1) true (-1) (-1)) in
    if bend st =? -1 then [] else slice path (bstart st) (bend st).

End Path.

(* ===================================================================== *)
(** ** Filename sanitizer *)
(* ===================================================================== *)

(** What one call draws from the environment: [Date.now()] and the
    base-36 fraction digits of [Math.random()]. *)
Record Unique := mkUnique {
  date_now : Z;
  random_digits : list N
}.

(** [`${Date.now()}-${Math.random().toString(36).slice(2)}`] *)
Definition uniqueId (u : Unique) : jsstring :=
  string_of_int (date_now u) ++ [DASH] ++
  slice_from (toString36 (random_digits u)) 2.

(** [baseFilename] of [generateSafeFilename], the same in every variant. *)
Definition baseFilename (originalName : jsstring) : jsstring :=
  toLowerCase
    (replace_non_alnum
       (Path.basename originalName (Path.extname originalName))).

(** [generateSafeFilename] of the two fuller upload routes:
    [`${baseFilename}-${uniqueId}${extension}`]. *)
Definition generateSafeFilename (u : Unique) (originalName : jsstring)
    : jsstring :=
  let extension := Path.extname originalName in
  baseFilename originalName ++ [DASH] ++ uniqueId u ++ extension.

(** [generateSafeFilename] of [app/api/upload/route.ts]:
    [`${uniqueId}-${baseFilename}${extension}`]. *)
Definition generateSafeFilename_prefixed (u : Unique) (originalName : jsstring)
    : jsstring :=
  let extension := Path.extname originalName in
  uniqueId u ++ [DASH] ++ baseFilename originalName ++ extension.


(* ===================================================================== *)
(** ** Exceptions, JSON bodies and responses *)
(* ===================================================================== *)

(** What code other than the upload routes' own [throw new
    FileUploadError] throws: an [Error] with its message ([fs], [formData],
    [new Error(...)]), or a value that is not an [Error]. *)
Inductive Thrown :=
| ErrorObject (message : jsstring)
| NonError.

(** A thrown value, as the [catch] blocks tell them apart with
    [instanceof]. *)
Inductive Exn :=
| FileUploadError (message code : jsstring) (statusCode : Z)
| Other (t : Thrown).

Definition PlainError (message : jsstring) : Exn := Other (ErrorObject message).

Inductive Result (A : Type) :=
| Ok (a : A)
| Throw (e : Exn).
Arguments Ok {A} a.
Arguments Throw {A} e.

(** The object literals handed to [NextResponse.json]. *)
Inductive json :=
| JNull
| JBool (b : bool)
| JNum (n : Z)
| JStr (s : jsstring)
| JArr (items : list json)
| JObj (fields : list (string * json)).

Definition json_field (k : string) (j : json) : option json :=
  match j with
  | JObj fields =>
      snd <$> List.find (fun kv => bool_decide (fst kv = k)) fields
  | _ => None
  end.

Record Response := mkResponse {
  status : Z;
  body : json;
  headers : list (string * string)
}.

(* ===================================================================== *)
(** ** Rate limiter *)
(* ===================================================================== *)

Module RateLimit.

Record Entry := mkEntry { count : Z; resetTime : Z }.

Definition WINDOW_MS : Z := 15 * 60 * 1000.
Definition MAX_REQUESTS : Z := 100.

(** The objects that [rateLimit] holds are made by the object literal in
    [checkRateLimit] and by nothing else, each is stored under one key,
    and the map is not exported. An object of the map is therefore
    identified by its key, and the map from keys to [Entry] values is the
    whole mutable state. Inside a call, [userLimit] refers either to the
    object stored under [ip], and then writing one of its fields writes
    the map, or to the object of the literal, which only the local
    variable holds. *)
Inductive Handle :=
| Stored                   (* what rateLimit.get(ip) returned *)
| Literal (e : Entry).     (* the object of the literal *)

(** The map together with [userLimit]. *)
Definition Frame : Type := gmap jsstring Entry * Handle.

(** [rateLimit.get(ip) || literal]: an object is truthy. *)
Definition get_or (ip : jsstring) (literal : Entry)
    (rateLimit : gmap jsstring Entry) : Frame :=
  match rateLimit !! ip with
  | Some _ => (rateLimit, Stored)
  | None => (rateLimit, Literal literal)
  end.

(** Reading [userLimit]. A [Stored] handle is only made for a key that is
    present. *)
Definition deref (ip : jsstring) (s : Frame) : Entry :=
  match s.2 with
  | Stored => default (mkEntry 0 0) (s.1 !! ip)
  | Literal e => e
  end.

(** [userLimit.count = v] *)
Definition set_count (ip : jsstring) (v : Z) (s : Frame) : Frame :=
  match s.2 with
  | Stored => (alter (fun e => mkEntry v (resetTime e)) ip s.1, Stored)
  | Literal e => (s.1, Literal (mkEntry v (resetTime e)))
  end.

(** [userLimit.resetTime = v] *)
Definition set_resetTime (ip : jsstring) (v : Z) (s : Frame) : Frame :=
  match s.2 with
  | Stored => (alter (fun e => mkEntry (count e) v) ip s.1, Stored)
  | Literal e => (s.1, Literal (mkEntry (count e) v))
  end.

(** [rateLimit.set(ip, userLimit)]: storing the object the map already
    holds under [ip] changes nothing. *)
Definition map_set (ip : jsstring) (s : Frame) : gmap jsstring Entry :=
  match s.2 with
  | Stored => s.1
  | Literal e => <[ip := e]> s.1
  end.

(** [checkRateLimit(ip)], with the module-level [rateLimit] threaded
    through and [Date.now()] as an input. *)
Definition checkRateLimit (now : Z) (ip : jsstring)
    (rateLimit : gmap jsstring Entry) : bool * gmap jsstring Entry :=
  let userLimit := get_or ip (mkEntry 0 (now + WINDOW_MS)) rateLimit in
  if now >? resetTime (deref ip userLimit) then
    let userLimit := set_count ip 1 userLimit in
    let userLimit := set_resetTime ip (now + WINDOW_MS) userLimit in
    (true, map_set ip userLimit)
  else if count (deref ip userLimit) >=? MAX_REQUESTS then
    (false, rateLimit)
  else
    let userLimit := set_count ip (count (deref ip userLimit) + 1) userLimit in
    (true, map_set ip userLimit).

(** The same function told by values: what the map holds under [ip]
    afterwards, without the object in between. *)
Definition checkRateLimit_by_value (now : Z) (ip : jsstring)
    (rateLimit : gmap jsstring Entry) : bool * gmap jsstring Entry :=
  let userLimit :=
    default (mkEntry 0 (now + WINDOW_MS)) (rateLimit !! ip) in
  if now >? resetTime userLimit then
    (true, <[ip := mkEntry 1 (now + WINDOW_MS)]> rateLimit)
  else if count userLimit >=? MAX_REQUESTS then
    (false, rateLimit)
  else
    (true, <[ip := mkEntry (count userLimit + 1) (resetTime userLimit)]>
             rateLimit).

(** A run of calls for one key at the given clock readings: the answers in
    order and the final map. *)
Fixpoint calls (times : list Z) (ip : jsstring)
    (rateLimit : gmap jsstring Entry) : list bool * gmap jsstring Entry :=
  match times with
  | [] => ([], rateLimit)
  | now :: times' =>
      let '(ok, m1) := checkRateLimit now ip rateLimit in
      let '(oks, m2) := calls times' ip m1 in
      (ok :: oks, m2)
  end.

End RateLimit.

(* ===================================================================== *)
(** ** Uploaded files and file-type validation *)
(* ===================================================================== *)

(** A [File] of the Web API: [size] is the length of its bytes. *)
Record File := mkFile {
  name : jsstring;
  type : jsstring;
  content : list N
}.

Definition size (f : File) : Z := Z.of_nat (length (content f)).

Definition MAX_FILE_SIZE : Z := 10 * 1024 * 1024.

Definition ALLOWED_TYPES : gset jsstring :=
  {[ js "image/jpeg"; js "image/png"; js "image/webp" ]}.

Definition ALLOWED_EXTENSIONS : gset jsstring :=
  {[ js ".jpg"; js ".jpeg"; js ".png"; js ".webp" ]}.

(** [set.has(x)] *)
Definition has (s : gset jsstring) (x : jsstring) : bool :=
  bool_decide (x ∈ s).

Module Signatures.
Definition jpeg : list N := [0xFF; 0xD8; 0xFF]%N.
Definition png : list N := [0x89; 0x50; 0x4E; 0x47]%N.
Definition webp : list N := [0x52; 0x49; 0x46; 0x46]%N.
End Signatures.

(** [(byte, i) => byte === signature[i]]: an index past the signature
    reads [undefined], equal to no byte. *)
Definition byte_matches (signature : list N) (byte : N) (i : nat) : bool :=
  bool_decide (signature !! i = Some byte).

(** [validateFileType] of the two fuller upload routes. Nothing in its
    [try] block throws for a well-formed [File], so the [catch] is not
    modelled. *)
Definition validateFileType (file : File) : bool :=
  let extension := toLowerCase (Path.extname (name file)) in
  if negb (has ALLOWED_TYPES (type file)) ||
     negb (has ALLOWED_EXTENSIONS extension)
  then false
  else
    let fileSignature := slice (content file) 0 4 in
    every (byte_matches Signatures.jpeg) (slice fileSignature 0 3) ||
    every (byte_matches Signatures.png) fileSignature ||
    every (byte_matches Signatures.webp) (slice fileSignature 0 4).

(** [validateFileType] of [app/api/upload/route.ts]: type and extension
    only. *)
Definition validateFileType_basic (file : File) : bool :=
  let extension := toLowerCase (Path.extname (name file)) in
  has ALLOWED_TYPES (type file) && has ALLOWED_EXTENSIONS extension.

(* ===================================================================== *)
(** ** Upload directory and retention sweep *)
(* ===================================================================== *)

(** One entry of the upload directory, with what [stat] reports for it and
    whether [unlink] on it fails (a sub-directory, a permission problem).
    [mtimeMs] is kept as whole milliseconds. *)
Record DirEntry := mkDirEntry {
  ename : jsstring;
  mtimeMs : Z;
  esize : Z;
  unlink_fails : bool
}.

Inductive LogLine :=
| CleanedUp (filename : jsstring)          (* console.log  *)
| FailedToDelete (filename : jsstring)     (* console.error *)
| CleanupError                             (* console.error *)
| UploadError.                             (* console.error *)

Module Sweep.

Definition MAX_AGE : Z := 24 * 60 * 60 * 1000.

(** The directory is the list of its entries in the order [readdir]
    lists them; [None] is a directory that cannot be listed, for which
    [readdir] throws. A sweep returns the entries that are there when the
    call returns and the lines it logged, in the order they were logged.
    Every listed name is assumed to [stat] successfully. *)

(** [cleanupUploads] of [src/utils/cleanup.ts], one entry: the [unlink] is
    inside its own [try]/[catch]. *)
Definition cleanupUploads_entry (now : Z) (file : DirEntry)
    : list DirEntry * list LogLine :=
  let age := now - mtimeMs file in
  if age >? MAX_AGE then
    if unlink_fails file
    then ([file], [FailedToDelete (ename file)])
    else ([], [CleanedUp (ename file)])
  else ([file], []).

(** The tasks of [cleanupUploads] for a list of entries: what they leave
    of the list, and their lines in the order of the list. *)
Fixpoint cleanupUploads_all (now : Z) (files : list DirEntry)
    : list DirEntry * list LogLine :=
  match files with
  | [] => ([], [])
  | file :: rest =>
      let '(kept1, log1) := cleanupUploads_entry now file in
      let '(kept2, log2) := cleanupUploads_all now rest in
      (kept1 ++ kept2, log1 ++ log2)
  end.

(** [cleanupUploads]: [Promise.all(files.map(async ...))]. The tasks
    are started in listing order and run concurrently; each touches its
    own entry only and none of them rejects, so the call returns when all
    have settled. What is left of the directory does not depend on their
    timing; the lines reach the console in the order in which the tasks
    settle, which the platform decides: [settle] maps the listing to the
    entries in that order. *)
Definition cleanupUploads (settle : list DirEntry -> list DirEntry)
    (now : Z) (dir : option (list DirEntry))
    : option (list DirEntry) * list LogLine :=
  match dir with
  | None => (None, [CleanupError])
  | Some files =>
      (Some (cleanupUploads_all now files).1,
       (cleanupUploads_all now (settle files)).2)
  end.

(** [cleanupOldFiles] of the upload route with the sequential
    [for ... of] loop: a failing [unlink] throws out of the loop into the
    single outer [catch]. The result tells whether the loop threw. *)
Fixpoint cleanupOldFiles_loop (now : Z) (files : list DirEntry)
    : list DirEntry * bool :=
  match files with
  | [] => ([], false)
  | file :: rest =>
      if now - mtimeMs file >? MAX_AGE then
        if unlink_fails file
        then (file :: rest, true)                       (* thrown *)
        else cleanupOldFiles_loop now rest
      else
        let '(kept, thrown) := cleanupOldFiles_loop now rest in
        (file :: kept, thrown)
  end.

Definition cleanupOldFiles (now : Z) (dir : option (list DirEntry))
    : option (list DirEntry) * list LogLine :=
  match dir with
  | None => (None, [CleanupError])
  | Some files =>
      let '(kept, thrown) := cleanupOldFiles_loop now files in
      (Some kept, if thrown then [CleanupError] else [])
  end.

(** [cleanupOldFiles] of the upload route that maps the entries through
    [Promise.all] without an inner [catch]. When no [unlink] fails the
    call returns after every task has settled. When one fails,
    [Promise.all] rejects at once: the outer [catch] logs the one line and
    the call returns while the other tasks go on; an old entry whose
    [unlink] has not been carried out by then is still in the directory.
    Which entries these are the platform decides: [pending]. *)
Definition cleanupOldFiles_parallel (pending : DirEntry -> bool)
    (now : Z) (dir : option (list DirEntry))
    : option (list DirEntry) * list LogLine :=
  match dir with
  | None => (None, [CleanupError])
  | Some files =>
      let eligible file := now - mtimeMs file >? MAX_AGE in
      let rejected :=
        existsb (fun file => eligible file && unlink_fails file) files in
      (Some (List.filter
               (fun file => negb (eligible file) || unlink_fails file
                            || (rejected && pending file))
               files),
       if rejected then [CleanupError] else [])
  end.

End Sweep.

(* ===================================================================== *)
(** ** Upload handler *)
(* ===================================================================== *)

(** The value of [data.get('file')]. *)
Inductive FormValue :=
| FormString (s : jsstring)
| FormFile (f : File).

Record Request := mkRequest {
  x_forwarded_for : option jsstring;   (* req.headers.get(...) *)
  form_error : option Thrown;          (* thrown by await req.formData() *)
  file_field : option FormValue        (* data.get('file'), null if None *)
}.

(** What the environment decides during one upload request. *)
Record UploadEnv := mkUploadEnv {
  now_rate : Z;                   (* Date.now() in checkRateLimit *)
  mkdir_error : option Thrown;    (* mkdir, when it is called *)
  unique : Unique;                (* drawn by generateSafeFilename *)
  writeFile_error : option Thrown;
  write_mtime : Z;                (* mtime the written file gets *)
  stat_error : option Thrown;     (* stat of the written file *)
  now_sweep : Z;                  (* Date.now() in the sweep *)
  sweep_pending : DirEntry -> bool
    (* unlinks of the Promise.all sweep not carried out when it returns *)
}.

(** Server state across requests. *)
Record World := mkWorld {
  rateLimit : gmap jsstring RateLimit.Entry;
  uploads : option (list DirEntry);       (* None: no upload directory yet *)
  console : list LogLine
}.

(** State-and-exception monad of a handler's [try] block. *)
Definition M (A : Type) : Type := World -> Result A * World.

Definition ret {A} (a : A) : M A := fun w => (Ok a, w).
Definition throw {A} (e : Exn) : M A := fun w => (Throw e, w).
Definition bind {A B} (m : M A) (k : A -> M B) : M B :=
  fun w => match m w with
           | (Ok a, w') => k a w'
           | (Throw e, w') => (Throw e, w')
           end.

Notation "x <- m ;; k" := (bind m (fun x => k))
  (at level 100, m at next level, right associativity).
Notation "m ;;; k" := (bind m (fun _ => k))
  (at level 100, right associativity).

(** [await req.formData()] followed by [data.get('file')]. *)
Definition formData_get_file (req : Request) : M (option FormValue) :=
  match form_error req with
  | Some t => throw (Other t)
  | None => ret (file_field req)
  end.

(** [ensureUploadDirectory] *)
Definition ensureUploadDirectory (env : UploadEnv) : M unit :=
  fun w =>
    match uploads w with
    | Some _ => (Ok tt, w)
    | None =>
        match mkdir_error env with
        | Some t => (Throw (Other t), w)
        | None => (Ok tt, mkWorld (rateLimit w) (Some []) (console w))
        end
    end.

(** [writeFile(filepath, buffer)] into the upload directory: replaces the
    entry of that name or adds one. *)
Definition writeFile (env : UploadEnv) (filename : jsstring) (bytes : list N)
    : M unit :=
  fun w =>
    match writeFile_error env, uploads w with
    | Some t, _ => (Throw (Other t), w)
    | None, None => (Throw (PlainError (js "ENOENT")), w)
    | None, Some files =>
        let entry := mkDirEntry filename (write_mtime env)
                       (Z.of_nat (length bytes)) false in
        let others :=
          List.filter (fun f => negb (string_eqb (ename f) filename)) files in
        (Ok tt, mkWorld (rateLimit w) (Some (others ++ [entry])) (console w))
    end.

(** [stat(filepath)] of a file of the upload directory. *)
Definition stat (env : UploadEnv) (filename : jsstring) : M DirEntry :=
  fun w =>
    match stat_error env with
    | Some t => (Throw (Other t), w)
    | None =>
        match List.find (fun f => string_eqb (ename f) filename)
                        (default [] (uploads w)) with
        | Some entry => (Ok entry, w)
        | None => (Throw (PlainError (js "ENOENT")), w)
        end
    end.

(** [getFileStats]: [stat] with its exception turned into [null]. *)
Definition getFileStats (env : UploadEnv) (filename : jsstring)
    : M (option DirEntry) :=
  fun w =>
    match stat env filename w with
    | (Ok entry, w') => (Ok (Some entry), w')
    | (Throw _, w') => (Ok None, w')
    end.

Definition run_sweep
    (sweep : Z -> option (list DirEntry) -> option (list DirEntry) * list LogLine)
    (env : UploadEnv) : M unit :=
  fun w =>
    let '(dir, log) := sweep (now_sweep env) (uploads w) in
    (Ok tt, mkWorld (rateLimit w) dir (console w ++ log)).

(** [req.headers.get('x-forwarded-for') || 'unknown'] *)
Definition client_ip (req : Request) : jsstring :=
  match x_forwarded_for req with
  | Some (c :: s) => c :: s
  | _ => js "unknown"
  end.

(** [!file || !(file instanceof File)] *)
Definition as_file (v : option FormValue) : option File :=
  match v with
  | Some (FormFile f) => Some f
  | _ => None
  end.

Definition with_rateLimit (w : World) (m : gmap jsstring RateLimit.Entry)
    : World :=
  mkWorld m (uploads w) (console w).

Definition corsHeaders : list (string * string) :=
  [ ("Access-Control-Allow-Origin", "*");
    ("Access-Control-Allow-Methods", "GET, POST, PUT, DELETE, OPTIONS");
    ("Access-Control-Allow-Headers", "Content-Type, Authorization") ]%string.

Definition securityHeaders : list (string * string) :=
  [ ("X-Content-Type-Options", "nosniff");
    ("X-Frame-Options", "DENY");
    ("Content-Security-Policy", "default-src 'self'");
    ("X-XSS-Protection", "1; mode=block") ]%string.

(** The [catch] block shared by the two fuller routes. *)
Definition statusCode_of (error : Exn) : Z :=
  match error with
  | FileUploadError _ _ statusCode => statusCode
  | _ => 500
  end.

Definition message_of (error : Exn) : jsstring :=
  match error with
  | FileUploadError message _ _ => message
  | Other (ErrorObject message) => message
  | Other NonError => js "Upload failed"
  end.

Definition code_of (error : Exn) : jsstring :=
  match error with
  | FileUploadError _ code _ => code
  | _ => js "UNKNOWN_ERROR"
  end.

Definition errorResponse (error : Exn) : Response :=
  mkResponse (statusCode_of error)
    (JObj [ ("success", JBool false);
            ("error", JStr (message_of error));
            ("code", JStr (code_of error)) ]%string)
    (corsHeaders ++ securityHeaders).

(** [try { ... } catch (error) { console.error('Upload error:', error);
    ... }] *)
Definition run_handler (try_block : M Response) (catch : Exn -> Response)
    (w : World) : Response * World :=
  match try_block w with
  | (Ok response, w') => (response, w')
  | (Throw error, w') =>
      (catch error,
       mkWorld (rateLimit w') (uploads w') (console w' ++ [UploadError]))
  end.

(** *** The upload route with rate limiting and the sequential sweep
    (first unnamed source file; its header names it
    [src/app/api/upload/route.ts]) *)
Module RouteA.

Definition try_block (env : UploadEnv) (req : Request) : M Response :=
  ensureUploadDirectory env ;;;
  data <- formData_get_file req ;;
  match as_file data with
  | None =>
      throw (FileUploadError (js "No file provided or invalid file format")
                             (js "INVALID_FILE") 400)
  | Some file =>
      if size file >? MAX_FILE_SIZE then
        throw (FileUploadError
                 (js "File size exceeds maximum limit of " ++
                  string_of_int (MAX_FILE_SIZE / 1024 / 1024) ++ js "MB")
                 (js "FILE_TOO_LARGE") 400)
      else if negb (validateFileType file) then
        throw (FileUploadError
                 (js "Invalid file type. Only JPEG, PNG, and WebP files are allowed.")
                 (js "INVALID_FILE_TYPE") 400)
      else
        let filename := generateSafeFilename (unique env) (name file) in
        writeFile env filename (content file) ;;;
        stats <- getFileStats env filename ;;
        match stats with
        | None =>
            throw (FileUploadError (js "File failed to write to disk")
                                   (js "WRITE_ERROR") 500)
        | Some stats =>
            run_sweep Sweep.cleanupOldFiles env ;;;
            ret (mkResponse 200
                   (JObj [ ("success", JBool true);
                           ("filename", JStr filename);
                           ("url", JStr (js "/uploads/" ++ filename));
                           ("size", JNum (esize stats));
                           ("type", JStr (type file)) ]%string)
                   (corsHeaders ++ securityHeaders))
        end
  end.

Definition POST (env : UploadEnv) (req : Request) (w : World)
    : Response * World :=
  let ip := client_ip req in
  let '(allowed, m) := RateLimit.checkRateLimit (now_rate env) ip (rateLimit w) in
  let w1 := with_rateLimit w m in
  if negb allowed then
    (mkResponse 429
       (JObj [ ("success", JBool false);
               ("error", JStr (js "Rate limit exceeded")) ]%string)
       [],
     w1)
  else run_handler (try_block env req) errorResponse w1.

End RouteA.

(** *** The upload route that throws on rate limiting and sweeps through
    [Promise.all] (second unnamed source file) *)
Module RouteB.

(** [String.prototype.toUpperCase] on the ASCII range. *)
Definition toUpperCase (s : jsstring) : jsstring :=
  List.map (fun c => if is_lower c then (c - 32)%N else c) s.

Definition checked_rate_limit (env : UploadEnv) (req : Request) : M unit :=
  fun w =>
    let ip := client_ip req in
    let '(allowed, m) :=
      RateLimit.checkRateLimit (now_rate env) ip (rateLimit w) in
    let w1 := with_rateLimit w m in
    if negb allowed
    then (Throw (FileUploadError (js "Rate limit exceeded")
                                 (js "RATE_LIMIT_EXCEEDED") 429), w1)
    else (Ok tt, w1).

(** [lastModified] below stands for the [Date] of [stats.mtime] as JSON
    prints it; it is kept as a number of milliseconds. *)
Definition try_block (env : UploadEnv) (req : Request) : M Response :=
  checked_rate_limit env req ;;;
  ensureUploadDirectory env ;;;
  data <- formData_get_file req ;;
  match as_file data with
  | None =>
      throw (FileUploadError (js "No file provided") (js "INVALID_FILE") 400)
  | Some file =>
      if size file >? MAX_FILE_SIZE then
        throw (FileUploadError
                 (js "File size exceeds " ++
                  string_of_int (MAX_FILE_SIZE / 1024 / 1024) ++ js "MB limit")
                 (js "FILE_TOO_LARGE") 400)
      else if negb (validateFileType file) then
        throw (FileUploadError
                 (js "Invalid file type. Only JPEG, PNG, and WebP allowed.")
                 (js "INVALID_FILE_TYPE") 400)
      else
        let filename := generateSafeFilename (unique env) (name file) in
        writeFile env filename (content file) ;;;
        stats <- stat env filename ;;
        let metadata :=
          JObj [ ("width", JNum 0);
                 ("height", JNum 0);
                 ("size", JNum (esize stats));
                 ("format",
                  JStr (toUpperCase (slice_from (Path.extname filename) 1)));
                 ("lastModified", JNum (mtimeMs stats)) ]%string in
        run_sweep (Sweep.cleanupOldFiles_parallel (sweep_pending env)) env ;;;
        ret (mkResponse 200
               (JObj [ ("success", JBool true);
                       ("data",
                        JObj [ ("filename", JStr filename);
                               ("url", JStr (js "/uploads/" ++ filename));
                               ("metadata", metadata) ]) ]%string)
               (corsHeaders ++ securityHeaders))
  end.

Definition POST (env : UploadEnv) (req : Request) (w : World)
    : Response * World :=
  run_handler (try_block env req) errorResponse w.

End RouteB.

(** *** [app/api/upload/route.ts]: no rate limiter, no error codes, no
    signature check, no sweep *)
Module RouteBasic.

Definition catch (error : Exn) : Response :=
  mkResponse 500
    (JObj [ ("success", JBool false);
            ("error", JStr (js "Upload failed"));
            ("details",
             JStr (match error with
                   | FileUploadError message _ _
                   | Other (ErrorObject message) => message
                   | Other NonError => js "Unknown error"
                   end)) ]%string)
    [].

Definition try_block (env : UploadEnv) (req : Request) : M Response :=
  ensureUploadDirectory env ;;;
  data <- formData_get_file req ;;
  match as_file data with
  | None =>
      ret (mkResponse 400
             (JObj [ ("success", JBool false);
                     ("error",
                      JStr (js "No file provided or invalid file format")) ]%string)
             [])
  | Some file =>
      if size file >? MAX_FILE_SIZE then
        ret (mkResponse 400
               (JObj [ ("success", JBool false);
                       ("error",
                        JStr (js "File size exceeds maximum limit of " ++
                              string_of_int (MAX_FILE_SIZE / 1024 / 1024) ++
                              js "MB")) ]%string)
               [])
      else if negb (validateFileType_basic file) then
        ret (mkResponse 400
               (JObj [ ("success", JBool false);
                       ("error",
                        JStr (js "Invalid file type. Only JPEG, PNG, and WebP files are allowed.")) ]%string)
               [])
      else
        let filename := generateSafeFilename_prefixed (unique env) (name file) in
        writeFile env filename (content file) ;;;
        stats <- getFileStats env filename ;;
        match stats with
        | None => throw (PlainError (js "File failed to write to disk"))
        | Some stats =>
            ret (mkResponse 200
                   (JObj [ ("success", JBool true);
                           ("filename", JStr filename);
                           ("url", JStr (js "/uploads/" ++ filename));
                           ("size", JNum (esize stats));
                           ("type", JStr (type file)) ]%string)
                   [])
        end
  end.

Definition POST (env : UploadEnv) (req : Request) (w : World)
    : Response * World :=
  run_handler (try_block env req) catch w.

End RouteBasic.

(* ===================================================================== *)
(** ** Processing handler ([app/api/process/route.ts]) *)
(* ===================================================================== *)

Module Process.

(** The object [JSON.parse] returned, as far as the handler reads it.
    [dimensions] holds [`${width}`] and [`${height}`]; a field that would
    make the handler throw when read is [None] ([outputFormat] missing or
    not a string). *)
Record Config := mkConfig {
  resize : bool;                                 (* truthiness *)
  dimensions : option (jsstring * jsstring);
  colorCorrection : bool;                        (* truthiness *)
  outputFormat : option jsstring
}.

(** [JSON.parse(formData.get('config'))]: throws, yields [null], or yields
    something whose fields can be read. *)
Inductive Parsed :=
| ParseThrows (e : Exn)
| ParsedNull
| ParsedConfig (c : Config).

Definition parsed_config (p : Parsed) : Result (option Config) :=
  match p with
  | ParseThrows e => Throw e
  | ParsedNull => Ok None
  | ParsedConfig c => Ok (Some c)
  end.

(** One uploaded image with the unique prefix drawn for it. *)
Record Image := mkImage {
  image_file : File;
  image_unique : Unique
}.

Record ProcRequest := mkProcRequest {
  images : Result (list Image);       (* formData(), getAll('images') *)
  config : Parsed
}.

(** The platform around the handler. [path_join] is Node's [path.join],
    left uninterpreted; the three predicates tell which calls fail. *)
Record ProcEnv := mkProcEnv {
  uploadDir : jsstring;
  processedDir : jsstring;
  path_join : jsstring -> jsstring -> jsstring;
  mkdir_fails : bool;
  write_fails : jsstring -> bool;      (* by path *)
  exec_fails : jsstring -> bool;       (* by command line *)
  remove_fails : jsstring -> bool      (* unlink, by path *)
}.

(** What the handler did to the outside world, in order. *)
Inductive Effect :=
| Wrote (path : jsstring)
| Ran (command : jsstring)
| Unlinked (path : jsstring).

Definition uniquePrefix (u : Unique) : jsstring :=
  string_of_int (date_now u) ++ [DASH] ++
  slice_from (toString36 (random_digits u)) 2.

Definition uploadPath (env : ProcEnv) (img : Image) : jsstring :=
  path_join env (uploadDir env)
    (uniquePrefix (image_unique img) ++ [DASH] ++ name (image_file img)).

Definition outputFilename (img : Image) : jsstring :=
  js "processed-" ++ uniquePrefix (image_unique img) ++ [DASH] ++
  name (image_file img).

(** The double quote character of the command line. *)
Definition QUOTE : jsstring := [34%N].

(** The [convert] command line, when [config.outputFormat.toLowerCase()]
    does not throw. *)
Definition command (env : ProcEnv) (c : Config) (img : Image)
    : option jsstring :=
  let c1 := js "convert " ++ QUOTE ++ uploadPath env img ++ QUOTE in
  let c2 := match resize c, dimensions c with
            | true, Some (width, height) =>
                c1 ++ js " -resize " ++ width ++ js "x" ++ height ++ js "!"
            | _, _ => c1
            end in
  let c3 := if colorCorrection c then c2 ++ js " -auto-level -normalize"
            else c2 in
  match outputFormat c with
  | None => None
  | Some fmt =>
      Some (c3 ++ js " " ++ QUOTE ++
            path_join env (processedDir env) (outputFilename img) ++
            js "." ++ toLowerCase fmt ++ QUOTE)
  end.

Definition descriptor (fmt : jsstring) (img : Image) : json :=
  JObj [ ("original", JStr (name (image_file img)));
         ("processed", JStr (outputFilename img ++ js "." ++ toLowerCase fmt));
         ("url", JStr (js "/processed/" ++ outputFilename img ++ js "." ++
                       toLowerCase fmt)) ]%string.

Definition TypeError : Exn := PlainError (js "TypeError").
Definition SystemError : Exn := PlainError (js "SystemError").

(** The body of the [for (const file of files)] loop, with
    [processedFiles] and the trace of effects threaded through. *)
Fixpoint process_loop (env : ProcEnv) (cfg : option Config)
    (files : list Image)
    (processedFiles : list json) (trace : list Effect)
    : Result (list json) * list Effect :=
  match files with
  | [] => (Ok processedFiles, trace)
  | img :: rest =>
      if write_fails env (uploadPath env img) then (Throw SystemError, trace)
      else
        let trace := trace ++ [Wrote (uploadPath env img)] in
        match cfg with
        | None => (Throw TypeError, trace)           (* config.resize *)
        | Some c =>
            match command env c img, outputFormat c with
            | Some cmd, Some fmt =>
                if exec_fails env cmd then (Throw SystemError, trace)
                else
                  let trace := trace ++ [Ran cmd] in
                  if remove_fails env (uploadPath env img)
                  then (Throw SystemError, trace)
                  else
                    process_loop env cfg rest
                      (processedFiles ++ [descriptor fmt img])
                      (trace ++ [Unlinked (uploadPath env img)])
            | _, _ => (Throw TypeError, trace)       (* .toLowerCase() *)
            end
        end
  end.

Definition failure : Response :=
  mkResponse 500
    (JObj [ ("error", JStr (js "Failed to process images")) ]%string) [].

Definition POST (env : ProcEnv) (req : ProcRequest) : Response * list Effect :=
  match images req with
  | Throw _ => (failure, [])
  | Ok files =>
      match parsed_config (config req) with
      | Throw _ => (failure, [])
      | Ok cfg =>
          if bool_decide (files = []) then
            (mkResponse 400
               (JObj [ ("error", JStr (js "No files provided")) ]%string) [],
             [])
          else if mkdir_fails env then (failure, [])
          else
            match process_loop env cfg files [] [] with
            | (Ok processedFiles, trace) =>
                (mkResponse 200
                   (JObj [ ("success", JBool true);
                           ("files", JArr processedFiles) ]%string) [],
                 trace)
            | (Throw _, trace) => (failure, trace)
            end
      end
  end.

End Process.

(* ===================================================================== *)
(** ** Vocabulary of the properties *)
(* ===================================================================== *)

(** The first call of a window: the key is unknown, or its window is over. *)
Definition opens_window (m : gmap jsstring RateLimit.Entry) (k : jsstring)
    (now : Z) : Prop :=
  match m !! k with
  | None => True
  | Some e => RateLimit.resetTime e < now
  end.


(** Old enough to be swept. *)
Definition eligible (now : Z) (file : DirEntry) : bool :=
  now - mtimeMs file >? Sweep.MAX_AGE.

(** The order of two names by their bytes, as [readdir] sorts them (for
    names in ASCII the code units are the bytes). *)
Fixpoint name_ltb (a b : jsstring) : bool :=
  match a, b with
  | _, [] => false
  | [], _ :: _ => true
  | x :: a', y :: b' => (x <? y)%N || ((x =? y)%N && name_ltb a' b')
  end.

(** A listing [readdir] can return: the names in ascending order, each
    once. *)
Fixpoint listed_in_order (files : list DirEntry) : bool :=
  match files with
  | [] => true
  | f :: rest =>
      match rest with
      | [] => true
      | g :: _ => name_ltb (ename f) (ename g) && listed_in_order rest
      end
  end.




(** The request gets past the rate limiter. *)
Definition passes_rate_limit (env : UploadEnv) (req : Request) (w : World)
    : Prop :=
  (RateLimit.checkRateLimit (now_rate env) (client_ip req) (rateLimit w)).1
  = true.

(** The upload directory exists or can be made. *)
Definition directory_ready (env : UploadEnv) (w : World) : Prop :=
  uploads w = None -> mkdir_error env = None.

(** The errors the two fuller routes construct. *)
Module Errors.
Definition RATE_LIMIT_EXCEEDED : Exn :=
  FileUploadError (js "Rate limit exceeded") (js "RATE_LIMIT_EXCEEDED") 429.
Definition INVALID_FILE_A : Exn :=
  FileUploadError (js "No file provided or invalid file format")
                  (js "INVALID_FILE") 400.
Definition INVALID_FILE_B : Exn :=
  FileUploadError (js "No file provided") (js "INVALID_FILE") 400.
Definition FILE_TOO_LARGE_A : Exn :=
  FileUploadError (js "File size exceeds maximum limit of 10MB")
                  (js "FILE_TOO_LARGE") 400.
Definition FILE_TOO_LARGE_B : Exn :=
  FileUploadError (js "File size exceeds 10MB limit") (js "FILE_TOO_LARGE") 400.
Definition INVALID_FILE_TYPE_A : Exn :=
  FileUploadError
    (js "Invalid file type. Only JPEG, PNG, and WebP files are allowed.")
    (js "INVALID_FILE_TYPE") 400.
Definition INVALID_FILE_TYPE_B : Exn :=
  FileUploadError (js "Invalid file type. Only JPEG, PNG, and WebP allowed.")
                  (js "INVALID_FILE_TYPE") 400.
Definition WRITE_ERROR : Exn :=
  FileUploadError (js "File failed to write to disk") (js "WRITE_ERROR") 500.
End Errors.

(** The answer of the first route to a rate-limited request. *)
Definition rate_limited_A : Response :=
  mkResponse 429
    (JObj [ ("success", JBool false);
            ("error", JStr (js "Rate limit exceeded")) ]%string) [].

(** The error codes of the specification with the status each goes with:
    400 for validation failures, 429 for the rate limit, 500 otherwise. *)
Definition error_taxonomy : list (jsstring * Z) :=
  [ (js "INVALID_FILE", 400);
    (js "FILE_TOO_LARGE", 400);
    (js "INVALID_FILE_TYPE", 400);
    (js "RATE_LIMIT_EXCEEDED", 429);
    (js "WRITE_ERROR", 500);
    (js "UNKNOWN_ERROR", 500) ].

(** A body of the form [{success: false, error, code}] with a code of the
    taxonomy under the status that goes with it. *)
Definition structured_failure (r : Response) : Prop :=
  exists error code,
    body r = JObj [ ("success", JBool false);
                    ("error", JStr error);
                    ("code", JStr code) ]%string /\
    (code, status r) ∈ error_taxonomy.

(** A success answer: status 200, [success: true], no [error], no [code]. *)
Definition is_success (r : Response) : Prop :=
  status r = 200 /\
  json_field "success" (body r) = Some (JBool true) /\
  json_field "error" (body r) = None /\
  json_field "code" (body r) = None.

(** The world after a successful [writeFile]. *)
Definition written (env : UploadEnv) (filename : jsstring) (bytes : list N)
    (files : list DirEntry) (w : World) : World :=
  mkWorld (rateLimit w)
    (Some (List.filter (fun f => negb (string_eqb (ename f) filename)) files
           ++ [mkDirEntry filename (write_mtime env)
                          (Z.of_nat (length bytes)) false]))
    (console w).

(** Vocabulary for the loops of [Path]. *)
Module PathSpec.
Import Path.

(** What the loop of [extname] knows after it has scanned the suffix [suf]
    of the path and still has [n] characters to go. *)
Definition ext_inv (n : nat) (suf : list N) (st : ExtState) : Prop :=
  (end_ st = (-1) /\ startDot st = (-1)) \/
  (matchedSlash st = false /\
   exists seg trail,
     suf = seg ++ trail /\
     end_ st = Z.of_nat n + Z.of_nat (length seg) /\
     (CHAR_FORWARD_SLASH ∉ seg) /\
     ((startDot st = (-1) /\ CHAR_DOT ∉ seg) \/
      exists a b, seg = a ++ CHAR_DOT :: b /\
                  startDot st = Z.of_nat n + Z.of_nat (length a) /\
                  CHAR_DOT ∉ b)).

(** What [extname] needs of the final state: when both marks are set they
    delimit a dot followed by characters that are neither dots nor
    separators. *)
Definition ext_post (p : list N) (st : ExtState) : Prop :=
  startDot st = (-1) \/ end_ st = (-1) \/
  exists a b c,
    p = a ++ (CHAR_DOT :: b) ++ c /\
    startDot st = Z.of_nat (length a) /\
    end_ st = Z.of_nat (length a) + Z.of_nat (length (CHAR_DOT :: b)) /\
    (CHAR_DOT ∉ b) /\ (CHAR_FORWARD_SLASH ∉ b).

(** A character that is neither a dot nor a separator. *)
Definition plain_char (c : N) : Prop :=
  c <> CHAR_DOT /\ c <> CHAR_FORWARD_SLASH.

(** The two shapes [extname] can return. *)
Definition ext_shaped (ext : list N) : Prop :=
  ext = [] \/ exists b, ext = CHAR_DOT :: b /\ Forall plain_char b.

(** One plain character seen by the loop of [extname]. *)
Definition ext_see_plain (i : Z) (st : ExtState) : ExtState :=
  ext_see_other (ext_see_non_slash i st).

(** A character that is not a separator. *)
Definition not_slash (c : N) : Prop := c <> CHAR_FORWARD_SLASH.

End PathSpec.

Export PathSpec.

(** The character class of the specification, [[a-zA-Z0-9.-_]], read as
    letters, digits, dot, dash and underscore. *)
Definition in_class (c : N) : bool :=
  is_alnum c || (c =? 46)%N || (c =? 45)%N || (c =? 95)%N.

Definition BACKSLASH : N := 92%N.

(** [[a-z0-9-]]: what the sanitized base and the uniqueness token are
    made of. *)
Definition is_token_char (c : N) : bool :=
  is_lower c || is_digit c || (c =? DASH)%N.

Definition token_string (l : list N) : Prop :=
  Forall (fun c => is_token_char c = true) l.

Definition class_string (l : list N) : Prop :=
  Forall (fun c => in_class c = true) l.

(* ===================================================================== *)
(** ** Concrete inputs used in the examples below *)
(* ===================================================================== *)

Module Examples.

Definition client : jsstring := js "203.0.113.7".

(** A client that has used up its quota in a window ending at 900000. *)
Definition exhausted : gmap jsstring RateLimit.Entry :=
  {[ client := RateLimit.mkEntry 100 900000 ]}.

Definition hour : Z := 60 * 60 * 1000.

(** The clock of the sweep examples. *)
Definition sweep_now : Z := 1700000000000.

Definition old_file : DirEntry :=
  mkDirEntry (js "old.png") (sweep_now - 25 * hour) 2048 false.

Definition recent_file : DirEntry :=
  mkDirEntry (js "recent.png") (sweep_now - 1 * hour) 2048 false.

(** An old entry that cannot be unlinked, listed before another old one. *)
Definition stuck_entry : DirEntry :=
  mkDirEntry (js "stuck") (sweep_now - 25 * hour) 4096 true.

Definition older_file : DirEntry :=
  mkDirEntry (js "older.jpg") (sweep_now - 26 * hour) 2048 false.

(** Another old entry that can be unlinked, listed after [stuck]. *)
Definition late_file : DirEntry :=
  mkDirEntry (js "vacation.jpg") (sweep_now - 27 * hour) 2048 false.

(** An upload directory as [readdir] lists it, sorted by name: the entry
    that cannot be unlinked stands before the last old one. *)
Definition listing : list DirEntry :=
  [older_file; recent_file; stuck_entry; late_file].

(** Eight bytes that start with the PNG signature. *)
Definition png_bytes : list N :=
  [0x89; 0x50; 0x4E; 0x47; 0x0D; 0x0A; 0x1A; 0x0A]%N.

(** PNG content declared as JPEG under a [.jpg] name. *)
Definition png_as_jpeg : File :=
  mkFile (js "photo.jpg") (js "image/jpeg") png_bytes.

(** A zero-length file with a disallowed type, and one with an allowed
    type and extension. *)
Definition empty_text : File := mkFile (js "notes.txt") (js "text/plain") [].
Definition empty_png : File := mkFile (js "blank.png") (js "image/png") [].

(** An environment in which no platform call fails. *)
Definition calm : UploadEnv :=
  mkUploadEnv 5000 None (mkUnique 1700000000000 [1; 35; 10; 0; 7]%N)
              None 1700000000001 None 1700000000002 (fun _ => false).

Definition fresh_world : World := mkWorld ∅ None [].

(** The server after [client] has used up its quota. *)
Definition exhausted_world : World := mkWorld exhausted (Some []) [].

Definition upload_of (f : File) : Request :=
  mkRequest (Some client) None (Some (FormFile f)).

Definition upload_without_file : Request :=
  mkRequest (Some client) None None.

(** A processing environment in which the external tool fails on any
    command line that mentions [broken]. *)
Definition proc_env : Process.ProcEnv :=
  Process.mkProcEnv (js "/srv/public/uploads") (js "/srv/public/processed")
    (fun dir file => dir ++ js "/" ++ file)
    false (fun _ => false) (includes (js "broken")) (fun _ => false).

Definition jpg_config : Process.Config :=
  Process.mkConfig true (Some (js "100", js "100")) false (Some (js "JPG")).

Definition good_image : Process.Image :=
  Process.mkImage (mkFile (js "cat.png") (js "image/png") png_bytes)
                  (mkUnique 1700000000000 [4; 2]%N).

Definition broken_image : Process.Image :=
  Process.mkImage (mkFile (js "broken.png") (js "image/png") [0%N])
                  (mkUnique 1700000000005 [7; 7]%N).

Definition batch : Process.ProcRequest :=
  Process.mkProcRequest (Ok [good_image; broken_image])
                        (Process.ParsedConfig jpg_config).

(** A PNG of [MAX_FILE_SIZE + 1] bytes: the signature and zeros. *)
Definition oversized : File :=
  mkFile (js "huge.png") (js "image/png")
         (Signatures.png ++ replicate (Z.to_nat (MAX_FILE_SIZE - 3)) 0%N).

End Examples.

(* ===================================================================== *)
(** ** [src/utils/errorHandlers.ts] and [src/utils/validators.ts] *)
(* ===================================================================== *)

Module Validators.

(** [class ProcessingError extends Error] with its public fields;
    [details] is optional. *)
Record ProcessingError := mkProcessingError {
  message : jsstring;
  code : jsstring;
  statusCode : Z;
  details : option jsstring
}.

(** The constructor: [statusCode] defaults to 500. *)
Definition new_ProcessingError (message code : jsstring)
    (statusCode : option Z) (details : option jsstring) : ProcessingError :=
  mkProcessingError message code (default 500 statusCode) details.

(** A caught value: an instance of [ProcessingError], or anything else. *)
Inductive Caught :=
| Processing (error : ProcessingError)
| Foreign (t : Thrown).

(** The object [errorHandler] returns; reading [details] of an object
    without that key gives [undefined], here [None]. *)
Record Handled := mkHandled {
  h_success : bool;
  h_error : jsstring;
  h_code : jsstring;
  h_details : option jsstring
}.

Definition errorHandler (error : Caught) : Handled :=
  match error with
  | Processing e => mkHandled false (message e) (code e) (details e)
  | Foreign (ErrorObject msg) => mkHandled false msg (js "UNKNOWN_ERROR") None
  | Foreign NonError =>
      mkHandled false (js "An unknown error occurred") (js "UNKNOWN_ERROR") None
  end.

(** What [validateImage] reads of the metadata sharp returns: [width] and
    [height] are numbers or [undefined]. *)
Record Metadata := mkMetadata {
  width : option Z;
  height : option Z
}.

(** [!x] on a number or [undefined] *)
Definition not_ (x : option Z) : bool :=
  match x with
  | None => true
  | Some n => n =? 0
  end.

(** [x > n], where [x] may be [undefined] *)
Definition gt (x : option Z) (n : Z) : bool :=
  match x with
  | None => false
  | Some v => v >? n
  end.

(** The [try] block of [validateImage]; [sharp] is the outcome of
    [sharp(buffer).metadata()]. *)
Definition validateImage_try (sharp : Thrown + Metadata) : Caught + Metadata :=
  match sharp with
  | inl t => inl (Foreign t)
  | inr metadata =>
      if not_ (width metadata) || not_ (height metadata) then
        inl (Processing
               (new_ProcessingError (js "Invalid image dimensions")
                  (js "INVALID_DIMENSIONS") (Some 400) None))
      else if gt (width metadata) 8000 || gt (height metadata) 8000 then
        inl (Processing
               (new_ProcessingError (js "Image dimensions too large")
                  (js "DIMENSIONS_TOO_LARGE") (Some 400) None))
      else inr metadata
  end.

(** [validateImage]: its [catch] rethrows a [ProcessingError] and replaces
    anything else. *)
Definition validateImage (sharp : Thrown + Metadata) : Caught + Metadata :=
  match validateImage_try sharp with
  | inr metadata => inr metadata
  | inl (Processing e) => inl (Processing e)
  | inl (Foreign _) =>
      inl (Processing
             (new_ProcessingError (js "Failed to validate image")
                (js "VALIDATION_FAILED") (Some 400) None))
  end.

(** The codes [validateImage] throws. *)
Definition validation_codes : list jsstring :=
  [js "INVALID_DIMENSIONS"; js "DIMENSIONS_TOO_LARGE"; js "VALIDATION_FAILED"].

End Validators.

(* ===================================================================== *)
(** ** The metadata route ([src/app/api/metadata/route.ts], kept in the
    file of the middleware) *)
(* ===================================================================== *)

Module Metadata.

(** [StrWhiteSpaceChar]: the white space and line terminators that
    [parseInt] skips. *)
Definition is_white_space (c : char) : bool :=
  bool_decide (c ∈ [9; 10; 11; 12; 13; 32; 160; 5760; 8232; 8233; 8239; 8287;
                    12288; 65279]%N)
  || ((8192 <=? c) && (c <=? 8202))%N.

Fixpoint trim_start (s : jsstring) : jsstring :=
  match s with
  | c :: s' => if is_white_space c then trim_start s' else s
  | [] => []
  end.

(** The value of a character as a digit of radix [R], if it is one. *)
Definition radix_digit (R : Z) (c : char) : option Z :=
  let v := if is_digit c then Some (Z.of_N c - 48)
           else if is_lower c then Some (Z.of_N c - 97 + 10)
           else if is_upper c then Some (Z.of_N c - 65 + 10)
           else None in
  match v with
  | Some d => if d <? R then Some d else None
  | None => None
  end.

(** The value of the longest prefix of radix-[R] digits; [None] while no
    digit has been read. *)
Fixpoint parse_digits (R : Z) (acc : option Z) (s : jsstring) : option Z :=
  match s with
  | [] => acc
  | c :: s' =>
      match radix_digit R c with
      | Some d => parse_digits R (Some (default 0 acc * R + d)) s'
      | None => acc
      end
  end.

(** The double nearest to a natural number, as an integer: a number below
    [2^53] is a double; above, the 53 leading bits are kept and the rest
    is rounded to nearest, ties to the even significand. [None] when the
    rounded value is beyond the largest double: the result is
    [Infinity]. *)
Definition to_double (n : Z) : option Z :=
  if n <? 2 ^ 53 then Some n
  else
    let e := Z.log2 n - 52 in
    let q := n / 2 ^ e in
    let r := n mod 2 ^ e in
    let half := 2 ^ (e - 1) in
    let q' := if (half <? r) || ((r =? half) && Z.odd q) then q + 1 else q in
    if q' * 2 ^ e <? 2 ^ 1024 then Some (q' * 2 ^ e) else None.

(** [parseInt(x)] without a radix, for a string or [undefined]. The
    result is a double: the one nearest to the value of the digits.
    [None] is [NaN] or an infinity; JSON writes [null] for both. *)
Definition parseInt (string : option jsstring) : option Z :=
  let inputString := default (js "undefined") string in
  let trimmed := trim_start inputString in
  let '(sign, unsigned) :=
    match trimmed with
    | c :: rest => if (c =? 45)%N then (-1, rest)
                   else if (c =? 43)%N then (1, rest)
                   else (1, trimmed)
    | [] => (1, trimmed)
    end in
  let '(R, digits) :=
    match unsigned with
    | 48%N :: x :: rest => if (x =? 120)%N || (x =? 88)%N then (16, rest)
                           else (10, unsigned)
    | _ => (10, unsigned)
    end in
  Z.mul sign <$> (parse_digits R None digits ≫= to_double).

(** Where the digits of a decimal numeral end: at the end of the string or
    at a character that is no digit and does not make a [0x] prefix. *)
Definition numeral_ends (rest : jsstring) : Prop :=
  match rest with
  | [] => True
  | c :: _ => is_digit c = false /\ c <> 120%N /\ c <> 88%N
  end.

(** [Number.MAX_SAFE_INTEGER] *)
Definition MAX_SAFE_INTEGER : Z := 2 ^ 53 - 1.

(** [s.split(' ')]; [cur] is the piece being read. *)
Fixpoint split_from (cur : jsstring) (s : jsstring) : list jsstring :=
  match s with
  | [] => [cur]
  | c :: s' =>
      if (c =? 32)%N then cur :: split_from [] s'
      else split_from (cur ++ [c]) s'
  end.

Definition split (s : jsstring) : list jsstring := split_from [] s.

Record MetaRequest := mkMetaRequest {
  formData_error : option Thrown;      (* thrown by await req.formData() *)
  image_field : option FormValue       (* formData.get('image') *)
}.

(** The platform around the handler. [path_join] is Node's [path.join],
    left uninterpreted; [identify] gives the standard output of the
    command, or [None] when [execAsync] rejects. *)
Record MetaEnv := mkMetaEnv {
  uploadDir : jsstring;
  path_join : jsstring -> jsstring -> jsstring;
  write_fails : jsstring -> bool;      (* by path *)
  identify : jsstring -> option jsstring;  (* by command line *)
  remove_fails : jsstring -> bool      (* unlink, by path *)
}.

Definition filepath (env : MetaEnv) (file : File) : jsstring :=
  path_join env (uploadDir env) (name file).

Definition command (env : MetaEnv) (file : File) : jsstring :=
  js "identify -format " ++ Process.QUOTE ++ js "%w %h %m %b" ++
  Process.QUOTE ++ js " " ++ filepath env file.

(** A number in a JSON body: [NaN] is written as [null]. *)
Definition number (x : option Z) : json :=
  match x with
  | Some n => JNum n
  | None => JNull
  end.

(** The success answer made of the standard output; a property that is
    [undefined] is left out of the body. *)
Definition answer (stdout : jsstring) : Response :=
  let parts := split stdout in
  let width := parts !! 0%nat in
  let height := parts !! 1%nat in
  let format := parts !! 2%nat in
  let size := parts !! 3%nat in
  mkResponse 200
    (JObj ([ ("width", number (parseInt width));
             ("height", number (parseInt height)) ]%string ++
           match format with
           | Some f => [ ("format", JStr f) ]%string
           | None => []
           end ++
           [ ("size", number (parseInt size)) ]%string))
    [].

Definition no_file : Response :=
  mkResponse 400 (JObj [ ("error", JStr (js "No file provided")) ]%string) [].

Definition failure : Response :=
  mkResponse 500
    (JObj [ ("error", JStr (js "Failed to extract metadata")) ]%string) [].

(** The handler, with what it did to the outside world. A field that is
    a non-empty string gets past [!file] and fails at
    [file.arrayBuffer()]. *)
Definition POST (env : MetaEnv) (req : MetaRequest)
    : Response * list Process.Effect :=
  match formData_error req with
  | Some _ => (failure, [])
  | None =>
      match image_field req with
      | None => (no_file, [])
      | Some (FormString []) => (no_file, [])
      | Some (FormString (_ :: _)) => (failure, [])
      | Some (FormFile file) =>
          if write_fails env (filepath env file) then (failure, [])
          else
            let trace := [Process.Wrote (filepath env file)] in
            match identify env (command env file) with
            | None => (failure, trace)
            | Some stdout =>
                let trace := trace ++ [Process.Ran (command env file)] in
                if remove_fails env (filepath env file) then (failure, trace)
                else (answer stdout,
                      trace ++ [Process.Unlinked (filepath env file)])
            end
      end
  end.

End Metadata.

Module MetadataExamples.

(** A platform on which no call fails and [identify] prints the data of
    a 640 by 480 PNG of 12345 bytes. *)
Definition meta_env : Metadata.MetaEnv :=
  Metadata.mkMetaEnv (js "/srv/public/uploads")
    (fun dir file => dir ++ js "/" ++ file)
    (fun _ => false)
    (fun _ => Some (js "640 480 PNG 12345B"))
    (fun _ => false).

Definition image_upload : Metadata.MetaRequest :=
  Metadata.mkMetaRequest None (Some (FormFile Examples.png_as_jpeg)).

End MetadataExamples.

(* ===================================================================== *)
(** ** Further vocabulary *)
(* ===================================================================== *)

(** Every stored counter is between 1 and [MAX_REQUESTS]. *)
Definition well_counted (m : gmap jsstring RateLimit.Entry) : Prop :=
  map_Forall
    (fun _ e => 1 <= RateLimit.count e <= RateLimit.MAX_REQUESTS) m.

(** The map after a sequence of calls, each with its clock reading and
    its key. *)
Fixpoint serve (requests : list (Z * jsstring))
    (m : gmap jsstring RateLimit.Entry) : gmap jsstring RateLimit.Entry :=
  match requests with
  | [] => m
  | (now, ip) :: rest => serve rest (RateLimit.checkRateLimit now ip m).2
  end.

(** How many of [n] calls are granted when [c] have been counted. *)
Definition grants (c : Z) (n : nat) : nat :=
  Nat.min n (Z.to_nat (RateLimit.MAX_REQUESTS - c)).

(** What a processed image leaves in the trace, and when none of its
    three platform calls fails. The command line is there whenever
    [outputFormat] is. *)
Definition image_effects (env : Process.ProcEnv) (c : Process.Config)
    (img : Process.Image) : list Process.Effect :=
  [ Process.Wrote (Process.uploadPath env img);
    Process.Ran (default [] (Process.command env c img));
    Process.Unlinked (Process.uploadPath env img) ].

Definition image_succeeds (env : Process.ProcEnv) (c : Process.Config)
    (img : Process.Image) : Prop :=
  Process.write_fails env (Process.uploadPath env img) = false /\
  Process.exec_fails env (default [] (Process.command env c img)) = false /\
  Process.remove_fails env (Process.uploadPath env img) = false.

(** The answer of the processing handler to an empty batch. *)
Definition no_files_provided : Response :=
  mkResponse 400 (JObj [ ("error", JStr (js "No files provided")) ]%string) [].

(** Its answer when every image was processed. *)
Definition processed (fmt : jsstring) (files : list Process.Image) : Response :=
  mkResponse 200
    (JObj [ ("success", JBool true);
            ("files", JArr (List.map (Process.descriptor fmt) files)) ]%string)
    [].

(** The answer of the first route to an upload it stored. *)
Definition stored_A (env : UploadEnv) (file : File) : Response :=
  let filename := generateSafeFilename (unique env) (name file) in
  mkResponse 200
    (JObj [ ("success", JBool true);
            ("filename", JStr filename);
            ("url", JStr (js "/uploads/" ++ filename));
            ("size", JNum (size file));
            ("type", JStr (type file)) ]%string)
    (corsHeaders ++ securityHeaders).

(** The answer of the basic route to an upload it stored. *)
Definition stored_basic (env : UploadEnv) (file : File) : Response :=
  let filename := generateSafeFilename_prefixed (unique env) (name file) in
  mkResponse 200
    (JObj [ ("success", JBool true);
            ("filename", JStr filename);
            ("url", JStr (js "/uploads/" ++ filename));
            ("size", JNum (size file));
            ("type", JStr (type file)) ]%string)
    [].

(** The upload directory is as it was, or was missing and has been made. *)
Definition directory_untouched (before after : option (list DirEntry)) : Prop :=
  after = before \/ (before = None /\ after = Some []).

Module MoreExamples.

(** Two bytes of a shell script under an image name and type. *)
Definition script_as_png : File :=
  mkFile (js "run.png") (js "image/png") [35; 33]%N.

(** An environment in which only the [stat] after the write fails. *)
Definition stat_fails : UploadEnv :=
  mkUploadEnv 5000 None (mkUnique 1700000000000 [1; 35; 10; 0; 7]%N)
              None 1700000000001 (Some (ErrorObject (js "EACCES")))
              1700000000002 (fun _ => false).

End MoreExamples.


(** The four values of [metadata.format] that go with the allowed
    extensions. *)
Definition FORMATS : list jsstring :=
  [js "JPG"; js "JPEG"; js "PNG"; js "WEBP"].

(** The answer of the second route to an upload it stored. *)
Definition stored_B (env : UploadEnv) (file : File) (format : jsstring)
    : Response :=
  let filename := generateSafeFilename (unique env) (name file) in
  mkResponse 200
    (JObj [ ("success", JBool true);
            ("data",
             JObj [ ("filename", JStr filename);
                    ("url", JStr (js "/uploads/" ++ filename));
                    ("metadata",
                     JObj [ ("width", JNum 0);
                            ("height", JNum 0);
                            ("size", JNum (size file));
                            ("format", JStr format);
                            ("lastModified", JNum (write_mtime env)) ]) ])
          ]%string)
    (corsHeaders ++ securityHeaders).

(* ===================================================================== *)
(** ** Properties of the rate limiter *)
(* ===================================================================== *)

Section rate_limit.
Import RateLimit.

Implicit Types (m : gmap jsstring Entry) (ip k : jsstring) (now : Z).

Lemma alter_present {A} (f : A -> A) (m : gmap jsstring A) ip x :
  m !! ip = Some x -> alter f ip m = <[ip := f x]> m.
Proof.
  intros Hm. apply map_eq. intros k. destruct (decide (k = ip)) as [->|Hk].
  - by rewrite lookup_alter_eq, lookup_insert_eq, Hm.
  - by rewrite lookup_alter_ne, lookup_insert_ne.
Qed.

(** Writing through the stored object and storing it back comes to
    replacing the value under the key. *)
Lemma checkRateLimit_values now ip m :
  checkRateLimit now ip m = checkRateLimit_by_value now ip m.
Proof.
  unfold checkRateLimit, checkRateLimit_by_value, get_or.
  destruct (m !! ip) as [e|] eqn:Hm.
  - unfold deref. cbn [fst snd]. rewrite Hm. cbn [default from_option id].
    destruct (now >? resetTime e).
    + unfold set_count, set_resetTime, map_set. cbn [fst snd].
      rewrite (alter_present _ m ip e) by done.
      erewrite alter_present by apply lookup_insert_eq.
      cbn. by rewrite insert_insert_eq.
    + destruct (count e >=? MAX_REQUESTS); [done|].
      unfold set_count, map_set. cbn [fst snd].
      by rewrite (alter_present _ m ip e).
  - unfold deref. cbn [fst snd default from_option id].
    destruct (now >? resetTime _); [done|].
    destruct (count _ >=? MAX_REQUESTS); done.
Qed.

Lemma checkRateLimit_fresh now ip m :
  m !! ip = None ->
  checkRateLimit now ip m = (true, <[ip := mkEntry 1 (now + WINDOW_MS)]> m).
Proof.
  intros Hm. rewrite checkRateLimit_values. unfold checkRateLimit_by_value.
  rewrite Hm. cbn.
  destruct (Z.gtb_spec now (now + WINDOW_MS)) as [H|H];
    [unfold WINDOW_MS in H; lia | reflexivity].
Qed.

Lemma checkRateLimit_expired now ip m e :
  m !! ip = Some e -> resetTime e < now ->
  checkRateLimit now ip m = (true, <[ip := mkEntry 1 (now + WINDOW_MS)]> m).
Proof.
  intros Hm Hlt. rewrite checkRateLimit_values. unfold checkRateLimit_by_value.
  rewrite Hm. cbn.
  destruct (Z.gtb_spec now (resetTime e)); [reflexivity | lia].
Qed.

Lemma checkRateLimit_counted now ip m e :
  m !! ip = Some e -> now <= resetTime e -> count e < MAX_REQUESTS ->
  checkRateLimit now ip m =
    (true, <[ip := mkEntry (count e + 1) (resetTime e)]> m).
Proof.
  intros Hm Hle Hc. rewrite checkRateLimit_values. unfold checkRateLimit_by_value.
  rewrite Hm. cbn.
  destruct (Z.gtb_spec now (resetTime e)); [lia |].
  destruct (Z.geb_spec (count e) MAX_REQUESTS); [lia | reflexivity].
Qed.

Lemma checkRateLimit_denied now ip m e :
  m !! ip = Some e -> now <= resetTime e -> MAX_REQUESTS <= count e ->
  checkRateLimit now ip m = (false, m).
Proof.
  intros Hm Hle Hc. rewrite checkRateLimit_values. unfold checkRateLimit_by_value.
  rewrite Hm. cbn.
  destruct (Z.gtb_spec now (resetTime e)); [lia |].
  destruct (Z.geb_spec (count e) MAX_REQUESTS); [reflexivity | lia].
Qed.

(** Inside a window, calls are granted while quota is left. *)
Lemma calls_within_quota (ts : list Z) : forall k m c r,
  m !! k = Some (mkEntry c r) ->
  Forall (fun t => t <= r) ts ->
  c + Z.of_nat (length ts) <= MAX_REQUESTS ->
  calls ts k m =
    (replicate (length ts) true,
     <[k := mkEntry (c + Z.of_nat (length ts)) r]> m).
Proof.
  induction ts as [|t ts IH]; intros k m c r Hm Hts Hc.
  - cbn. rewrite Z.add_0_r. by rewrite insert_id.
  - apply Forall_cons in Hts as [Ht Hts]. cbn [calls length] in *.
    rewrite (checkRateLimit_counted t k m (mkEntry c r)); cbn; [|done|done|lia].
    rewrite (IH k _ (c + 1) r); [| by rewrite lookup_insert_eq | done | lia].
    rewrite insert_insert_eq. cbn. do 3 f_equal. lia.
Qed.

(** Inside a window, once the quota is used up every call is refused and
    nothing is written. *)
Lemma calls_over_quota (ts : list Z) : forall k m e,
  m !! k = Some e ->
  Forall (fun t => t <= resetTime e) ts ->
  MAX_REQUESTS <= count e ->
  calls ts k m = (replicate (length ts) false, m).
Proof.
  induction ts as [|t ts IH]; intros k m e Hm Hts Hc; [done|].
  apply Forall_cons in Hts as [Ht Hts]. cbn [calls length].
  rewrite (checkRateLimit_denied t k m e) by done.
  by rewrite (IH k m e).
Qed.

Lemma checkRateLimit_opens now k m :
  opens_window m k now ->
  checkRateLimit now k m = (true, <[k := mkEntry 1 (now + WINDOW_MS)]> m).
Proof.
  unfold opens_window. destruct (m !! k) as [e|] eqn:Hm; intros H.
  - by apply (checkRateLimit_expired now k m e).
  - by apply checkRateLimit_fresh.
Qed.

(** C3. From the call that opens a window for key [k] at time [t0], the
    first 100 calls made no later than the window end [t0 + WINDOW_MS] all
    return [true]; a 101st call inside the window returns [false]; and the
    first call after the window end returns [true], storing count 1 and the
    new window end. *)
Theorem rate_limit_hundred_per_window
    (k : jsstring) (m : gmap jsstring Entry) (t0 : Z) (ts : list Z)
    (t101 tafter : Z) :
  opens_window m k t0 ->
  length ts = 99%nat ->
  Forall (fun t => t <= t0 + WINDOW_MS) ts ->
  t101 <= t0 + WINDOW_MS ->
  t0 + WINDOW_MS < tafter ->
  exists m100,
    calls (t0 :: ts) k m = (replicate 100 true, m100) /\
    m100 !! k = Some (mkEntry 100 (t0 + WINDOW_MS)) /\
    checkRateLimit t101 k m100 = (false, m100) /\
    checkRateLimit tafter k m100 =
      (true, <[k := mkEntry 1 (tafter + WINDOW_MS)]> m100).
Proof.
  intros Hopen Hlen Hts H101 Hafter.
  exists (<[k := mkEntry 100 (t0 + WINDOW_MS)]> m).
  assert (Hk : <[k := mkEntry 100 (t0 + WINDOW_MS)]> m !! k
               = Some (mkEntry 100 (t0 + WINDOW_MS)))
    by apply lookup_insert_eq.
  split; [| split; [done | split]].
  - cbn [calls]. rewrite checkRateLimit_opens by done.
    rewrite (calls_within_quota ts k _ 1 (t0 + WINDOW_MS));
      [| by rewrite lookup_insert_eq | done | rewrite Hlen; unfold MAX_REQUESTS; lia].
    rewrite insert_insert_eq, Hlen. reflexivity.
  - by apply (checkRateLimit_denied _ _ _ (mkEntry 100 (t0 + WINDOW_MS))).
  - by apply (checkRateLimit_expired _ _ _ (mkEntry 100 (t0 + WINDOW_MS))).
Qed.

Lemma rate_limit_hundred_per_window_witness :
  exists m100,
    calls (1000 :: replicate 99 2000) Examples.client ∅
      = (replicate 100 true, m100) /\
    m100 !! Examples.client = Some (mkEntry 100 (1000 + WINDOW_MS)) /\
    checkRateLimit 3000 Examples.client m100 = (false, m100) /\
    checkRateLimit 901001 Examples.client m100 =
      (true, <[Examples.client := mkEntry 1 (901001 + WINDOW_MS)]> m100).
Proof.
  apply (rate_limit_hundred_per_window Examples.client ∅ 1000
           (replicate 99 2000) 3000 901001).
  - unfold opens_window. rewrite lookup_empty. exact I.
  - reflexivity.
  - apply Forall_forall. intros t Ht.
    apply elem_of_replicate in Ht as [-> _].
    vm_compute. discriminate.
  - vm_compute. discriminate.
  - vm_compute. reflexivity.
Defined.

(** C10. A refused call leaves the rate-limit map exactly as it was: the
    refused key keeps its count and its window end, and it was refused
    because its window had not elapsed and its count had reached the
    maximum. *)
Theorem denied_request_leaves_map_unchanged
    (now : Z) (ip : jsstring) (m m' : gmap jsstring Entry) :
  checkRateLimit now ip m = (false, m') ->
  m' = m /\
  exists e, m !! ip = Some e /\ m' !! ip = Some e /\
            now <= resetTime e /\ MAX_REQUESTS <= count e.
Proof.
  rewrite checkRateLimit_values. unfold checkRateLimit_by_value.
  destruct (m !! ip) as [e|] eqn:Hm; cbn.
  - destruct (Z.gtb_spec now (resetTime e)); [discriminate|].
    destruct (Z.geb_spec (count e) MAX_REQUESTS); [|discriminate].
    intros [= <-]. split; [done|]. exists e. repeat split; try done; lia.
  - destruct (Z.gtb_spec now (now + WINDOW_MS)); [discriminate|].
    cbn. discriminate.
Qed.

Lemma denied_request_leaves_map_unchanged_witness :
  Examples.exhausted = Examples.exhausted /\
  exists e, Examples.exhausted !! Examples.client = Some e /\
            Examples.exhausted !! Examples.client = Some e /\
            5000 <= resetTime e /\ MAX_REQUESTS <= count e.
Proof.
  apply (denied_request_leaves_map_unchanged 5000 Examples.client).
  vm_compute. reflexivity.
Defined.

End rate_limit.

(* ===================================================================== *)
(** ** Properties of the retention sweep *)
(* ===================================================================== *)

Section sweep.
Import Sweep.

(** [cleanupUploads] removes exactly the entries that are older than
    [MAX_AGE] and can be unlinked, whatever happens to the others. *)
Lemma cleanupUploads_all_kept now files :
  (cleanupUploads_all now files).1 =
  List.filter (fun f => negb (eligible now f) || unlink_fails f) files.
Proof.
  induction files as [|f files IH]; [done|].
  cbn [cleanupUploads_all List.filter].
  destruct (cleanupUploads_all now files) as [kept2 log2]. cbn in IH. subst kept2.
  unfold cleanupUploads_entry, eligible.
  destruct (now - mtimeMs f >? MAX_AGE); cbn; [|done].
  destruct (unlink_fails f); done.
Qed.


(** With no failing [unlink], the sequential loop of the upload route
    removes exactly the entries older than [MAX_AGE]. *)
Lemma cleanupOldFiles_loop_no_failure now files :
  Forall (fun f => eligible now f = true -> unlink_fails f = false) files ->
  cleanupOldFiles_loop now files =
    (List.filter (fun f => negb (eligible now f)) files, false).
Proof.
  induction 1 as [|f files Hf _ IH]; [done|].
  cbn [cleanupOldFiles_loop List.filter]. unfold eligible in *.
  destruct (now - mtimeMs f >? MAX_AGE); cbn.
  - by rewrite Hf.
  - by rewrite IH.
Qed.


(** The scenario of the specification: of one file 25 hours old and one an
    hour old, every variant of the sweep deletes the first only. *)
Example sweep_scenario settle pending :
  let dir := Some [Examples.old_file; Examples.recent_file] in
  (cleanupUploads settle Examples.sweep_now dir).1
    = Some [Examples.recent_file] /\
  (cleanupOldFiles Examples.sweep_now dir).1 = Some [Examples.recent_file] /\
  (cleanupOldFiles_parallel pending Examples.sweep_now dir).1
    = Some [Examples.recent_file].
Proof. vm_compute. done. Qed.

(** The boundary: an entry exactly [MAX_AGE] old is kept. *)
Example sweep_boundary settle now :
  (cleanupUploads settle now
     (Some [mkDirEntry (js "edge.png") (now - MAX_AGE) 1 false])).1
  = Some [mkDirEntry (js "edge.png") (now - MAX_AGE) 1 false].
Proof.
  cbn. unfold cleanupUploads_entry. cbn.
  replace (now - (now - MAX_AGE)) with MAX_AGE by lia. done.
Qed.

(** The best-effort behaviour in [cleanupUploads] of [cleanup.ts]: the
    entry that cannot be unlinked stays and is logged, the old entry
    listed after it is deleted all the same, whatever the order in which
    the tasks settle; when they settle in listing order, the lines come in
    that order. *)
Example cleanupUploads_survives_failed_unlink settle :
  (cleanupUploads settle Examples.sweep_now (Some Examples.listing)).1
  = Some [Examples.recent_file; Examples.stuck_entry] /\
  (cleanupUploads id Examples.sweep_now (Some Examples.listing)).2
  = [CleanedUp (js "older.jpg"); FailedToDelete (js "stuck");
     CleanedUp (js "vacation.jpg")].
Proof. vm_compute. done. Qed.

(** C5 (code defect). On a directory listed in the order of the names,
    [cleanupOldFiles] of the upload route stops at the entry that cannot
    be unlinked: the old entry listed after it is never examined and stays
    in the directory, where the claim has it deleted. *)
Theorem cleanupOldFiles_aborts_on_failed_unlink :
  listed_in_order Examples.listing = true /\
  cleanupOldFiles Examples.sweep_now (Some Examples.listing)
  = (Some [Examples.recent_file; Examples.stuck_entry; Examples.late_file],
     [CleanupError]) /\
  eligible Examples.sweep_now Examples.late_file = true /\
  unlink_fails Examples.late_file = false.
Proof. vm_compute. done. Qed.

End sweep.

(* ===================================================================== *)
(** ** Properties of the processing handler *)
(* ===================================================================== *)

Section process.
Import Process.

(** Once some image of the list makes the external tool fail, the loop
    throws, whatever was collected so far. *)
Lemma process_loop_throws env c files : forall img cmd acc trace,
  img ∈ files ->
  command env c img = Some cmd ->
  exec_fails env cmd = true ->
  exists e trace', process_loop env (Some c) files acc trace = (Throw e, trace').
Proof.
  induction files as [|f files IH]; intros img cmd acc trace Hin Hcmd Hfail.
  - inversion Hin.
  - cbn [process_loop].
    destruct (write_fails env (uploadPath env f)); [by eauto|].
    destruct (command env c f) as [cmdf|] eqn:Hcf;
      [destruct (outputFormat c) as [fmt|] eqn:Hfmt|]; [|by eauto|by eauto].
    destruct (exec_fails env cmdf) eqn:Hef; [by eauto|].
    destruct (remove_fails env (uploadPath env f)); [by eauto|].
    apply elem_of_cons in Hin as [-> | Hin]; [congruence|].
    by eapply IH.
Qed.

(** C6. If the external tool fails on any one image of a batch, the
    response is status 500 with the body [{ error: 'Failed to process
    images' }] and nothing else: in particular no [files] list, so no
    descriptor of an image processed before the failure. *)
Theorem batch_aborts_on_tool_failure
    (env : ProcEnv) (req : ProcRequest) (files : list Image) (c : Config)
    (img : Image) (cmd : jsstring) :
  images req = Ok files ->
  config req = ParsedConfig c ->
  img ∈ files ->
  command env c img = Some cmd ->
  exec_fails env cmd = true ->
  exists trace,
    POST env req = (failure, trace) /\
    status failure = 500 /\
    body failure =
      JObj [("error", JStr (js "Failed to process images"))]%string /\
    json_field "files" (body failure) = None.
Proof.
  intros Himgs Hcfg Hin Hcmd Hfail. unfold POST. rewrite Himgs, Hcfg. cbn.
  case_bool_decide as Hnil; [subst files; inversion Hin|].
  destruct (mkdir_fails env); [by eauto|].
  destruct (process_loop_throws env c files img cmd [] [] Hin Hcmd Hfail)
    as (e & trace' & ->).
  by eauto.
Qed.

End process.
Lemma batch_aborts_on_tool_failure_witness :
  exists trace,
    Process.POST Examples.proc_env Examples.batch = (Process.failure, trace) /\
    status Process.failure = 500 /\
    body Process.failure =
      JObj [("error", JStr (js "Failed to process images"))]%string /\
    json_field "files" (body Process.failure) = None.
Proof.
  apply (batch_aborts_on_tool_failure Examples.proc_env Examples.batch
           [Examples.good_image; Examples.broken_image] Examples.jpg_config
           Examples.broken_image
           (default [] (Process.command Examples.proc_env Examples.jpg_config
                          Examples.broken_image))).
  - reflexivity.
  - reflexivity.
  - apply list_elem_of_further, list_elem_of_here.
  - vm_compute. reflexivity.
  - vm_compute. reflexivity.
Defined.

(** The same batch without the image the tool fails on is answered with
    one descriptor whose URL ends in [.jpg]. *)
Example process_scenario :
  (Process.POST Examples.proc_env
     (Process.mkProcRequest (Ok [Examples.good_image])
        (Process.ParsedConfig Examples.jpg_config))).1
  = mkResponse 200
      (JObj [ ("success", JBool true);
              ("files",
               JArr [ JObj [ ("original", JStr (js "cat.png"));
                             ("processed",
                              JStr (js "processed-1700000000000-42-cat.png.jpg"));
                             ("url",
                              JStr (js "/processed/processed-1700000000000-42-cat.png.jpg"))
                           ] ]) ]%string)
      [].
Proof. vm_compute. reflexivity. Qed.

(* ===================================================================== *)
(** ** Properties of file-type validation *)
(* ===================================================================== *)

Section validation.

Lemma has_true (s : gset jsstring) (x : jsstring) : has s x = true <-> x ∈ s.
Proof. unfold has. apply bool_decide_eq_true. Qed.

(** On a buffer of four bytes or more, the three [every] tests compare
    whole signatures. *)
Lemma signature_tests (bytes : list N) :
  (4 <= length bytes)%nat ->
  let fileSignature := slice bytes 0 4 in
  every (byte_matches Signatures.jpeg) (slice fileSignature 0 3) ||
  every (byte_matches Signatures.png) fileSignature ||
  every (byte_matches Signatures.webp) (slice fileSignature 0 4) = true <->
  take 3 bytes = Signatures.jpeg \/
  take 4 bytes = Signatures.png \/
  take 4 bytes = Signatures.webp.
Proof.
  intros Hlen.
  destruct bytes as [|b0 [|b1 [|b2 [|b3 rest]]]]; cbn in Hlen; try lia.
  unfold every, slice, byte_matches,
    Signatures.jpeg, Signatures.png, Signatures.webp.
  simpl.
  rewrite !orb_true_iff, !andb_true_iff, !bool_decide_eq_true.
  split.
  - intros [[H | H] | H]; [left | right; left | right; right];
      destruct H as ([= <-] & [= <-] & H); [destruct H as ([= <-] & _)
        | destruct H as ([= <-] & [= <-] & _) ..]; reflexivity.
  - intros [[= -> -> ->] | [[= -> -> -> ->] | [= -> -> -> ->]]]; tauto.
Qed.

End validation.

(* ===================================================================== *)
(** ** Properties of [path.extname] and [path.basename] *)
(* ===================================================================== *)

Section path_facts.
Import Path.

Implicit Types (p l s : list N) (st : ExtState).

Lemma slice_middle {A} (a b c : list A) :
  slice (a ++ b ++ c) (Z.of_nat (length a))
        (Z.of_nat (length a) + Z.of_nat (length b)) = b.
Proof.
  unfold slice. rewrite Nat2Z.id.
  replace (Z.to_nat (Z.of_nat (length a) + Z.of_nat (length b) - Z.of_nat (length a)))
    with (length b) by lia.
  rewrite drop_app_length. by rewrite take_app_length.
Qed.

Lemma ext_inv_post (rpath suf : list N) st :
  ext_inv (length rpath) suf st -> ext_post (rev rpath ++ suf) st.
Proof.
  intros [[He Hs] | (Hm & seg & trail & -> & He & Hslash & Hdot)].
  - right; left; done.
  - destruct Hdot as [[Hs _] | (a & b & -> & Hs & Hb)]; [left; done|].
    right; right. exists (rev rpath ++ a), b, trail.
    rewrite !length_app, length_rev. rewrite length_app in He.
    split_and!.
    + by rewrite <- !app_assoc.
    + lia.
    + lia.
    + done.
    + intros Hin. apply Hslash. rewrite elem_of_app, elem_of_cons. auto.
Qed.

Lemma extname_loop_post (rpath : list N) : forall suf st,
  ext_inv (length rpath) suf st ->
  ext_post (rev rpath ++ suf)
           (extname_loop rpath (Z.of_nat (length rpath) - 1) st).
Proof.
  induction rpath as [|code rest IH]; intros suf st Hinv.
  - by apply (ext_inv_post [] suf st).
  - cbn [extname_loop].
    replace (Z.of_nat (length (code :: rest)) - 1)
      with (Z.of_nat (length rest)) by (cbn [length]; lia).
    assert (Hp : rev (code :: rest) ++ suf = rev rest ++ code :: suf)
      by (cbn [rev]; by rewrite <- app_assoc).
    destruct (N.eqb_spec code CHAR_FORWARD_SLASH) as [-> | Hns].
    + destruct (matchedSlash st) eqn:Hm; cbn [negb].
      * rewrite Hp. apply IH.
        destruct Hinv as [H | (Hm' & _)]; [by left | congruence].
      * apply ext_inv_post in Hinv.
        destruct Hinv as [H | [H | H]]; [by left | by right; left | by right; right].
    + rewrite Hp. apply IH. clear IH Hp.
      destruct Hinv as [[He Hs] | (Hm & seg & trail & -> & He & Hslash & Hdot)].
      * (* first character of the last path component *)
        unfold ext_see_non_slash. rewrite He, Z.eqb_refl.
        right.
        destruct (N.eqb_spec code CHAR_DOT) as [-> | Hnd].
        -- unfold ext_see_dot. cbn [startDot end_ matchedSlash].
           rewrite Hs, Z.eqb_refl. cbn [startDot end_ matchedSlash].
           split; [done|]. exists [CHAR_DOT], suf. split_and!.
           ++ done.
           ++ cbn [length]. lia.
           ++ by intros [?|?%elem_of_nil]%elem_of_cons.
           ++ right. exists [], []. cbn [length app].
              split_and!; [done | lia | apply not_elem_of_nil].
        -- unfold ext_see_other. cbn [startDot end_ matchedSlash].
           rewrite Hs, Z.eqb_refl. cbn [negb startDot end_ matchedSlash].
           split; [done|]. exists [code], suf. split_and!.
           ++ done.
           ++ cbn [length]. lia.
           ++ by intros [?|?%elem_of_nil]%elem_of_cons.
           ++ left. split; [done|]. by intros [?|?%elem_of_nil]%elem_of_cons.
      * (* further into the component *)
        cbn [length] in He.
        assert (Hend : (end_ st =? -1) = false) by (apply Z.eqb_neq; lia).
        unfold ext_see_non_slash. rewrite Hend.
        assert (Hslash' : CHAR_FORWARD_SLASH ∉ code :: seg)
          by (intros [?|?]%elem_of_cons; by auto).
        right.
        destruct Hdot as [[Hs Hd] | (a & b & -> & Hs & Hb)].
        -- (* no dot seen so far *)
           destruct (N.eqb_spec code CHAR_DOT) as [-> | Hnd].
           ++ unfold ext_see_dot. rewrite Hs, Z.eqb_refl.
              cbn [startDot end_ matchedSlash].
              split; [done|]. exists (CHAR_DOT :: seg), trail. cbn [length].
              split_and!; [done | lia | done |].
              right. exists [], seg. cbn [length app].
              split_and!; [done | lia | done].
           ++ unfold ext_see_other. rewrite Hs, Z.eqb_refl. cbn [negb].
              split; [done|]. exists (code :: seg), trail. cbn [length].
              split_and!; [done | lia | done |].
              left. split; [done|]. intros [?|?]%elem_of_cons; by auto.
        -- (* the last dot is already marked *)
           assert (Hsd : (startDot st =? -1) = false) by (apply Z.eqb_neq; lia).
           assert (Hkeep : forall st',
                     matchedSlash st' = matchedSlash st ->
                     end_ st' = end_ st -> startDot st' = startDot st ->
                     matchedSlash st' = false /\
                     exists seg' trail',
                       code :: (a ++ CHAR_DOT :: b) ++ trail = seg' ++ trail' /\
                       end_ st' = Z.of_nat (length rest) + Z.of_nat (length seg') /\
                       (CHAR_FORWARD_SLASH ∉ seg') /\
                       ((startDot st' = (-1) /\ CHAR_DOT ∉ seg') \/
                        exists a' b', seg' = a' ++ CHAR_DOT :: b' /\
                          startDot st' = Z.of_nat (length rest) + Z.of_nat (length a') /\
                          CHAR_DOT ∉ b')).
           { intros st' Hm' He' Hs'. split; [congruence|].
             exists (code :: a ++ CHAR_DOT :: b), trail.
             rewrite He', Hs'. cbn [length] in *.
             split_and!; [done | lia | done |].
             right. exists (code :: a), b. cbn [length].
             split_and!; [done | lia | done]. }
           destruct (N.eqb_spec code CHAR_DOT) as [-> | Hnd].
           ++ unfold ext_see_dot. rewrite Hsd.
              destruct (negb (preDotState st =? 1)); by apply Hkeep.
           ++ unfold ext_see_other. rewrite Hsd. by apply Hkeep.
Qed.

(** The examples of Node's documentation of [path.extname]. *)
Example extname_documented :
  extname (js "index.html") = js ".html" /\
  extname (js "index.coffee.md") = js ".md" /\
  extname (js "index.") = js "." /\
  extname (js "index") = js "" /\
  extname (js ".index") = js "" /\
  extname (js ".index.md") = js ".md".
Proof. vm_compute. done. Qed.

(** The last path component is what counts, and [..] has no extension. *)
Example extname_components :
  extname (js "archive.d/readme") = js "" /\
  extname (js "uploads/photo.png/") = js ".png" /\
  extname (js "..") = js "" /\
  extname (js "a..") = js ".".
Proof. vm_compute. done. Qed.

(** [extname] returns nothing, or a dot followed by characters that are
    neither dots nor separators. *)
Lemma extname_shape (p : list N) :
  extname p = [] \/
  exists b, extname p = CHAR_DOT :: b /\
            (CHAR_DOT ∉ b) /\ (CHAR_FORWARD_SLASH ∉ b).
Proof.
  unfold extname.
  pose proof (extname_loop_post (rev p) [] ext_init) as Hpost.
  rewrite length_rev, rev_involutive, app_nil_r in Hpost.
  specialize (Hpost (or_introl (conj eq_refl eq_refl))).
  set (st := extname_loop (rev p) (Z.of_nat (length p) - 1) ext_init) in *.
  destruct Hpost as [-> | [-> | (a & b & c & Hp & Hs & He & Hd & Hsl)]];
    [left; done | left; by rewrite orb_true_r | ].
  destruct (_ || _); [by left|]. right. exists b.
  rewrite Hs, He, Hp. by rewrite slice_middle.
Qed.

Lemma extname_ext_shaped (p : list N) : ext_shaped (extname p).
Proof.
  destruct (extname_shape p) as [-> | (b & -> & Hd & Hs)]; [by left|].
  right. exists b. split; [done|]. apply Forall_forall. intros c Hc.
  split; intros ->; done.
Qed.

Lemma ext_see_other_end st : end_ (ext_see_other st) = end_ st.
Proof. unfold ext_see_other. by destruct (negb _). Qed.

Lemma ext_see_non_slash_end i st :
  0 <= i -> end_ (ext_see_non_slash i st) <> -1.
Proof.
  intros Hi. unfold ext_see_non_slash.
  destruct (Z.eqb_spec (end_ st) (-1)); cbn; lia.
Qed.

Lemma ext_see_non_slash_set j st :
  end_ st <> -1 -> ext_see_non_slash j st = st.
Proof.
  intros He. unfold ext_see_non_slash.
  by destruct (Z.eqb_spec (end_ st) (-1)).
Qed.

Lemma ext_see_other_again st :
  ext_see_other (ext_see_other st) = ext_see_other st.
Proof.
  unfold ext_see_other.
  destruct (Z.eqb_spec (startDot st) (-1)) as [H|H]; cbn [negb].
  - destruct (Z.eqb_spec (startDot st) (-1)); done.
  - cbn [startDot]. destruct (Z.eqb_spec (startDot st) (-1)); done.
Qed.

Lemma ext_see_plain_again i j st :
  0 <= i -> ext_see_plain j (ext_see_plain i st) = ext_see_plain i st.
Proof.
  intros Hi. unfold ext_see_plain.
  rewrite (ext_see_non_slash_set j).
  - apply ext_see_other_again.
  - rewrite ext_see_other_end. by apply ext_see_non_slash_end.
Qed.

Lemma extname_loop_plain (l : list N) : forall c i st r,
  Forall plain_char (c :: l) ->
  0 <= i - Z.of_nat (length l) ->
  extname_loop ((c :: l) ++ r) i st =
  extname_loop r (i - 1 - Z.of_nat (length l)) (ext_see_plain i st).
Proof.
  induction l as [|d l IH]; intros c i st r Hpl Hi.
  - apply Forall_cons in Hpl as [[Hd Hs] _]. cbn [app extname_loop length].
    rewrite (proj2 (N.eqb_neq _ _) Hs), (proj2 (N.eqb_neq _ _) Hd).
    rewrite Z.sub_0_r. done.
  - apply Forall_cons in Hpl as [[Hd Hs] Hpl]. cbn [length] in Hi.
    change ((c :: d :: l) ++ r) with (c :: (d :: l) ++ r).
    cbn [extname_loop].
    rewrite (proj2 (N.eqb_neq _ _) Hs), (proj2 (N.eqb_neq _ _) Hd).
    rewrite IH by (done || lia).
    change (ext_see_other (ext_see_non_slash i st)) with (ext_see_plain i st).
    rewrite ext_see_plain_again by lia. cbn [length]. f_equal. lia.
Qed.

Lemma extname_loop_plain_all (l : list N) c i st :
  Forall plain_char (c :: l) ->
  0 <= i - Z.of_nat (length l) ->
  extname_loop (c :: l) i st = ext_see_plain i st.
Proof.
  intros Hpl Hi. rewrite <- (app_nil_r (c :: l)) at 1.
  by rewrite extname_loop_plain.
Qed.

Lemma rev_cons_inv {A} (l : list A) :
  l <> [] -> exists c rl, rev l = c :: rl /\ length l = S (length rl).
Proof.
  intros Hne. destruct (rev l) as [|c rl] eqn:Hrev.
  - apply (f_equal (@rev A)) in Hrev. rewrite rev_involutive in Hrev. done.
  - exists c, rl. split; [done|]. by rewrite <- (length_rev l), Hrev.
Qed.

Lemma Forall_rev_plain (l : list N) :
  Forall plain_char l -> Forall plain_char (rev l).
Proof.
  intros H. apply Forall_forall. intros x Hx.
  apply list_elem_of_In, in_rev, list_elem_of_In in Hx.
  by eapply Forall_forall in H.
Qed.

(** The state in which the loop of [extname] ends on a non-empty stem
    without dots and separators, followed by nothing or by a dot and
    plain characters. *)
Lemma extname_loop_stem (stem : list N) :
  stem <> [] -> Forall plain_char stem ->
  extname_loop (rev stem) (Z.of_nat (length stem) - 1) ext_init
  = mkExtState (-1) 0 (Z.of_nat (length stem)) false 0.
Proof.
  intros Hne Hstem.
  destruct (rev_cons_inv stem Hne) as (c & rstem & Hrev & Hlen).
  apply Forall_rev_plain in Hstem. rewrite Hrev in *.
  rewrite extname_loop_plain_all by (done || lia).
  unfold ext_see_plain, ext_see_other, ext_see_non_slash, ext_init. cbn.
  f_equal. lia.
Qed.

Lemma extname_loop_dot (rest : list N) i st :
  extname_loop (CHAR_DOT :: rest) i st =
  extname_loop rest (i - 1) (ext_see_dot i (ext_see_non_slash i st)).
Proof. reflexivity. Qed.

Lemma of_nat_not_minus_one (n : nat) : (Z.of_nat n =? -1) = false.
Proof. apply Z.eqb_neq. lia. Qed.

Ltac decide_eqb :=
  repeat match goal with
         | |- context [?x =? ?y] =>
             destruct (Z.eqb_spec x y); simpl in *; try lia
         end.

Lemma extname_loop_stem_ext (stem b : list N) :
  stem <> [] -> Forall plain_char stem -> Forall plain_char b ->
  extname_loop (rev (stem ++ CHAR_DOT :: b))
    (Z.of_nat (length (stem ++ CHAR_DOT :: b)) - 1) ext_init
  = mkExtState (Z.of_nat (length stem)) 0
      (Z.of_nat (length (stem ++ CHAR_DOT :: b))) false (-1).
Proof.
  intros Hne Hstem Hb.
  destruct (rev_cons_inv stem Hne) as (c & rstem & Hrev & Hlen).
  apply Forall_rev_plain in Hstem, Hb.
  rewrite rev_app_distr, length_app. cbn [rev length].
  rewrite <- app_assoc. cbn [app]. rewrite Hrev in *.
  destruct (rev b) as [|d rb] eqn:Hrb.
  - (* the name ends with the dot *)
    assert (Hb0 : length b = 0%nat) by (by rewrite <- (length_rev b), Hrb).
    rewrite Hb0. cbn [app].
    replace (Z.of_nat (length stem + 1) - 1) with (Z.of_nat (length stem)) by lia.
    rewrite extname_loop_dot, extname_loop_plain_all by (done || lia).
    unfold ext_see_plain, ext_see_other, ext_see_dot, ext_see_non_slash, ext_init.
    simpl. decide_eqb. f_equal; lia.
  - (* plain characters after the dot *)
    assert (Hbl : length b = S (length rb)) by (by rewrite <- (length_rev b), Hrb).
    rewrite extname_loop_plain by (done || lia).
    replace (Z.of_nat (length stem + S (length b)) - 1 - 1 - Z.of_nat (length rb))
      with (Z.of_nat (length stem)) by lia.
    rewrite extname_loop_dot, extname_loop_plain_all by (done || lia).
    unfold ext_see_plain, ext_see_other, ext_see_dot, ext_see_non_slash, ext_init.
    simpl. decide_eqb. f_equal; lia.
Qed.

(** On a name made of a non-empty dot-free, separator-free stem and an
    extension of the shape [extname] returns, [extname] gives that
    extension back. *)
Lemma extname_stem_ext (stem ext : list N) :
  stem <> [] -> Forall plain_char stem -> ext_shaped ext ->
  extname (stem ++ ext) = ext.
Proof.
  intros Hne Hstem [-> | (b & -> & Hb)]; unfold extname.
  - rewrite app_nil_r, extname_loop_stem by done. done.
  - rewrite extname_loop_stem_ext by done.
    cbn [startDot end_ preDotState startPart].
    rewrite !of_nat_not_minus_one. cbn [orb andb Z.eqb].
    pose proof (slice_middle stem (CHAR_DOT :: b) []) as Hmid.
    rewrite app_nil_r in Hmid. by rewrite length_app, Nat2Z.inj_add.
Qed.

End path_facts.

Section basename_facts.
Import Path.

Implicit Types (st : BaseState).

Lemma plain_not_slash (l : list N) : Forall plain_char l -> Forall not_slash l.
Proof. intros H. eapply Forall_impl; [exact H|]. by intros c [_ Hc]. Qed.

Lemma Forall_rev_not_slash (l : list N) :
  Forall not_slash l -> Forall not_slash (rev l).
Proof.
  intros H. apply Forall_forall. intros x Hx.
  apply list_elem_of_In, in_rev, list_elem_of_In in Hx.
  by eapply Forall_forall in H.
Qed.

(** Without a suffix: once the end is marked, separator-free characters
    change nothing. *)
Lemma basename_plain_loop_marked (l : list N) : forall i (st : BaseState),
  Forall not_slash l -> bend st <> -1 -> basename_plain_loop l i st = st.
Proof.
  induction l as [|c l IH]; intros i st Hl He; [done|].
  apply Forall_cons in Hl as [Hc Hl]. cbn [basename_plain_loop].
  rewrite (proj2 (N.eqb_neq _ _) Hc).
  destruct (Z.eqb_spec (bend st) (-1)); [done|]. by apply IH.
Qed.

Lemma basename_plain_loop_stem (l : list N) c i (st : BaseState) :
  Forall not_slash (c :: l) -> 0 <= i -> bend st = -1 ->
  basename_plain_loop (c :: l) i st
  = mkBaseState (bstart st) (i + 1) false (extIdx st) (firstNonSlashEnd st).
Proof.
  intros [Hc Hl]%Forall_cons Hi He. cbn [basename_plain_loop].
  rewrite (proj2 (N.eqb_neq _ _) Hc), He. cbn [Z.eqb].
  apply basename_plain_loop_marked; [done|]. cbn. lia.
Qed.

Lemma slice_prefix {A} (a b : list A) :
  slice (a ++ b) 0 (Z.of_nat (length a)) = a.
Proof.
  unfold slice. rewrite Z.sub_0_r, Nat2Z.id. change (Z.to_nat 0) with 0%nat.
  rewrite drop_0. apply take_app_length.
Qed.

(** With a suffix: after the suffix has been matched, or given up,
    separator-free characters change nothing. *)
Lemma basename_suffix_loop_done (suffix l : list N) : forall i (st : BaseState),
  Forall not_slash l -> extIdx st = -1 -> firstNonSlashEnd st <> -1 ->
  basename_suffix_loop suffix l i st = st.
Proof.
  induction l as [|c l IH]; intros i st Hl Hx Hf; [done|].
  apply Forall_cons in Hl as [Hc Hl]. cbn [basename_suffix_loop].
  rewrite (proj2 (N.eqb_neq _ _) Hc).
  assert (Hsee : base_see_non_slash suffix c i st = st).
  { unfold base_see_non_slash.
    destruct (Z.eqb_spec (firstNonSlashEnd st) (-1)); [done|].
    rewrite Hx. done. }
  rewrite Hsee. by apply IH.
Qed.

(** With a suffix: the characters of the path that spell the suffix,
    scanned from its last one. [rl] is the part of the suffix still to be
    matched, reversed; [a] is what precedes it in the suffix. *)
Lemma basename_suffix_loop_match (suffix : list N) (rl : list N) :
  forall (a z : list N) i (st : BaseState) r,
    suffix = a ++ rev rl ++ z ->
    Forall not_slash rl ->
    extIdx st = Z.of_nat (length a + length rl) - 1 ->
    0 <= i - Z.of_nat (length rl) + 1 ->
    exists st',
      basename_suffix_loop suffix (rl ++ r) i st
      = basename_suffix_loop suffix r (i - Z.of_nat (length rl)) st' /\
      bstart st' = bstart st /\
      extIdx st' = Z.of_nat (length a) - 1 /\
      (rl = [] -> st' = st) /\
      (rl <> [] -> firstNonSlashEnd st' <> -1) /\
      (rl <> [] -> a = [] -> bend st' = i - Z.of_nat (length rl) + 1).
Proof.
  induction rl as [|c rl IH]; intros a z i st r Hsuf Hrl Hx Hi.
  - exists st. cbn [app length]. rewrite Z.sub_0_r.
    split_and!; try done. cbn [length] in Hx. lia.
  - apply Forall_cons in Hrl as [Hc Hrl]. cbn [length] in Hx, Hi.
    cbn [app basename_suffix_loop]. rewrite (proj2 (N.eqb_neq _ _) Hc).
    assert (Hat : char_code_at suffix (extIdx st) = Some c).
    { unfold char_code_at. destruct (Z.ltb_spec (extIdx st) 0); [lia|].
      rewrite Hx, Hsuf. cbn [rev]. rewrite <- !app_assoc.
      replace (Z.to_nat (Z.of_nat (length a + S (length rl)) - 1))
        with (length a + length (rev rl))%nat by (rewrite length_rev; lia).
      rewrite lookup_app_r by lia.
      replace (length a + length (rev rl) - length a)%nat
        with (length (rev rl)) by lia.
      rewrite lookup_app_r by lia. by rewrite Nat.sub_diag. }
    set (st1 := base_see_non_slash suffix c i st).
    assert (Hst1 : bstart st1 = bstart st /\
                   extIdx st1 = Z.of_nat (length a + length rl) - 1 /\
                   firstNonSlashEnd st1 <> -1 /\
                   (a = [] -> rl = [] -> bend st1 = i)).
    { unfold st1, base_see_non_slash.
      destruct (Z.eqb_spec (firstNonSlashEnd st) (-1)) as [Hf|Hf];
        cbn [extIdx bstart bend firstNonSlashEnd bmatchedSlash];
        (destruct (Z.leb_spec 0 (extIdx st)); [|lia]);
        rewrite Hat, bool_decide_true by done;
        (destruct (Z.eqb_spec (extIdx st - 1) (-1)) as [Hm|Hm]);
        cbn [extIdx bstart bend firstNonSlashEnd bmatchedSlash];
        split_and!; try done; try lia.
      all: intros -> ->; cbn [length] in *; lia. }
    destruct Hst1 as (Hb1 & Hx1 & Hf1 & He1).
    destruct (IH a (c :: z) (i - 1) st1 r) as (st' & Hloop & Hb & Hx' & Hnil & Hf & He).
    { rewrite Hsuf. cbn [rev]. by rewrite <- !app_assoc. }
    { done. }
    { done. }
    { lia. }
    exists st'. split_and!.
    + rewrite Hloop. cbn [length]. f_equal. lia.
    + congruence.
    + done.
    + done.
    + intros _. destruct rl as [|d rl]; [rewrite Hnil by done; done | by apply Hf].
    + intros _ Ha. destruct rl as [|d rl].
      * rewrite Hnil by done. rewrite He1 by done. cbn [length]. lia.
      * rewrite He by done. cbn [length]. lia.
Qed.

(** The examples of Node's documentation and tests of [path.basename]. *)
Example basename_documented :
  basename (js "/foo/bar/baz/asdf/quux.html") (js "") = js "quux.html" /\
  basename (js "/foo/bar/baz/asdf/quux.html") (js ".html") = js "quux" /\
  basename (js "aaa/bbb") (js "bbb") = js "bbb" /\
  basename (js "aaa/bbb//") (js "bb") = js "b" /\
  basename (js "/aaa/bbb") (js "a/bbb") = js "bbb".
Proof. vm_compute. done. Qed.

(** On a name made of a non-empty separator-free stem followed by
    nothing or by a separator-free extension, [basename] with that
    extension as suffix gives the stem. *)
Lemma basename_stem_ext (stem ext : list N) :
  stem <> [] -> Forall not_slash stem -> Forall not_slash ext ->
  basename (stem ++ ext) ext = stem.
Proof.
  intros Hne Hstem Hext.
  destruct (rev_cons_inv stem Hne) as (c & rstem & Hrev & Hlen).
  apply Forall_rev_not_slash in Hstem. rewrite Hrev in Hstem.
  unfold basename.
  destruct ext as [|e ext]; [rewrite app_nil_r | rewrite length_app].
  - replace (0 <? Z.of_nat (length (@nil N))) with false by reflexivity.
    cbn [andb].
    rewrite Hrev, basename_plain_loop_stem by (done || lia).
    cbn [bend bstart].
    destruct (Z.eqb_spec (Z.of_nat (length stem) - 1 + 1) (-1)); [lia|].
    replace (Z.of_nat (length stem) - 1 + 1)
      with (Z.of_nat (length stem)) by lia.
    rewrite <- (app_nil_r stem) at 1. apply slice_prefix.
  - assert (Hcond : (0 <? Z.of_nat (length (e :: ext))) &&
                    (Z.of_nat (length (e :: ext)) <=?
                     Z.of_nat (length stem + length (e :: ext))) = true).
    { apply andb_true_iff. split; [apply Z.ltb_lt | apply Z.leb_le];
        cbn [length]; lia. }
    rewrite Hcond.
    assert (Hneq : string_eqb (e :: ext) (stem ++ e :: ext) = false).
    { unfold string_eqb. apply bool_decide_false. intros Heq.
      apply (f_equal length) in Heq. rewrite length_app in Heq. lia. }
    rewrite Hneq, rev_app_distr, Hrev.
    apply Forall_rev_not_slash in Hext.
    destruct (basename_suffix_loop_match (e :: ext) (rev (e :: ext)) [] []
                (Z.of_nat (length stem + length (e :: ext)) - 1)
                (mkBaseState 0 (-1) true (Z.of_nat (length (e :: ext)) - 1) (-1))
                (c :: rstem))
      as (st' & Hloop & Hb & Hx & _ & Hf & He).
    { by rewrite rev_involutive, app_nil_r. }
    { done. }
    { cbn [extIdx]. rewrite length_rev. cbn [length]. lia. }
    { rewrite length_rev. lia. }
    rewrite Hloop.
    assert (Hnn : rev (e :: ext) <> []).
    { intros Hnil. apply (f_equal length) in Hnil.
      rewrite length_rev in Hnil. done. }
    specialize (Hf Hnn). specialize (He Hnn eq_refl).
    rewrite length_rev in *.
    rewrite basename_suffix_loop_done by (done || (cbn [length] in Hx; lia)).
    rewrite Hb, He. cbn [bstart].
    destruct (Z.eqb_spec 0 (Z.of_nat (length stem + length (e :: ext)) - 1
                            - Z.of_nat (length (e :: ext)) + 1)); [lia|].
    destruct (Z.eqb_spec (Z.of_nat (length stem + length (e :: ext)) - 1
                          - Z.of_nat (length (e :: ext)) + 1) (-1)); [lia|].
    replace (Z.of_nat (length stem + length (e :: ext)) - 1
             - Z.of_nat (length (e :: ext)) + 1)
      with (Z.of_nat (length stem)) by lia.
    apply slice_prefix.
Qed.

End basename_facts.

(* ===================================================================== *)
(** ** Properties of the filename sanitizer *)
(* ===================================================================== *)

Section sanitizer.
Import Path.

Ltac char_cases :=
  unfold in_class, is_token_char, is_alnum, is_lower, is_upper, is_digit,
    lower_char, plain_char, not_slash, DASH, CHAR_DOT, CHAR_FORWARD_SLASH,
    BACKSLASH in *;
  repeat match goal with
         | |- context [(?a <=? ?b)%N] => destruct (N.leb_spec a b)
         | |- context [(?a =? ?b)%N] => destruct (N.eqb_spec a b)
         | H : context [(?a <=? ?b)%N] |- _ => destruct (N.leb_spec a b)
         | H : context [(?a =? ?b)%N] |- _ => destruct (N.eqb_spec a b)
         end;
  simpl in *; try done; try lia.

Lemma token_char_plain c : is_token_char c = true -> plain_char c.
Proof. intros H. split; intros ->; by vm_compute in H. Qed.

Lemma token_char_in_class c : is_token_char c = true -> in_class c = true.
Proof. intros H. char_cases. Qed.

Lemma token_char_fixed c :
  is_token_char c = true -> lower_char (if is_alnum c then c else DASH) = c.
Proof. intros H. char_cases; char_cases. Qed.

Lemma sanitized_char_token c :
  is_token_char (lower_char (if is_alnum c then c else DASH)) = true.
Proof. char_cases; char_cases. Qed.

Lemma token_string_plain l : token_string l -> Forall plain_char l.
Proof. intros H. eapply Forall_impl; [exact H|]. apply token_char_plain. Qed.

Lemma token_string_class l : token_string l -> class_string l.
Proof. intros H. eapply Forall_impl; [exact H|]. apply token_char_in_class. Qed.

(** Sanitizing always yields token characters, and leaves a string of
    token characters as it is. *)
Lemma sanitize_token (l : list N) :
  token_string (toLowerCase (replace_non_alnum l)).
Proof.
  unfold token_string, toLowerCase, replace_non_alnum.
  rewrite List.map_map. apply Forall_forall. intros c Hc.
  apply list_elem_of_In, in_map_iff in Hc as (d & <- & _).
  apply sanitized_char_token.
Qed.

Lemma sanitize_fixed (l : list N) :
  token_string l -> toLowerCase (replace_non_alnum l) = l.
Proof.
  unfold toLowerCase, replace_non_alnum. rewrite List.map_map.
  induction 1 as [|c l Hc _ IH]; [done|]. cbn [List.map].
  by rewrite token_char_fixed, IH.
Qed.

Lemma uint_chars_token (d : Decimal.uint) : token_string (uint_chars d).
Proof. induction d; cbn [uint_chars]; constructor; done. Qed.

Lemma string_of_int_token (z : Z) : token_string (string_of_int z).
Proof.
  destruct z; cbn [string_of_int].
  - by constructor.
  - apply uint_chars_token.
  - constructor; [done | apply uint_chars_token].
Qed.

Lemma digit36_token (d : N) : is_token_char (digit36 d) = true.
Proof.
  unfold digit36. pose proof (N.mod_lt d 36 ltac:(done)) as Hlt.
  set (d' := (d mod 36)%N) in *. clearbody d'.
  destruct (N.ltb_spec d' 10); char_cases.
Qed.

Lemma random_token (frac : list N) :
  token_string (slice_from (toString36 frac) 2).
Proof.
  destruct frac as [|d frac]; [by constructor|].
  change (slice_from (toString36 (d :: frac)) 2)
    with (List.map digit36 (d :: frac)).
  apply Forall_forall. intros c Hc.
  apply list_elem_of_In, in_map_iff in Hc as (x & <- & _).
  apply digit36_token.
Qed.

Lemma uniqueId_token (u : Unique) : token_string (uniqueId u).
Proof.
  unfold uniqueId. apply Forall_app. split; [apply string_of_int_token|].
  apply Forall_app. split; [by constructor | apply random_token].
Qed.

Lemma baseFilename_token (name : list N) : token_string (baseFilename name).
Proof. apply sanitize_token. Qed.

(** What precedes the extension in the two variants. *)
Lemma stem_token (u : Unique) (name : list N) :
  token_string (baseFilename name ++ [DASH] ++ uniqueId u) /\
  token_string (uniqueId u ++ [DASH] ++ baseFilename name).
Proof.
  assert (Hd : token_string [DASH]) by (by constructor).
  pose proof (baseFilename_token name) as Hb.
  pose proof (uniqueId_token u) as Hu.
  unfold token_string in *. rewrite !Forall_app. done.
Qed.

Lemma includes_dotdot_plain (l : list N) :
  Forall plain_char l -> includes [CHAR_DOT; CHAR_DOT] l = false.
Proof.
  induction 1 as [|c l [Hc _] _ IH]; [done|].
  cbn [includes starts_with]. rewrite IH.
  by rewrite (proj2 (N.eqb_neq _ _) (not_eq_sym Hc)).
Qed.

Lemma includes_dotdot_stem_ext (stem ext : list N) :
  Forall plain_char stem -> ext_shaped ext ->
  includes [CHAR_DOT; CHAR_DOT] (stem ++ ext) = false.
Proof.
  intros Hstem Hext. induction Hstem as [|c l [Hc _] _ IH].
  - destruct Hext as [-> | (b & -> & Hb)]; [done|].
    cbn [app includes starts_with]. rewrite includes_dotdot_plain by done.
    destruct Hb as [|d b [Hd _] _]; [done|].
    cbn [starts_with]. by rewrite (proj2 (N.eqb_neq _ _) (not_eq_sym Hd)).
  - cbn [app includes starts_with]. rewrite IH.
    by rewrite (proj2 (N.eqb_neq _ _) (not_eq_sym Hc)).
Qed.

Lemma slash_not_in_stem_ext (stem ext : list N) :
  Forall plain_char stem -> ext_shaped ext ->
  CHAR_FORWARD_SLASH ∉ stem ++ ext.
Proof.
  intros Hstem Hext [Hin | Hin]%elem_of_app.
  - eapply Forall_forall in Hstem as [_ H]; [|exact Hin]. done.
  - destruct Hext as [-> | (b & -> & Hb)]; [by apply elem_of_nil in Hin|].
    apply elem_of_cons in Hin as [? | Hin]; [done|].
    eapply Forall_forall in Hb as [_ H]; [|exact Hin]. done.
Qed.

Lemma class_string_no_backslash (l : list N) :
  class_string l -> BACKSLASH ∉ l.
Proof.
  intros H Hin. eapply Forall_forall in H; [|exact Hin]. by vm_compute in H.
Qed.

(** C4, as the code has it. The name returned by either variant of
    [generateSafeFilename] is a stem of characters [[a-z0-9-]] (the
    sanitized base and the uniqueness token) followed by the extension of
    the original name exactly as [path.extname] returns it. For every
    input it contains neither ['/'] nor ['..']; it consists of characters
    of the class [[a-zA-Z0-9.-_]], and then holds no backslash, whenever
    the extension of the original name does. *)
Theorem safe_filename_characters (u : Unique) (originalName : jsstring) :
  let suffixed := generateSafeFilename u originalName in
  let prefixed := generateSafeFilename_prefixed u originalName in
  (exists stem, suffixed = stem ++ extname originalName /\ token_string stem) /\
  (exists stem, prefixed = stem ++ extname originalName /\ token_string stem) /\
  (CHAR_FORWARD_SLASH ∉ suffixed) /\
  (CHAR_FORWARD_SLASH ∉ prefixed) /\
  includes (js "..") suffixed = false /\
  includes (js "..") prefixed = false /\
  (class_string (extname originalName) ->
   class_string suffixed /\ class_string prefixed /\
   (BACKSLASH ∉ suffixed) /\ (BACKSLASH ∉ prefixed)).
Proof.
  cbv zeta.
  destruct (stem_token u originalName) as [Hs Hp].
  pose proof (extname_ext_shaped originalName) as Hext.
  assert (Es : generateSafeFilename u originalName
               = (baseFilename originalName ++ [DASH] ++ uniqueId u)
                 ++ extname originalName)
    by (unfold generateSafeFilename; by rewrite <- !app_assoc).
  assert (Ep : generateSafeFilename_prefixed u originalName
               = (uniqueId u ++ [DASH] ++ baseFilename originalName)
                 ++ extname originalName)
    by (unfold generateSafeFilename_prefixed; by rewrite <- !app_assoc).
  rewrite Es, Ep.
  split_and!; eauto using slash_not_in_stem_ext, token_string_plain.
  - apply includes_dotdot_stem_ext; auto using token_string_plain.
  - apply includes_dotdot_stem_ext; auto using token_string_plain.
  - intros Hc.
    assert (class_string ((baseFilename originalName ++ [DASH] ++ uniqueId u)
                          ++ extname originalName))
      by (apply Forall_app; split; [by apply token_string_class | done]).
    assert (class_string ((uniqueId u ++ [DASH] ++ baseFilename originalName)
                          ++ extname originalName))
      by (apply Forall_app; split; [by apply token_string_class | done]).
    auto using class_string_no_backslash.
Qed.

Lemma safe_filename_characters_witness :
  class_string (extname (js "../My Photo (1).PNG")) /\
  class_string (generateSafeFilename (unique Examples.calm)
                  (js "../My Photo (1).PNG")) /\
  generateSafeFilename (unique Examples.calm) (js "../My Photo (1).PNG")
  = js "my-photo--1--1700000000000-1za07.PNG".
Proof.
  assert (Hext : class_string (extname (js "../My Photo (1).PNG"))).
  { apply Forall_forall. intros c Hc. apply list_elem_of_In in Hc.
    vm_compute in Hc.
    repeat (destruct Hc as [<- | Hc]; [reflexivity|]). done. }
  destruct (safe_filename_characters (unique Examples.calm)
              (js "../My Photo (1).PNG")) as (_ & _ & _ & _ & _ & _ & Hclass).
  destruct (Hclass Hext) as (Hs & _).
  split_and!; [exact Hext | exact Hs | vm_compute; reflexivity].
Defined.

(** C4 as stated fails: the extension is kept as it is. A name whose
    extension holds a backslash and a space comes back with both. *)
Lemma safe_filename_keeps_unsafe_extension :
  let out := generateSafeFilename (unique Examples.calm) (js "notes.a\b c") in
  out = js "notes-1700000000000-1za07.a\b c" /\
  BACKSLASH ∈ out /\
  existsb (fun c => negb (in_class c)) out = true.
Proof.
  cbv zeta. split_and!.
  - vm_compute. reflexivity.
  - apply list_elem_of_In. vm_compute.
    repeat (first [left; reflexivity | right]).
  - vm_compute. reflexivity.
Qed.

(** C9. Sanitizing a sanitized name keeps its stem (sanitized base and
    first token) and its extension, and only adds the fresh token: in the
    variant that appends the token, between stem and extension; in the
    variant that prepends it, in front. *)
Theorem safe_filename_idempotent_up_to_token
    (u1 u2 : Unique) (originalName : jsstring) :
  let once := generateSafeFilename u1 originalName in
  let once' := generateSafeFilename_prefixed u1 originalName in
  extname once = extname originalName /\
  baseFilename once = baseFilename originalName ++ [DASH] ++ uniqueId u1 /\
  generateSafeFilename u2 once =
    (baseFilename originalName ++ [DASH] ++ uniqueId u1)
    ++ [DASH] ++ uniqueId u2 ++ extname originalName /\
  extname once' = extname originalName /\
  baseFilename once' = uniqueId u1 ++ [DASH] ++ baseFilename originalName /\
  generateSafeFilename_prefixed u2 once' =
    uniqueId u2 ++ [DASH]
    ++ (uniqueId u1 ++ [DASH] ++ baseFilename originalName)
    ++ extname originalName.
Proof.
  cbv zeta.
  destruct (stem_token u1 originalName) as [Hs Hp].
  pose proof (extname_ext_shaped originalName) as Hext.
  assert (Hext' : Forall not_slash (extname originalName)).
  { destruct Hext as [-> | (b & -> & Hb)]; [by constructor|].
    constructor; [done | by apply plain_not_slash]. }
  assert (Es : generateSafeFilename u1 originalName
               = (baseFilename originalName ++ [DASH] ++ uniqueId u1)
                 ++ extname originalName)
    by (unfold generateSafeFilename; by rewrite <- !app_assoc).
  assert (Ep : generateSafeFilename_prefixed u1 originalName
               = (uniqueId u1 ++ [DASH] ++ baseFilename originalName)
                 ++ extname originalName)
    by (unfold generateSafeFilename_prefixed; by rewrite <- !app_assoc).
  assert (Hns : baseFilename originalName ++ [DASH] ++ uniqueId u1 <> [])
    by (by destruct (baseFilename originalName)).
  assert (Hnp : uniqueId u1 ++ [DASH] ++ baseFilename originalName <> []).
  { intros H. apply (f_equal length) in H. rewrite !length_app in H.
    cbn [length] in H. lia. }
  assert (Xs : extname (generateSafeFilename u1 originalName)
               = extname originalName)
    by (rewrite Es; apply extname_stem_ext; auto using token_string_plain).
  assert (Xp : extname (generateSafeFilename_prefixed u1 originalName)
               = extname originalName)
    by (rewrite Ep; apply extname_stem_ext; auto using token_string_plain).
  assert (Bs : baseFilename (generateSafeFilename u1 originalName)
               = baseFilename originalName ++ [DASH] ++ uniqueId u1).
  { unfold baseFilename at 1. rewrite Xs, Es.
    rewrite basename_stem_ext
      by auto using plain_not_slash, token_string_plain.
    by apply sanitize_fixed. }
  assert (Bp : baseFilename (generateSafeFilename_prefixed u1 originalName)
               = uniqueId u1 ++ [DASH] ++ baseFilename originalName).
  { unfold baseFilename at 1. rewrite Xp, Ep.
    rewrite basename_stem_ext
      by auto using plain_not_slash, token_string_plain.
    by apply sanitize_fixed. }
  split_and!; try done.
  - unfold generateSafeFilename at 1. rewrite Bs, Xs. by rewrite <- !app_assoc.
  - unfold generateSafeFilename_prefixed at 1. rewrite Bp, Xp.
    by rewrite <- !app_assoc.
Qed.


(** A name that passed file-type validation has an extension made of
    letters and a dot, so the stored name is within the class. *)
Lemma class_string_of_lower (l : list N) :
  class_string (toLowerCase l) -> class_string l.
Proof.
  unfold class_string, toLowerCase. rewrite Forall_forall, Forall_forall.
  intros H c Hc.
  assert (Hl : in_class (lower_char c) = true).
  { apply H, list_elem_of_In, in_map, list_elem_of_In, Hc. }
  clear H Hc. unfold lower_char in Hl.
  destruct (is_upper c) eqn:Hu; [|done].
  unfold in_class, is_alnum. by rewrite Hu, orb_true_r.
Qed.

Lemma allowed_extension_class (ext : list N) :
  ext ∈ ALLOWED_EXTENSIONS -> class_string ext.
Proof.
  unfold ALLOWED_EXTENSIONS. rewrite !elem_of_union, !elem_of_singleton.
  intros [[[-> | ->] | ->] | ->]; apply Forall_forall; intros c Hc;
    apply list_elem_of_In in Hc; vm_compute in Hc;
    repeat (destruct Hc as [<- | Hc]; [reflexivity|]); done.
Qed.

Lemma validated_name_is_class_string (u : Unique) (file : File) :
  validateFileType file = true ->
  class_string (generateSafeFilename u (name file)).
Proof.
  intros Hval.
  assert (Hext : toLowerCase (extname (name file)) ∈ ALLOWED_EXTENSIONS).
  { unfold validateFileType in Hval.
    destruct (has ALLOWED_TYPES (type file)); cbn [negb orb] in Hval; [|done].
    destruct (has ALLOWED_EXTENSIONS _) eqn:He; cbn [negb] in Hval; [|done].
    by apply has_true. }
  apply allowed_extension_class, class_string_of_lower in Hext.
  unfold generateSafeFilename. rewrite !app_assoc.
  apply Forall_app. split; [|done].
  rewrite <- app_assoc. apply token_string_class, stem_token.
Qed.

End sanitizer.

(* ===================================================================== *)
(** ** Properties of the upload routes *)
(* ===================================================================== *)

Section upload.

#[local] Arguments js : simpl never.
#[local] Arguments string_of_int : simpl never.
#[local] Arguments generateSafeFilename : simpl never.
#[local] Arguments validateFileType : simpl never.

Ltac run_route :=
  unfold RouteA.POST, RouteB.POST, RouteA.try_block, RouteB.try_block,
    RouteB.checked_rate_limit, run_handler, bind, ret, throw,
    formData_get_file, ensureUploadDirectory, with_rateLimit.

(** Where a request that is let through and parsed ends up in the first route, as far
    as validation is concerned. *)
Lemma RouteA_validation env req w :
  passes_rate_limit env req w -> directory_ready env w -> form_error req = None ->
  (RouteA.POST env req w).1 =
    match as_file (file_field req) with
    | None => errorResponse Errors.INVALID_FILE_A
    | Some file =>
        if size file >? MAX_FILE_SIZE then errorResponse Errors.FILE_TOO_LARGE_A
        else if negb (validateFileType file)
        then errorResponse Errors.INVALID_FILE_TYPE_A
        else (RouteA.POST env req w).1
    end.
Proof.
  unfold passes_rate_limit, directory_ready. intros Hadm Hdir Hform.
  destruct (as_file (file_field req)) as [file|] eqn:Hfile.
  2: { run_route.
       destruct (RateLimit.checkRateLimit _ _ _) as [ok m]. cbn in Hadm. subst ok.
       rewrite Hform. cbn -[as_file].
       destruct (uploads w); cbn -[as_file]; rewrite ?Hdir by done;
         cbn -[as_file]; rewrite Hfile; done. }
  destruct (size file >? MAX_FILE_SIZE) eqn:Hsize.
  { run_route.
    destruct (RateLimit.checkRateLimit _ _ _) as [ok m]. cbn in Hadm. subst ok.
    rewrite Hform. cbn -[as_file].
    destruct (uploads w); cbn -[as_file]; rewrite ?Hdir by done;
      cbn -[as_file]; rewrite Hfile, Hsize; done. }
  destruct (validateFileType file) eqn:Hval; cbn; [done|].
  run_route.
  destruct (RateLimit.checkRateLimit _ _ _) as [ok m]. cbn in Hadm. subst ok.
  rewrite Hform. cbn -[as_file].
  destruct (uploads w); cbn -[as_file]; rewrite ?Hdir by done;
    cbn -[as_file]; rewrite Hfile, Hsize, Hval; done.
Qed.

Lemma RouteB_validation env req w :
  passes_rate_limit env req w -> directory_ready env w -> form_error req = None ->
  (RouteB.POST env req w).1 =
    match as_file (file_field req) with
    | None => errorResponse Errors.INVALID_FILE_B
    | Some file =>
        if size file >? MAX_FILE_SIZE then errorResponse Errors.FILE_TOO_LARGE_B
        else if negb (validateFileType file)
        then errorResponse Errors.INVALID_FILE_TYPE_B
        else (RouteB.POST env req w).1
    end.
Proof.
  unfold passes_rate_limit, directory_ready. intros Hadm Hdir Hform.
  destruct (as_file (file_field req)) as [file|] eqn:Hfile.
  2: { run_route.
       destruct (RateLimit.checkRateLimit _ _ _) as [ok m]. cbn in Hadm. subst ok.
       rewrite Hform. cbn -[as_file].
       destruct (uploads w); cbn -[as_file]; rewrite ?Hdir by done;
         cbn -[as_file]; rewrite Hfile; done. }
  destruct (size file >? MAX_FILE_SIZE) eqn:Hsize.
  { run_route.
    destruct (RateLimit.checkRateLimit _ _ _) as [ok m]. cbn in Hadm. subst ok.
    rewrite Hform. cbn -[as_file].
    destruct (uploads w); cbn -[as_file]; rewrite ?Hdir by done;
      cbn -[as_file]; rewrite Hfile, Hsize; done. }
  destruct (validateFileType file) eqn:Hval; cbn; [done|].
  run_route.
  destruct (RateLimit.checkRateLimit _ _ _) as [ok m]. cbn in Hadm. subst ok.
  rewrite Hform. cbn -[as_file].
  destruct (uploads w); cbn -[as_file]; rewrite ?Hdir by done;
    cbn -[as_file]; rewrite Hfile, Hsize, Hval; done.
Qed.

(** A file just written is found by [stat]. *)
Lemma find_written (files : list DirEntry) (filename : jsstring)
    (entry : DirEntry) :
  ename entry = filename ->
  List.find (fun f => string_eqb (ename f) filename)
    (List.filter (fun f => negb (string_eqb (ename f) filename)) files
     ++ [entry])
  = Some entry.
Proof.
  intros <-. unfold string_eqb. induction files as [|f files IH]; cbn.
  - by rewrite bool_decide_true.
  - case_bool_decide as Hf; cbn; [done|]. by rewrite bool_decide_false.
Qed.

Lemma writeFile_into env filename bytes files w :
  uploads w = Some files ->
  writeFile env filename bytes w =
    match writeFile_error env with
    | Some t => (Throw (Other t), w)
    | None => (Ok tt, written env filename bytes files w)
    end.
Proof. intros Hup. unfold writeFile. rewrite Hup. by destruct (writeFile_error env). Qed.

Lemma stat_written env filename bytes files w :
  stat env filename (written env filename bytes files w) =
    match stat_error env with
    | Some t => (Throw (Other t), written env filename bytes files w)
    | None =>
        (Ok (mkDirEntry filename (write_mtime env) (Z.of_nat (length bytes))
                        false),
         written env filename bytes files w)
    end.
Proof.
  unfold stat. destruct (stat_error env); [done|].
  unfold written at 1. cbn [uploads default from_option id]. by rewrite find_written.
Qed.

(** Every way the first route can answer. *)
Lemma RouteA_outcomes env req w :
  let r := (RouteA.POST env req w).1 in
  is_success r \/
  (r = rate_limited_A /\ ~ passes_rate_limit env req w) \/
  (exists t, r = errorResponse (Other t)) \/
  r = errorResponse Errors.INVALID_FILE_A \/
  (r = errorResponse Errors.FILE_TOO_LARGE_A /\
   exists file, as_file (file_field req) = Some file /\
                MAX_FILE_SIZE < size file) \/
  r = errorResponse Errors.INVALID_FILE_TYPE_A \/
  r = errorResponse Errors.WRITE_ERROR.
Proof.
  unfold passes_rate_limit. run_route.
  destruct (RateLimit.checkRateLimit _ _ _) as [[] m]; cbn.
  2: { right; left. split; [done | discriminate]. }
  destruct (uploads w) as [files|] eqn:Hup;
    [|destruct (mkdir_error env) as [t|]]; cbn; [| by eauto 10 |].
  all: destruct (form_error req) as [t|]; cbn; [by eauto 10|].
  all: destruct (as_file (file_field req)) as [file|] eqn:Hfile; cbn; [|by eauto 10].
  all: destruct (size file >? MAX_FILE_SIZE) eqn:Hsize; cbn;
    [right; right; right; right; left; split; [done|];
     exists file; split; [done|lia] |].
  all: destruct (validateFileType file); cbn; [|by eauto 10].
  all: erewrite writeFile_into by (cbn; done).
  all: destruct (writeFile_error env) as [t|]; [by eauto 10|].
  all: unfold getFileStats; rewrite stat_written.
  all: destruct (stat_error env) as [t|]; [by eauto 10|].
  all: unfold run_sweep; destruct (Sweep.cleanupOldFiles _ _) as [dir log]; cbn.
  all: left; repeat split; done.
Qed.

(** Every way the second route can answer. *)
Lemma RouteB_outcomes env req w :
  let r := (RouteB.POST env req w).1 in
  is_success r \/
  (r = errorResponse Errors.RATE_LIMIT_EXCEEDED /\ ~ passes_rate_limit env req w) \/
  (exists t, r = errorResponse (Other t)) \/
  r = errorResponse Errors.INVALID_FILE_B \/
  (r = errorResponse Errors.FILE_TOO_LARGE_B /\
   exists file, as_file (file_field req) = Some file /\
                MAX_FILE_SIZE < size file) \/
  r = errorResponse Errors.INVALID_FILE_TYPE_B.
Proof.
  unfold passes_rate_limit. run_route.
  destruct (RateLimit.checkRateLimit _ _ _) as [[] m]; cbn.
  2: { right; left. split; [done | discriminate]. }
  destruct (uploads w) as [files|] eqn:Hup;
    [|destruct (mkdir_error env) as [t|]]; cbn; [| by eauto 10 |].
  all: destruct (form_error req) as [t|]; cbn; [by eauto 10|].
  all: destruct (as_file (file_field req)) as [file|] eqn:Hfile; cbn; [|by eauto 10].
  all: destruct (size file >? MAX_FILE_SIZE) eqn:Hsize; cbn;
    [right; right; right; right; left; split; [done|];
     exists file; split; [done|lia] |].
  all: destruct (validateFileType file); cbn; [|by eauto 10].
  all: erewrite writeFile_into by (cbn; done).
  all: destruct (writeFile_error env) as [t|]; [by eauto 10|].
  all: rewrite stat_written.
  all: destruct (stat_error env) as [t|]; [by eauto 10|].
  all: unfold run_sweep; destruct (Sweep.cleanupOldFiles_parallel _ _ _) as [dir log]; cbn.
  all: left; repeat split; done.
Qed.

Lemma errorResponse_structured (e : Exn) :
  (code_of e, statusCode_of e) ∈ error_taxonomy ->
  structured_failure (errorResponse e).
Proof. intros H. exists (message_of e), (code_of e). by split. Qed.

Lemma errorResponse_other_structured (t : Thrown) :
  structured_failure (errorResponse (Other t)).
Proof. apply errorResponse_structured. cbn. unfold error_taxonomy. set_solver. Qed.

(** The second route answers every failing request with a body
    [{success: false, error, code}], a code of the taxonomy and the status
    that goes with the code. *)
Lemma RouteB_failures_structured env req w :
  let r := (RouteB.POST env req w).1 in
  is_success r \/ structured_failure r.
Proof.
  destruct (RouteB_outcomes env req w)
    as [H | [[-> _] | [[t ->] | [-> | [[-> _] | ->]]]]]; [by left|right ..].
  all: try apply errorResponse_other_structured.
  all: apply errorResponse_structured; cbn; unfold error_taxonomy; set_solver.
Qed.

(** So does the first route, except for the request it turns away at the
    rate limiter. *)
Lemma RouteA_failures_structured env req w :
  passes_rate_limit env req w ->
  let r := (RouteA.POST env req w).1 in
  is_success r \/ structured_failure r.
Proof.
  intros Hadm.
  destruct (RouteA_outcomes env req w)
    as [H | [[_ H] | [[t ->] | [-> | [[-> _] | [-> | ->]]]]]];
    [by left | done | right ..].
  all: try apply errorResponse_other_structured.
  all: apply errorResponse_structured; cbn; unfold error_taxonomy; set_solver.
Qed.

End upload.
Section upload_validation.

Lemma size_oversized : size Examples.oversized = MAX_FILE_SIZE + 1.
Proof.
  unfold size, Examples.oversized, content.
  rewrite length_app, length_replicate, Nat2Z.inj_add, Z2Nat.id
    by (unfold MAX_FILE_SIZE; lia).
  change (Z.of_nat (length Signatures.png)) with 4. lia.
Qed.

Lemma validateFileType_oversized : validateFileType Examples.oversized = true.
Proof.
  unfold validateFileType, Examples.oversized. cbn [name type content].
  pose proof (slice_prefix Signatures.png
                (replicate (Z.to_nat (MAX_FILE_SIZE - 3)) 0%N)) as Hsig.
  change (Z.of_nat (length Signatures.png)) with 4 in Hsig.
  rewrite Hsig. vm_compute. reflexivity.
Qed.

(** C1, as the code has it. On a file of four bytes or more,
    [validateFileType] succeeds exactly when the declared type is allowed,
    the lower-cased extension is allowed, and the leading bytes are the
    JPEG, the PNG or the WebP signature, whichever type was declared; so
    PNG content declared as [image/jpeg] under a [.jpg] name passes. *)
Theorem validateFileType_accepts_any_known_signature (file : File) :
  (4 <= length (content file))%nat ->
  (validateFileType file = true <->
     type file ∈ ALLOWED_TYPES /\
     toLowerCase (Path.extname (name file)) ∈ ALLOWED_EXTENSIONS /\
     (take 3 (content file) = Signatures.jpeg \/
      take 4 (content file) = Signatures.png \/
      take 4 (content file) = Signatures.webp)) /\
  (type file = js "image/jpeg" ->
   toLowerCase (Path.extname (name file)) = js ".jpg" ->
   take 4 (content file) = Signatures.png ->
   validateFileType file = true).
Proof.
  intros Hlen.
  assert (Hiff : validateFileType file = true <->
     type file ∈ ALLOWED_TYPES /\
     toLowerCase (Path.extname (name file)) ∈ ALLOWED_EXTENSIONS /\
     (take 3 (content file) = Signatures.jpeg \/
      take 4 (content file) = Signatures.png \/
      take 4 (content file) = Signatures.webp)).
  { unfold validateFileType. rewrite <- !has_true.
    destruct (has ALLOWED_TYPES (type file)); cbn [negb orb];
      [|split; [done | intros [? _]; done]].
    destruct (has ALLOWED_EXTENSIONS _); cbn [negb];
      [|split; [done | intros (_ & ? & _); done]].
    rewrite (signature_tests (content file) Hlen). tauto. }
  split; [exact Hiff|].
  intros Htype Hext Hpng. apply Hiff. rewrite Htype, Hext.
  split; [|split; [|by auto]]; apply has_true; vm_compute; reflexivity.
Qed.

Lemma validateFileType_accepts_any_known_signature_witness :
  (4 <= length (content Examples.png_as_jpeg))%nat /\
  validateFileType Examples.png_as_jpeg = true.
Proof.
  assert (Hlen : (4 <= length (content Examples.png_as_jpeg))%nat)
    by (vm_compute; lia).
  destruct (validateFileType_accepts_any_known_signature
              Examples.png_as_jpeg Hlen) as [_ Hpng].
  exact (conj Hlen (Hpng eq_refl eq_refl eq_refl)).
Defined.

(** C1 as stated fails: eight bytes that begin with the PNG signature, declared
    [image/jpeg] and named [photo.jpg], do not begin with the JPEG
    signature, yet [validateFileType] returns [true] and the upload is
    answered with status 200 and no error code. *)
Lemma png_declared_as_jpeg_is_accepted :
  take 4 (content Examples.png_as_jpeg) = Signatures.png /\
  take 3 (content Examples.png_as_jpeg) <> Signatures.jpeg /\
  type Examples.png_as_jpeg = js "image/jpeg" /\
  Path.extname (name Examples.png_as_jpeg) = js ".jpg" /\
  validateFileType Examples.png_as_jpeg = true /\
  let r := (RouteA.POST Examples.calm
              (Examples.upload_of Examples.png_as_jpeg)
              Examples.fresh_world).1 in
  status r = 200 /\
  json_field "success" (body r) = Some (JBool true) /\
  json_field "code" (body r) = None.
Proof. vm_compute. repeat split; done. Qed.

(** C2, as the code has it. For a request that the rate limiter lets through and
    whose form data parse: when the [file] field is missing or is not a
    [File], the answer is [INVALID_FILE] with status 400; a zero-length
    [File] is not treated as missing, and when its declared type or its
    extension is not an allowed one it is answered [INVALID_FILE_TYPE]
    with status 400. *)
Theorem missing_file_is_invalid_file
    (env : UploadEnv) (req : Request) (w : World) :
  passes_rate_limit env req w -> directory_ready env w -> form_error req = None ->
  (as_file (file_field req) = None ->
     (RouteA.POST env req w).1 = errorResponse Errors.INVALID_FILE_A /\
     (RouteB.POST env req w).1 = errorResponse Errors.INVALID_FILE_B /\
     status (errorResponse Errors.INVALID_FILE_A) = 400 /\
     status (errorResponse Errors.INVALID_FILE_B) = 400) /\
  (forall file,
     file_field req = Some (FormFile file) ->
     content file = [] ->
     type file ∉ ALLOWED_TYPES \/
     toLowerCase (Path.extname (name file)) ∉ ALLOWED_EXTENSIONS ->
     (RouteA.POST env req w).1 = errorResponse Errors.INVALID_FILE_TYPE_A /\
     (RouteB.POST env req w).1 = errorResponse Errors.INVALID_FILE_TYPE_B /\
     status (errorResponse Errors.INVALID_FILE_TYPE_A) = 400 /\
     status (errorResponse Errors.INVALID_FILE_TYPE_B) = 400).
Proof.
  intros Hadm Hdir Hform.
  pose proof (RouteA_validation env req w Hadm Hdir Hform) as HA.
  pose proof (RouteB_validation env req w Hadm Hdir Hform) as HB.
  split.
  - intros Hnone. rewrite Hnone in HA, HB. done.
  - intros file Hfile Hempty Hbad. rewrite Hfile in HA, HB. cbn [as_file] in HA, HB.
    assert (Hsize : (size file >? MAX_FILE_SIZE) = false).
    { unfold size. rewrite Hempty. reflexivity. }
    assert (Hval : validateFileType file = false).
    { unfold validateFileType.
      destruct (has ALLOWED_TYPES (type file)) eqn:Ht; cbn [negb orb]; [|done].
      destruct (has ALLOWED_EXTENSIONS _) eqn:He; cbn [negb]; [|done].
      apply has_true in Ht, He. tauto. }
    rewrite Hsize, Hval in HA, HB. done.
Qed.

Lemma missing_file_is_invalid_file_witness :
  passes_rate_limit Examples.calm Examples.upload_without_file Examples.fresh_world /\
  (RouteA.POST Examples.calm Examples.upload_without_file
     Examples.fresh_world).1 = errorResponse Errors.INVALID_FILE_A /\
  (RouteB.POST Examples.calm Examples.upload_without_file
     Examples.fresh_world).1 = errorResponse Errors.INVALID_FILE_B.
Proof.
  assert (Hadm : passes_rate_limit Examples.calm Examples.upload_without_file
                          Examples.fresh_world) by (vm_compute; reflexivity).
  destruct (missing_file_is_invalid_file Examples.calm
              Examples.upload_without_file Examples.fresh_world
              Hadm (fun _ => eq_refl) eq_refl) as [Hmissing _].
  destruct (Hmissing eq_refl) as (HA & HB & _).
  exact (conj Hadm (conj HA HB)).
Defined.

(** C2 as stated fails: a zero-length file declared [text/plain] is a
    [File], so it is not answered [INVALID_FILE]; it gets as far as the
    type check and is answered [INVALID_FILE_TYPE]. *)
Lemma empty_buffer_is_not_invalid_file :
  content Examples.empty_text = [] /\
  passes_rate_limit Examples.calm (Examples.upload_of Examples.empty_text)
           Examples.fresh_world /\
  let r := (RouteA.POST Examples.calm (Examples.upload_of Examples.empty_text)
              Examples.fresh_world).1 in
  status r = 400 /\
  json_field "code" (body r) = Some (JStr (js "INVALID_FILE_TYPE")) /\
  json_field "code" (body r) <> Some (JStr (js "INVALID_FILE")).
Proof. vm_compute. repeat split; done. Qed.

(** What the type check makes of a zero-length file whose declared type
    and extension are allowed: every test of [every] over the empty
    signature holds, and the upload is stored. *)
Example empty_allowed_file_is_stored :
  validateFileType Examples.empty_png = true /\
  let r := (RouteA.POST Examples.calm (Examples.upload_of Examples.empty_png)
              Examples.fresh_world).1 in
  status r = 200 /\ json_field "size" (body r) = Some (JNum 0).
Proof. vm_compute. repeat split; done. Qed.

End upload_validation.

Section upload_failures.

(** A request turned away by the rate limiter of the first route gets
    the bare 429 answer. *)
Lemma RouteA_rate_limited env req w :
  ~ passes_rate_limit env req w -> (RouteA.POST env req w).1 = rate_limited_A.
Proof.
  destruct (RouteA_outcomes env req w)
    as [H | [[-> _] | H]]; [| done |]; intros Hadm; exfalso.
  - revert H Hadm. unfold passes_rate_limit, RouteA.POST.
    destruct (RateLimit.checkRateLimit _ _ _) as [[] m]; cbn; [by auto|].
    unfold is_success. cbn. intros [[=] _].
  - revert H Hadm. unfold passes_rate_limit, RouteA.POST.
    destruct (RateLimit.checkRateLimit _ _ _) as [[] m]; cbn; [by auto|].
    unfold rate_limited_A, errorResponse.
    intros [[t [=]] | [[=] | [[[=] _] | [[=] | [=]]]]].
Qed.

Lemma rate_limited_A_not_structured : ~ structured_failure rate_limited_A.
Proof. intros (error & code & [=] & _). Qed.

(** C7 (code defect). The 101st request of a client inside its window is
    answered by the first route with status 429 and the body
    [{success: false, error: 'Rate limit exceeded'}]: there is no [code]
    field, where the claim has one on every failure. The second route
    answers the same request with the code [RATE_LIMIT_EXCEEDED]. *)
Theorem rate_limited_answer_has_no_code :
  let rA := (RouteA.POST Examples.calm (Examples.upload_of Examples.png_as_jpeg)
               Examples.exhausted_world).1 in
  let rB := (RouteB.POST Examples.calm (Examples.upload_of Examples.png_as_jpeg)
               Examples.exhausted_world).1 in
  status rA = 429 /\
  body rA = JObj [ ("success", JBool false);
                   ("error", JStr (js "Rate limit exceeded")) ]%string /\
  json_field "code" (body rA) = None /\
  ~ structured_failure rA /\
  status rB = 429 /\
  json_field "code" (body rB) = Some (JStr (js "RATE_LIMIT_EXCEEDED")) /\
  structured_failure rB.
Proof.
  cbv zeta.
  assert (HA : (RouteA.POST Examples.calm
                  (Examples.upload_of Examples.png_as_jpeg)
                  Examples.exhausted_world).1 = rate_limited_A)
    by (vm_compute; reflexivity).
  assert (HB : (RouteB.POST Examples.calm
                  (Examples.upload_of Examples.png_as_jpeg)
                  Examples.exhausted_world).1
               = errorResponse Errors.RATE_LIMIT_EXCEEDED)
    by (vm_compute; reflexivity).
  rewrite HA, HB.
  repeat split; try apply rate_limited_A_not_structured.
  apply errorResponse_structured. cbn. unfold error_taxonomy. set_solver.
Qed.

(** What the basic route answers to an oversized file. *)
Lemma RouteBasic_oversized env req w file :
  directory_ready env w -> form_error req = None ->
  file_field req = Some (FormFile file) ->
  MAX_FILE_SIZE < size file ->
  (RouteBasic.POST env req w).1 =
    mkResponse 400
      (JObj [ ("success", JBool false);
              ("error", JStr (js "File size exceeds maximum limit of 10MB"))
            ]%string) [].
Proof.
  unfold directory_ready. intros Hdir Hform Hfile Hbig.
  assert (Hsize : (size file >? MAX_FILE_SIZE) = true) by (apply Z.gtb_lt; lia).
  unfold RouteBasic.POST, RouteBasic.try_block, run_handler, bind, ret, throw,
    formData_get_file, ensureUploadDirectory.
  rewrite Hform, Hfile.
  destruct (uploads w); cbn; rewrite ?Hdir by done; cbn; rewrite Hsize; done.
Qed.

(** The basic route gives the size message to oversized files only. *)
Lemma RouteBasic_size_message env req w file :
  file_field req = Some (FormFile file) ->
  json_field "error" (body (RouteBasic.POST env req w).1)
    = Some (JStr (js "File size exceeds maximum limit of 10MB")) ->
  MAX_FILE_SIZE < size file.
Proof.
  intros Hfile.
  destruct (Z.gtb_spec (size file) MAX_FILE_SIZE) as [Hbig|Hsmall];
    [done|].
  assert (Hsize : (size file >? MAX_FILE_SIZE) = false)
    by (destruct (Z.gtb_spec (size file) MAX_FILE_SIZE); [lia | done]).
  unfold RouteBasic.POST, RouteBasic.try_block, RouteBasic.catch, run_handler,
    bind, ret, throw, formData_get_file, ensureUploadDirectory.
  rewrite Hfile.
  assert (Hleaf : forall other : jsstring,
            other <> js "File size exceeds maximum limit of 10MB" ->
            Some (JStr other)
            = Some (JStr (js "File size exceeds maximum limit of 10MB")) ->
            MAX_FILE_SIZE < size file) by (intros other Hne [= H]; done).
  destruct (uploads w) as [files|] eqn:Hup;
    [|destruct (mkdir_error env) as [tm|]];
    cbn -[js string_of_int generateSafeFilename_prefixed];
    try discriminate; try (apply Hleaf; vm_compute; discriminate).
  all: destruct (form_error req) as [tf|];
    cbn -[js string_of_int generateSafeFilename_prefixed];
    try discriminate; try (apply Hleaf; vm_compute; discriminate).
  all: rewrite Hsize; cbn -[js string_of_int generateSafeFilename_prefixed].
  all: destruct (validateFileType_basic file);
    cbn -[js string_of_int generateSafeFilename_prefixed];
    try (apply Hleaf; vm_compute; discriminate).
  all: erewrite writeFile_into by (cbn; done).
  all: destruct (writeFile_error env) as [tw|];
    cbn -[js string_of_int generateSafeFilename_prefixed];
    try discriminate; try (apply Hleaf; vm_compute; discriminate).
  all: unfold getFileStats; rewrite stat_written.
  all: destruct (stat_error env) as [ts|];
    cbn -[js string_of_int generateSafeFilename_prefixed];
    try discriminate; try (apply Hleaf; vm_compute; discriminate).
Qed.

(** C8, as the code has it. For an upload that reaches validation (let through by
    the rate limiter where there is one, upload directory available, form
    data parsed, [file] field a [File]): a size above [10*1024*1024] bytes
    is answered with status 400 whatever the content, with the code
    [FILE_TOO_LARGE] by the two routes that have error codes and with the
    size message but no code by the basic route; a size of
    [10*1024*1024] or less is never answered [FILE_TOO_LARGE], nor with
    the size message of the basic route. *)
Theorem oversized_upload_rejected
    (env : UploadEnv) (req : Request) (w : World) (file : File) :
  passes_rate_limit env req w -> directory_ready env w -> form_error req = None ->
  file_field req = Some (FormFile file) ->
  (10 * 1024 * 1024 < size file ->
     (RouteA.POST env req w).1 = errorResponse Errors.FILE_TOO_LARGE_A /\
     (RouteB.POST env req w).1 = errorResponse Errors.FILE_TOO_LARGE_B /\
     status (errorResponse Errors.FILE_TOO_LARGE_A) = 400 /\
     status (errorResponse Errors.FILE_TOO_LARGE_B) = 400 /\
     json_field "code" (body (errorResponse Errors.FILE_TOO_LARGE_A))
       = Some (JStr (js "FILE_TOO_LARGE")) /\
     json_field "code" (body (errorResponse Errors.FILE_TOO_LARGE_B))
       = Some (JStr (js "FILE_TOO_LARGE")) /\
     status (RouteBasic.POST env req w).1 = 400 /\
     json_field "error" (body (RouteBasic.POST env req w).1)
       = Some (JStr (js "File size exceeds maximum limit of 10MB")) /\
     json_field "code" (body (RouteBasic.POST env req w).1) = None) /\
  (size file <= 10 * 1024 * 1024 ->
     json_field "code" (body (RouteA.POST env req w).1)
       <> Some (JStr (js "FILE_TOO_LARGE")) /\
     json_field "code" (body (RouteB.POST env req w).1)
       <> Some (JStr (js "FILE_TOO_LARGE")) /\
     json_field "error" (body (RouteBasic.POST env req w).1)
       <> Some (JStr (js "File size exceeds maximum limit of 10MB"))).
Proof.
  intros Hadm Hdir Hform Hfile.
  pose proof (RouteA_validation env req w Hadm Hdir Hform) as HA.
  pose proof (RouteB_validation env req w Hadm Hdir Hform) as HB.
  rewrite Hfile in HA, HB. cbn [as_file] in HA, HB.
  split.
  - intros Hbig.
    assert (Hsize : (size file >? MAX_FILE_SIZE) = true)
      by (apply Z.gtb_lt; unfold MAX_FILE_SIZE; lia).
    rewrite Hsize in HA, HB.
    rewrite (RouteBasic_oversized env req w file Hdir Hform Hfile)
      by (unfold MAX_FILE_SIZE; lia).
    done.
  - intros Hsmall. split_and!.
    + destruct (RouteA_outcomes env req w)
        as [(_ & _ & _ & ->) | [[-> _] | [[t ->] | [-> | [[_ (f & Hf & Hbig)] | [-> | ->]]]]]];
        try (cbn; discriminate).
      rewrite Hfile in Hf. cbn in Hf. injection Hf as <-.
      unfold MAX_FILE_SIZE in Hbig. lia.
    + destruct (RouteB_outcomes env req w)
        as [(_ & _ & _ & ->) | [[-> _] | [[t ->] | [-> | [[_ (f & Hf & Hbig)] | ->]]]]];
        try (cbn; discriminate).
      rewrite Hfile in Hf. cbn in Hf. injection Hf as <-.
      unfold MAX_FILE_SIZE in Hbig. lia.
    + intros Herr. apply (RouteBasic_size_message env req w file Hfile) in Herr.
      unfold MAX_FILE_SIZE in Herr. lia.
Qed.

Lemma oversized_upload_rejected_witness :
  passes_rate_limit Examples.calm (Examples.upload_of Examples.oversized)
           Examples.fresh_world /\
  10 * 1024 * 1024 < size Examples.oversized /\
  (RouteA.POST Examples.calm (Examples.upload_of Examples.oversized)
     Examples.fresh_world).1 = errorResponse Errors.FILE_TOO_LARGE_A /\
  (RouteB.POST Examples.calm (Examples.upload_of Examples.oversized)
     Examples.fresh_world).1 = errorResponse Errors.FILE_TOO_LARGE_B.
Proof.
  assert (Hadm : passes_rate_limit Examples.calm (Examples.upload_of Examples.oversized)
                          Examples.fresh_world) by reflexivity.
  assert (Hbig : 10 * 1024 * 1024 < size Examples.oversized)
    by (rewrite size_oversized; unfold MAX_FILE_SIZE; lia).
  destruct (oversized_upload_rejected Examples.calm
              (Examples.upload_of Examples.oversized) Examples.fresh_world
              Examples.oversized Hadm (fun _ => eq_refl) eq_refl eq_refl)
    as [Hreject _].
  destruct (Hreject Hbig) as (HA & HB & _).
  exact (conj Hadm (conj Hbig (conj HA HB))).
Defined.

(** C8 as stated fails: not every oversized upload is answered with the
    code [FILE_TOO_LARGE]: the basic route answers a PNG of
    [10*1024*1024 + 1] bytes with status 400 and no [code] field, and the
    first route answers the same upload of a client that has used up its
    quota with status 429 and no [code] field. *)
Lemma oversized_upload_without_code :
  let basic := (RouteBasic.POST Examples.calm
                  (Examples.upload_of Examples.oversized)
                  Examples.fresh_world).1 in
  let limited := (RouteA.POST Examples.calm
                    (Examples.upload_of Examples.oversized)
                    Examples.exhausted_world).1 in
  size Examples.oversized = 10 * 1024 * 1024 + 1 /\
  validateFileType Examples.oversized = true /\
  status basic = 400 /\ json_field "code" (body basic) = None /\
  status limited = 429 /\ json_field "code" (body limited) = None.
Proof.
  cbv zeta.
  assert (Hbig : size Examples.oversized = 10 * 1024 * 1024 + 1)
    by (rewrite size_oversized; reflexivity).
  rewrite (RouteBasic_oversized Examples.calm
             (Examples.upload_of Examples.oversized) Examples.fresh_world
             Examples.oversized (fun _ => eq_refl) eq_refl eq_refl)
    by (rewrite Hbig; unfold MAX_FILE_SIZE; lia).
  rewrite (RouteA_rate_limited Examples.calm
             (Examples.upload_of Examples.oversized) Examples.exhausted_world).
  - split_and!; [ exact Hbig | apply validateFileType_oversized
                | reflexivity | reflexivity | reflexivity | reflexivity ].
  - unfold passes_rate_limit.
    assert (E : (RateLimit.checkRateLimit (now_rate Examples.calm)
                   (client_ip (Examples.upload_of Examples.oversized))
                   (rateLimit Examples.exhausted_world)).1 = false)
      by reflexivity.
    rewrite E. discriminate.
Qed.

(** The response that carries [FILE_TOO_LARGE]. *)
Example file_too_large_response :
  errorResponse Errors.FILE_TOO_LARGE_A
  = mkResponse 400
      (JObj [ ("success", JBool false);
              ("error", JStr (js "File size exceeds maximum limit of 10MB"));
              ("code", JStr (js "FILE_TOO_LARGE")) ]%string)
      (corsHeaders ++ securityHeaders).
Proof. reflexivity. Qed.

(** A file of exactly [MAX_FILE_SIZE] bytes passes the size check in the
    basic route as well, which answers an oversized file with status 400
    but carries no codes at all. *)
Lemma RouteBasic_size_check env req w file :
  directory_ready env w -> form_error req = None ->
  file_field req = Some (FormFile file) ->
  MAX_FILE_SIZE < size file ->
  let r := (RouteBasic.POST env req w).1 in
  status r = 400 /\ json_field "code" (body r) = None.
Proof.
  unfold directory_ready. intros Hdir Hform Hfile Hbig.
  assert (Hsize : (size file >? MAX_FILE_SIZE) = true) by (apply Z.gtb_lt; lia).
  unfold RouteBasic.POST, RouteBasic.try_block, run_handler, bind, ret, throw,
    formData_get_file, ensureUploadDirectory.
  rewrite Hform, Hfile.
  destruct (uploads w); cbn; rewrite ?Hdir by done; cbn; rewrite Hsize; done.
Qed.

End upload_failures.

(* ===================================================================== *)
(** ** Further properties of the rate limiter *)
(* ===================================================================== *)

Section rate_limit_more.
Import RateLimit.

Implicit Types (m : gmap jsstring Entry) (ip k : jsstring) (now : Z).

(** The three ways a call ends, by value. *)
Lemma checkRateLimit_cases now ip m :
  let e0 := default (mkEntry 0 (now + WINDOW_MS)) (m !! ip) in
  checkRateLimit now ip m =
    if now >? resetTime e0 then (true, <[ip := mkEntry 1 (now + WINDOW_MS)]> m)
    else if count e0 >=? MAX_REQUESTS then (false, m)
    else (true, <[ip := mkEntry (count e0 + 1) (resetTime e0)]> m).
Proof. apply checkRateLimit_values. Qed.

(** X1. A call for one key leaves the entry of every other key as it
    was, present or absent. *)
Theorem checkRateLimit_other_keys now ip k m :
  k <> ip -> (checkRateLimit now ip m).2 !! k = m !! k.
Proof.
  intros Hk. rewrite checkRateLimit_cases. cbv zeta.
  destruct (_ >? _); cbn [snd]; [by rewrite lookup_insert_ne|].
  destruct (_ >=? _); cbn [snd]; [done | by rewrite lookup_insert_ne].
Qed.

Lemma checkRateLimit_other_keys_witness :
  (checkRateLimit 5000 Examples.client Examples.exhausted).2 !! js "198.51.100.1"
  = Examples.exhausted !! js "198.51.100.1".
Proof.
  apply (checkRateLimit_other_keys 5000 Examples.client (js "198.51.100.1")).
  vm_compute. discriminate.
Defined.

Lemma checkRateLimit_well_counted now ip m :
  well_counted m -> well_counted (checkRateLimit now ip m).2.
Proof.
  unfold well_counted. intros Hm. rewrite checkRateLimit_cases. cbv zeta.
  destruct (_ >? _); cbn [snd].
  - apply map_Forall_insert_2; [cbn; unfold MAX_REQUESTS; lia | done].
  - destruct (Z.geb_spec (count (default (mkEntry 0 (now + WINDOW_MS)) (m !! ip)))
                MAX_REQUESTS) as [Hge|Hlt]; cbn [snd]; [done|].
    apply map_Forall_insert_2; [|done]. cbn.
    destruct (m !! ip) as [e|] eqn:He; cbn in *.
    + apply Hm in He. lia.
    + unfold MAX_REQUESTS. lia.
Qed.

(** X2. Whatever calls were served since the server started, for
    whatever keys and clock readings, every counter in the map is at
    least 1 and at most [MAX_REQUESTS]. *)
Theorem served_counters_bounded (requests : list (Z * jsstring)) :
  well_counted (serve requests ∅).
Proof.
  assert (H : forall m, well_counted m -> well_counted (serve requests m)).
  { induction requests as [|[now ip] rest IH]; intros m Hm; [done|].
    cbn [serve]. by apply IH, checkRateLimit_well_counted. }
  apply H. unfold well_counted. apply map_Forall_empty.
Qed.

(** X3. The window is fixed: a call made no later than the window end of
    its key never moves that end, whether it is granted or refused; it is
    granted exactly when fewer than [MAX_REQUESTS] calls were counted, and
    then counts one more. *)
Theorem window_end_is_fixed now ip m e :
  m !! ip = Some e -> now <= resetTime e ->
  checkRateLimit now ip m =
    (count e <? MAX_REQUESTS,
     if count e <? MAX_REQUESTS
     then <[ip := mkEntry (count e + 1) (resetTime e)]> m
     else m) /\
  resetTime <$> (checkRateLimit now ip m).2 !! ip = Some (resetTime e).
Proof.
  intros Hm Hnow.
  assert (Hc : checkRateLimit now ip m =
    (count e <? MAX_REQUESTS,
     if count e <? MAX_REQUESTS
     then <[ip := mkEntry (count e + 1) (resetTime e)]> m
     else m)).
  { destruct (Z.ltb_spec (count e) MAX_REQUESTS).
    - by apply checkRateLimit_counted.
    - by eapply checkRateLimit_denied. }
  split; [done|]. rewrite Hc. cbn [snd].
  destruct (count e <? MAX_REQUESTS).
  - by rewrite lookup_insert_eq.
  - by rewrite Hm.
Qed.

Lemma window_end_is_fixed_witness :
  checkRateLimit 5000 Examples.client Examples.exhausted =
    (false, Examples.exhausted) /\
  resetTime <$> (checkRateLimit 5000 Examples.client Examples.exhausted).2
                  !! Examples.client = Some 900000.
Proof.
  apply (window_end_is_fixed 5000 Examples.client Examples.exhausted
           (mkEntry 100 900000)).
  - vm_compute. reflexivity.
  - vm_compute. discriminate.
Defined.

(** X4. Inside one window the quota is exact: of [n] further calls made
    no later than the window end of a key that has [c] calls counted, the
    first [MAX_REQUESTS - c] are granted and all the others refused, and
    the counter ends at [c] plus the number granted. *)
Theorem calls_in_window (ts : list Z) : forall k m c r,
  m !! k = Some (mkEntry c r) ->
  0 <= c <= MAX_REQUESTS ->
  Forall (fun t => t <= r) ts ->
  calls ts k m =
    (replicate (grants c (length ts)) true ++
     replicate (length ts - grants c (length ts)) false,
     <[k := mkEntry (c + Z.of_nat (grants c (length ts))) r]> m).
Proof.
  induction ts as [|t ts IH]; intros k m c r Hm Hc Hts.
  - cbn. rewrite Z.add_0_r. by rewrite insert_id.
  - apply Forall_cons in Hts as [Ht Hts]. cbn [calls length].
    destruct (Z.ltb_spec c MAX_REQUESTS) as [Hlt|Hge].
    + rewrite (checkRateLimit_counted t k m (mkEntry c r)) by done.
      cbn [count resetTime].
      rewrite (IH k _ (c + 1) r); [| by rewrite lookup_insert_eq | lia | done].
      rewrite insert_insert_eq.
      assert (Hg : grants c (S (length ts)) = S (grants (c + 1) (length ts))).
      { unfold grants, MAX_REQUESTS in *. lia. }
      rewrite Hg. cbn [replicate app Nat.sub]. do 3 f_equal. lia.
    + rewrite (checkRateLimit_denied t k m (mkEntry c r)) by done.
      rewrite (IH k m c r) by done.
      assert (Hg : grants c (S (length ts)) = 0%nat /\
                   grants c (length ts) = 0%nat).
      { unfold grants, MAX_REQUESTS in *. lia. }
      destruct Hg as [-> ->]. rewrite !Nat.sub_0_r. done.
Qed.

Lemma calls_in_window_witness :
  calls [10; 20; 30] Examples.client
        {[ Examples.client := mkEntry 98 900000 ]} =
    (replicate (grants 98 3) true ++ replicate (3 - grants 98 3) false,
     <[Examples.client := mkEntry (98 + Z.of_nat (grants 98 3)) 900000]>
       {[ Examples.client := mkEntry 98 900000 ]}).
Proof.
  apply (calls_in_window [10; 20; 30] Examples.client
           {[ Examples.client := mkEntry 98 900000 ]} 98 900000).
  - vm_compute. reflexivity.
  - vm_compute. split; discriminate.
  - repeat constructor; vm_compute; discriminate.
Defined.

End rate_limit_more.

(* ===================================================================== *)
(** ** Further properties of the validation *)
(* ===================================================================== *)

Section validation_more.

(** The [every] test on a buffer holds exactly when the buffer spells the
    beginning of the signature. *)
Lemma every_byte_matches_prefix (signature bytes : list N) :
  every (byte_matches signature) bytes = true <-> bytes `prefix_of` signature.
Proof.
  unfold every.
  assert (H : forall i,
    every_from (byte_matches signature) i bytes = true <->
    bytes `prefix_of` drop i signature).
  { induction bytes as [|b bytes IH]; intros i.
    - cbn. split; [intros _; apply prefix_nil | done].
    - cbn [every_from]. rewrite andb_true_iff, IH.
      unfold byte_matches. rewrite bool_decide_eq_true. split.
      + intros [Hb Hp]. rewrite (drop_S _ _ _ Hb). by apply prefix_cons.
      + intros Hp. destruct (drop i signature) as [|c rest] eqn:Hd.
        { by apply prefix_nil_not in Hp. }
        pose proof (prefix_cons_inv_1 _ _ _ _ Hp) as <-.
        apply prefix_cons_inv_2 in Hp.
        assert (Hb : signature !! i = Some b).
        { rewrite <- (Nat.add_0_r i), <- lookup_drop, Hd. done. }
        split; [done|].
        rewrite (drop_S _ _ _ Hb) in Hd. injection Hd as ->. done. }
  rewrite (H 0%nat). by rewrite drop_0.
Qed.

Lemma slice_0 {A} (l : list A) (n : nat) : slice l 0 (Z.of_nat n) = take n l.
Proof.
  unfold slice. rewrite Z.sub_0_r, Nat2Z.id. change (Z.to_nat 0) with 0%nat.
  by rewrite drop_0.
Qed.

(** X5. For a buffer of any length, [validateFileType] succeeds exactly
    when the declared type is allowed, the lower-cased extension is
    allowed, and the first three bytes spell the beginning of the JPEG
    signature or the first four the beginning of the PNG or of the WebP
    signature; a buffer shorter than a signature passes on the part it
    has, and the empty buffer passes every test. *)
Theorem validateFileType_prefix_semantics (file : File) :
  validateFileType file = true <->
  type file ∈ ALLOWED_TYPES /\
  toLowerCase (Path.extname (name file)) ∈ ALLOWED_EXTENSIONS /\
  (take 3 (content file) `prefix_of` Signatures.jpeg \/
   take 4 (content file) `prefix_of` Signatures.png \/
   take 4 (content file) `prefix_of` Signatures.webp).
Proof.
  unfold validateFileType. rewrite <- !has_true.
  destruct (has ALLOWED_TYPES (type file)); cbn [negb orb];
    [|split; [done | intros [? _]; done]].
  destruct (has ALLOWED_EXTENSIONS _); cbn [negb];
    [|split; [done | intros (_ & ? & _); done]].
  change 4 with (Z.of_nat 4). change 3 with (Z.of_nat 3).
  rewrite !slice_0, !orb_true_iff, !every_byte_matches_prefix.
  rewrite take_take. change (3 `min` 4)%nat with 3%nat.
  rewrite (take_take _ 4 4). change (4 `min` 4)%nat with 4%nat.
  tauto.
Qed.

End validation_more.

(* ===================================================================== *)
(** ** Uniqueness of the generated names *)
(* ===================================================================== *)

Section unique_names.

Lemma uint_chars_inj (d d' : Decimal.uint) :
  uint_chars d = uint_chars d' -> d = d'.
Proof.
  revert d'. induction d; intros d' H; destruct d'; cbn in H;
    try discriminate; try reflexivity;
    injection H as H; f_equal; by apply IHd.
Qed.

Lemma uint_chars_digits (d : Decimal.uint) :
  Forall (fun c => is_digit c = true) (uint_chars d).
Proof. induction d; cbn [uint_chars]; constructor; done. Qed.

Lemma string_of_int_inj (z z' : Z) :
  string_of_int z = string_of_int z' -> z = z'.
Proof.
  assert (Hpos : forall p, exists c rest,
            uint_chars (Pos.to_uint p) = c :: rest /\ is_digit c = true).
  { intros p. pose proof (uint_chars_digits (Pos.to_uint p)) as Hd.
    destruct (uint_chars (Pos.to_uint p)) as [|c rest] eqn:Hc.
    - exfalso. apply (DecimalPos.Unsigned.to_uint_nonnil p).
      by apply uint_chars_inj.
    - apply Forall_cons in Hd as [Hd _]. by exists c, rest. }
  assert (Hzero : forall p, uint_chars (Pos.to_uint p) <> [48%N]).
  { intros p H. apply (DecimalPos.Unsigned.to_uint_nonzero p).
    by apply uint_chars_inj. }
  destruct z as [|p|p], z' as [|p'|p']; cbn [string_of_int]; intros H;
    try reflexivity.
  - symmetry in H. by apply Hzero in H.
  - discriminate.
  - by apply Hzero in H.
  - by apply uint_chars_inj, DecimalPos.Unsigned.to_uint_inj in H as ->.
  - destruct (Hpos p) as (c & rest & Hc & Hd). rewrite Hc in H.
    injection H as -> _. by vm_compute in Hd.
  - discriminate.
  - destruct (Hpos p') as (c & rest & Hc & Hd). rewrite Hc in H.
    injection H as <- _. by vm_compute in Hd.
  - injection H as H.
    by apply uint_chars_inj, DecimalPos.Unsigned.to_uint_inj in H as ->.
Qed.

Lemma digit36_not_dash (d : N) : digit36 d <> DASH.
Proof.
  unfold digit36, DASH. pose proof (N.mod_lt d 36 ltac:(done)) as Hlt.
  set (d' := (d mod 36)%N) in *. clearbody d'.
  destruct (N.ltb_spec d' 10); lia.
Qed.

Lemma random_part (frac : list N) :
  slice_from (toString36 frac) 2 = List.map digit36 frac.
Proof. by destruct frac. Qed.

(** A string is cut in one way only at its last dash. *)
Lemma last_dash_inv (a b a' b' : list N) :
  DASH ∉ b -> DASH ∉ b' ->
  a ++ DASH :: b = a' ++ DASH :: b' -> a = a' /\ b = b'.
Proof.
  revert a'. induction a as [|x a IH]; intros [|x' a'] Hb Hb' H; cbn in H.
  - by injection H as ->.
  - injection H as <- ->. exfalso. apply Hb.
    rewrite elem_of_app, elem_of_cons. auto.
  - injection H as -> <-. exfalso. apply Hb'.
    rewrite elem_of_app, elem_of_cons. auto.
  - injection H as -> H. destruct (IH a' Hb Hb' H) as [-> ->]. done.
Qed.

Lemma uniqueId_inj (u1 u2 : Unique) :
  uniqueId u1 = uniqueId u2 <->
  date_now u1 = date_now u2 /\
  List.map digit36 (random_digits u1) = List.map digit36 (random_digits u2).
Proof.
  unfold uniqueId. rewrite !random_part. cbn [app]. split.
  - intros H. apply last_dash_inv in H as [H1 H2].
    + split; [by apply string_of_int_inj | done].
    + intros Hin. apply list_elem_of_In, in_map_iff in Hin as (d & Hd & _).
      by apply digit36_not_dash in Hd.
    + intros Hin. apply list_elem_of_In, in_map_iff in Hin as (d & Hd & _).
      by apply digit36_not_dash in Hd.
  - by intros [-> ->].
Qed.

(** X6. Two names made from the same original name are equal exactly when
    they were drawn at the same millisecond with the same random digits,
    in the variant that appends the token and in the one that prepends
    it: nothing but the token tells them apart, and the token hides
    nothing of the two draws. *)
Theorem safe_filename_collision (u1 u2 : Unique) (originalName : jsstring) :
  (generateSafeFilename u1 originalName = generateSafeFilename u2 originalName
   <-> date_now u1 = date_now u2 /\
       List.map digit36 (random_digits u1)
       = List.map digit36 (random_digits u2)) /\
  (generateSafeFilename_prefixed u1 originalName
   = generateSafeFilename_prefixed u2 originalName
   <-> date_now u1 = date_now u2 /\
       List.map digit36 (random_digits u1)
       = List.map digit36 (random_digits u2)).
Proof.
  rewrite <- uniqueId_inj.
  unfold generateSafeFilename, generateSafeFilename_prefixed. split; split.
  - intros H. apply app_inv_head in H. cbn [app] in H. injection H as H.
    by apply app_inv_tail in H.
  - by intros ->.
  - intros H. rewrite !app_assoc in H. by do 3 apply app_inv_tail in H.
  - by intros ->.
Qed.

End unique_names.

(* ===================================================================== *)
(** ** Further properties of the sweeps *)
(* ===================================================================== *)

Section sweep_more.
Import Sweep.



Lemma List_filter_sublist {A} (p : A -> bool) (l : list A) :
  List.filter p l `sublist_of` l.
Proof.
  induction l as [|x l IH]; [done|]. cbn [List.filter].
  destruct (p x); [by apply sublist_skip | by apply sublist_cons].
Qed.

Lemma cleanupOldFiles_loop_sublist now files :
  (cleanupOldFiles_loop now files).1 `sublist_of` files.
Proof.
  induction files as [|f files IH]; [done|]. cbn [cleanupOldFiles_loop].
  destruct (now - mtimeMs f >? MAX_AGE).
  - destruct (unlink_fails f); [done|]. by apply sublist_cons.
  - destruct (cleanupOldFiles_loop now files) as [kept thrown].
    by apply sublist_skip.
Qed.

Lemma cleanupOldFiles_loop_keeps_young now files f :
  f ∈ files -> eligible now f = false ->
  f ∈ (cleanupOldFiles_loop now files).1.
Proof.
  unfold eligible. intros Hin Hy.
  induction files as [|g files IH]; [by apply elem_of_nil in Hin|].
  cbn [cleanupOldFiles_loop].
  apply elem_of_cons in Hin as [<- | Hin].
  - rewrite Hy. destruct (cleanupOldFiles_loop now files). by left.
  - destruct (now - mtimeMs g >? MAX_AGE).
    + destruct (unlink_fails g); [by right | by apply IH].
    + specialize (IH Hin). destruct (cleanupOldFiles_loop now files).
      by right.
Qed.


(** X8. No variant of the sweep removes an entry that is not older than
    [MAX_AGE], and none adds or reorders entries: what is left is a
    sublist of what was listed and holds every entry of age [MAX_AGE] or
    less. *)
Theorem sweep_keeps_recent_entries
    (settle : list DirEntry -> list DirEntry) (pending : DirEntry -> bool)
    (now : Z) (files : list DirEntry) :
  let kept1 := default [] (cleanupUploads settle now (Some files)).1 in
  let kept2 := default [] (cleanupOldFiles now (Some files)).1 in
  let kept3 :=
    default [] (cleanupOldFiles_parallel pending now (Some files)).1 in
  (kept1 `sublist_of` files /\ kept2 `sublist_of` files /\
   kept3 `sublist_of` files) /\
  forall f, f ∈ files -> now - mtimeMs f <= MAX_AGE ->
            f ∈ kept1 /\ f ∈ kept2 /\ f ∈ kept3.
Proof.
  cbv zeta. unfold cleanupUploads, cleanupOldFiles.
  cbn [fst snd default from_option id].
  rewrite cleanupUploads_all_kept.
  pose proof (cleanupOldFiles_loop_sublist now files) as Hs.
  pose proof (cleanupOldFiles_loop_keeps_young now files) as Hy.
  destruct (cleanupOldFiles_loop now files) as [kept thrown].
  cbn [fst snd default from_option id cleanupOldFiles_parallel] in *.
  split.
  - split_and!; [apply List_filter_sublist | done | apply List_filter_sublist].
  - intros f Hin Hage.
    assert (He : eligible now f = false).
    { unfold eligible. destruct (Z.gtb_spec (now - mtimeMs f) MAX_AGE); [lia|done]. }
    split_and!.
    + apply list_elem_of_In, filter_In. split; [by apply list_elem_of_In|].
      by rewrite He.
    + by apply Hy.
    + apply list_elem_of_In, filter_In. split; [by apply list_elem_of_In|].
      unfold eligible in He. by rewrite He.
Qed.




End sweep_more.

(* ===================================================================== *)
(** ** Further properties of the processing handler *)
(* ===================================================================== *)

Section process_more.
Import Process.

Lemma command_some env c fmt img :
  outputFormat c = Some fmt -> exists cmd, command env c img = Some cmd.
Proof. unfold command. intros ->. by eauto. Qed.

(** The loop over images that all succeed. *)
Lemma process_loop_succeeds env c fmt (files : list Image) :
  outputFormat c = Some fmt ->
  Forall (image_succeeds env c) files ->
  forall acc trace,
    process_loop env (Some c) files acc trace =
      (Ok (acc ++ List.map (descriptor fmt) files),
       trace ++ List.flat_map (image_effects env c) files).
Proof.
  intros Hfmt. induction 1 as [|img files (Hw & He & Hr) _ IH]; intros acc trace.
  - cbn. by rewrite !app_nil_r.
  - cbn [process_loop List.map List.flat_map]. rewrite Hw, Hfmt.
    destruct (command_some env c fmt img Hfmt) as [cmd Hcmd].
    rewrite Hcmd in *. cbn [default from_option id] in He. rewrite He, Hr.
    rewrite IH. unfold image_effects. rewrite Hcmd.
    cbn [default from_option id]. by rewrite <- !app_assoc.
Qed.

(** The loop up to the first image on which the external tool fails. *)
Lemma process_loop_tool_failure env c fmt (before : list Image) img after :
  outputFormat c = Some fmt ->
  Forall (image_succeeds env c) before ->
  write_fails env (uploadPath env img) = false ->
  exec_fails env (default [] (command env c img)) = true ->
  forall acc trace,
    process_loop env (Some c) (before ++ img :: after) acc trace =
      (Throw SystemError,
       trace ++ List.flat_map (image_effects env c) before
             ++ [Wrote (uploadPath env img)]).
Proof.
  intros Hfmt Hb Hw He.
  induction Hb as [|g before (Hgw & Hge & Hgr) _ IH]; intros acc trace.
  - cbn [app process_loop List.flat_map]. rewrite Hw, Hfmt.
    destruct (command_some env c fmt img Hfmt) as [cmd Hcmd].
    rewrite Hcmd in *. cbn [default from_option id] in He. by rewrite He.
  - cbn [app process_loop List.flat_map]. rewrite Hgw, Hfmt.
    destruct (command_some env c fmt g Hfmt) as [cmd Hcmd].
    rewrite Hcmd in *. cbn [default from_option id] in Hge. rewrite Hge, Hgr.
    rewrite IH. unfold image_effects. rewrite Hcmd.
    cbn [default from_option id]. by rewrite <- !app_assoc.
Qed.

(** X11. When no platform call fails, a non-empty batch is answered with
    status 200 and one descriptor per image, in the order of the images;
    each image was written, converted and unlinked, in that order, before
    the next one was touched. *)
Theorem batch_processed_in_order
    (env : ProcEnv) (req : ProcRequest) (files : list Image) (c : Config)
    (fmt : jsstring) :
  images req = Ok files -> files <> [] ->
  config req = ParsedConfig c -> outputFormat c = Some fmt ->
  mkdir_fails env = false ->
  Forall (image_succeeds env c) files ->
  POST env req =
    (processed fmt files, List.flat_map (image_effects env c) files).
Proof.
  intros Himgs Hne Hcfg Hfmt Hmk Hall. unfold POST.
  rewrite Himgs, Hcfg, Hmk. cbn [parsed_config].
  rewrite bool_decide_false by done.
  by rewrite (process_loop_succeeds env c fmt files Hfmt Hall).
Qed.

Lemma batch_processed_in_order_witness :
  POST Examples.proc_env
    (mkProcRequest (Ok [Examples.good_image; Examples.good_image])
                   (ParsedConfig Examples.jpg_config)) =
    (processed (js "JPG") [Examples.good_image; Examples.good_image],
     List.flat_map (image_effects Examples.proc_env Examples.jpg_config)
       [Examples.good_image; Examples.good_image]).
Proof.
  apply (batch_processed_in_order Examples.proc_env _
           [Examples.good_image; Examples.good_image] Examples.jpg_config
           (js "JPG")).
  - reflexivity.
  - discriminate.
  - reflexivity.
  - reflexivity.
  - reflexivity.
  - repeat constructor; vm_compute; reflexivity.
Defined.

(** X12. When the external tool fails on an image, the images before it
    have been processed and their temporary copies unlinked, the copy of
    the failing image has been written and is not unlinked, and no image
    after it is touched; the answer is the generic failure. *)
Theorem tool_failure_leaves_temporary_copy
    (env : ProcEnv) (req : ProcRequest) (before after : list Image)
    (img : Image) (c : Config) (fmt : jsstring) :
  images req = Ok (before ++ img :: after) ->
  config req = ParsedConfig c -> outputFormat c = Some fmt ->
  mkdir_fails env = false ->
  Forall (image_succeeds env c) before ->
  write_fails env (uploadPath env img) = false ->
  exec_fails env (default [] (command env c img)) = true ->
  POST env req =
    (failure,
     List.flat_map (image_effects env c) before
     ++ [Wrote (uploadPath env img)]).
Proof.
  intros Himgs Hcfg Hfmt Hmk Hb Hw He. unfold POST.
  rewrite Himgs, Hcfg, Hmk. cbn [parsed_config].
  rewrite bool_decide_false by (by destruct before).
  by rewrite (process_loop_tool_failure env c fmt before img after).
Qed.

Lemma tool_failure_leaves_temporary_copy_witness :
  POST Examples.proc_env Examples.batch =
    (failure,
     List.flat_map (image_effects Examples.proc_env Examples.jpg_config)
       [Examples.good_image]
     ++ [Wrote (uploadPath Examples.proc_env Examples.broken_image)]).
Proof.
  apply (tool_failure_leaves_temporary_copy Examples.proc_env Examples.batch
           [Examples.good_image] [] Examples.broken_image
           Examples.jpg_config (js "JPG")).
  - reflexivity.
  - reflexivity.
  - reflexivity.
  - reflexivity.
  - repeat constructor; vm_compute; reflexivity.
  - vm_compute. reflexivity.
  - vm_compute. reflexivity.
Defined.

Lemma process_loop_descriptors env c (files : list Image) :
  forall acc trace ds trace',
    process_loop env c files acc trace = (Ok ds, trace') ->
    exists cfg fmt,
      (files <> [] -> c = Some cfg /\ outputFormat cfg = Some fmt) /\
      ds = acc ++ List.map (descriptor fmt) files.
Proof.
  induction files as [|img files IH]; intros acc trace ds trace' H.
  - cbn in H. injection H as <- _.
    exists (mkConfig false None false None), []. rewrite app_nil_r.
    split; done.
  - cbn [process_loop] in H.
    destruct (write_fails env (uploadPath env img)); [done|].
    destruct c as [cfg|]; [|done].
    destruct (command env cfg img) as [cmd|]; [|done].
    destruct (outputFormat cfg) as [fmt|] eqn:Hfmt; [|done].
    destruct (exec_fails env cmd); [done|].
    destruct (remove_fails env (uploadPath env img)); [done|].
    apply IH in H as (cfg' & fmt' & Hc & ->).
    exists cfg, fmt. split; [done|].
    destruct files as [|g files]; [by rewrite <- app_assoc|].
    destruct Hc as [[= <-] Hf']; [done|].
    rewrite Hfmt in Hf'. injection Hf' as <-. by rewrite <- app_assoc.
Qed.

(** X13. The processing handler answers in one of three ways and never
    with a partial result: the generic failure with status 500; status
    400 when the batch is empty (and the configuration could be parsed);
    or status 200 with exactly one descriptor per image of the batch, in
    order. *)
Theorem process_answers (env : ProcEnv) (req : ProcRequest) :
  let r := (POST env req).1 in
  r = failure \/
  (r = no_files_provided /\ images req = Ok []) \/
  exists files fmt,
    images req = Ok files /\ files <> [] /\ r = processed fmt files.
Proof.
  cbv zeta. unfold POST.
  destruct (images req) as [files|]; [|by left].
  destruct (parsed_config (config req)) as [cfg|]; [|by left].
  case_bool_decide as Hnil; [subst; by right; left|].
  destruct (mkdir_fails env); [by left|].
  destruct (process_loop env cfg files [] []) as [[ds|] trace] eqn:Hloop;
    [|by left].
  apply process_loop_descriptors in Hloop as (c & fmt & _ & ->).
  right; right. exists files, fmt. done.
Qed.

End process_more.

(* ===================================================================== *)
(** ** Further properties of the upload routes *)
(* ===================================================================== *)

Section routes_more.

#[local] Arguments js : simpl never.
#[local] Arguments string_of_int : simpl never.
#[local] Arguments generateSafeFilename : simpl never.
#[local] Arguments generateSafeFilename_prefixed : simpl never.
#[local] Arguments validateFileType : simpl never.
#[local] Arguments validateFileType_basic : simpl never.

Ltac unfold_route :=
  unfold RouteA.POST, RouteB.POST, RouteBasic.POST, RouteA.try_block,
    RouteB.try_block, RouteBasic.try_block, RouteB.checked_rate_limit,
    run_handler, bind, ret, throw, formData_get_file, ensureUploadDirectory,
    with_rateLimit, passes_rate_limit.

(** Runs one of the routes down to its leaves: one goal for every way
    the handler ends, with the tests that led there as hypotheses. *)
Ltac route_leaves env req w :=
  unfold_route;
  try (destruct (RateLimit.checkRateLimit (now_rate env) (client_ip req)
                   (rateLimit w)) as [[] m] eqn:Hlimit; cbn);
  try (destruct (uploads w) as [files|] eqn:Hup;
       [|destruct (mkdir_error env) as [tm|] eqn:Hmk]; cbn);
  try (destruct (form_error req) as [tf|] eqn:Hform; cbn);
  try (destruct (as_file (file_field req)) as [file|] eqn:Hfile; cbn);
  try (match goal with
       | |- context [size ?f >? MAX_FILE_SIZE] =>
           destruct (size f >? MAX_FILE_SIZE) eqn:Hsize; cbn
       end);
  try (match goal with
       | |- context [validateFileType ?f] =>
           destruct (validateFileType f) eqn:Hvalid; cbn
       end);
  try (match goal with
       | |- context [validateFileType_basic ?f] =>
           destruct (validateFileType_basic f) eqn:Hvalid; cbn
       end);
  try (erewrite writeFile_into by (cbn; done));
  try (destruct (writeFile_error env) as [tw|] eqn:Hwrite; cbn);
  try (unfold getFileStats; rewrite stat_written);
  try (rewrite stat_written);
  try (destruct (stat_error env) as [ts|] eqn:Hstat; cbn);
  try (unfold run_sweep;
       destruct (Sweep.cleanupOldFiles _ _) as [dir log] eqn:Hsweep; cbn);
  try (unfold run_sweep;
       destruct (Sweep.cleanupOldFiles_parallel _ _ _) as [dir log] eqn:Hsweep;
       cbn).

(** X14. Every request spends quota in the two routes with a rate
    limiter, whatever becomes of it afterwards: the rate-limit map after
    the request is the one [checkRateLimit] left, also when the upload is
    rejected or fails. The basic route never touches the map. *)
Theorem quota_is_spent_on_every_request
    (env : UploadEnv) (req : Request) (w : World) :
  let limited :=
    (RateLimit.checkRateLimit (now_rate env) (client_ip req) (rateLimit w)).2 in
  rateLimit (RouteA.POST env req w).2 = limited /\
  rateLimit (RouteB.POST env req w).2 = limited /\
  rateLimit (RouteBasic.POST env req w).2 = rateLimit w.
Proof.
  cbv zeta. split_and!.
  - route_leaves env req w; done.
  - route_leaves env req w; done.
  - route_leaves env req w; done.
Qed.

Lemma as_file_Some (v : option FormValue) (file : File) :
  as_file v = Some file -> v = Some (FormFile file).
Proof. destruct v as [[s|f]|]; cbn; congruence. Qed.

(** X15. In the route that throws on rate limiting, every answer is a
    success or has the body [{success: false, error, code}] with a code
    of the taxonomy under the status that goes with the code: 400 for the
    three validation codes, 429 for the rate limit, 500 for
    [UNKNOWN_ERROR]. *)
Theorem second_route_failures_are_structured
    (env : UploadEnv) (req : Request) (w : World) :
  let r := (RouteB.POST env req w).1 in
  is_success r \/ structured_failure r.
Proof. apply RouteB_failures_structured. Qed.

(** X16. In the route that answers a rate-limited request directly,
    every answer to a request that got past the rate limiter is a success
    or has the body [{success: false, error, code}] with a code of the
    taxonomy under the status that goes with the code. *)
Theorem first_route_failures_are_structured
    (env : UploadEnv) (req : Request) (w : World) :
  passes_rate_limit env req w ->
  let r := (RouteA.POST env req w).1 in
  is_success r \/ structured_failure r.
Proof. apply RouteA_failures_structured. Qed.

Lemma first_route_failures_are_structured_witness :
  let r := (RouteA.POST Examples.calm (Examples.upload_of Examples.empty_text)
              Examples.fresh_world).1 in
  is_success r \/ structured_failure r.
Proof.
  apply (first_route_failures_are_structured Examples.calm
           (Examples.upload_of Examples.empty_text) Examples.fresh_world).
  vm_compute. reflexivity.
Defined.

(** X17. The first route answers 200 only to an upload that passed every
    check: the request got past the rate limiter, carried a [File] of at
    most [MAX_FILE_SIZE] bytes that [validateFileType] accepts, and both
    the write and the [stat] after it went through. The body then names
    the sanitized file, which holds only characters of
    [[a-zA-Z0-9.-_]], its URL under [/uploads/], the size of the content
    and the declared type. *)
Theorem accepted_upload_passed_every_check
    (env : UploadEnv) (req : Request) (w : World) :
  status (RouteA.POST env req w).1 = 200 ->
  exists file,
    file_field req = Some (FormFile file) /\
    passes_rate_limit env req w /\
    size file <= MAX_FILE_SIZE /\
    validateFileType file = true /\
    writeFile_error env = None /\ stat_error env = None /\
    class_string (generateSafeFilename (unique env) (name file)) /\
    (RouteA.POST env req w).1 = stored_A env file.
Proof.
  route_leaves env req w; try done.
  all: intros _; exists file; apply as_file_Some in Hfile.
  all: split_and!; try done;
    [ destruct (Z.gtb_spec (size file) MAX_FILE_SIZE); [done | lia]
    | by apply validated_name_is_class_string ].
Qed.

Lemma accepted_upload_passed_every_check_witness :
  exists file,
    file_field (Examples.upload_of Examples.png_as_jpeg)
      = Some (FormFile file) /\
    passes_rate_limit Examples.calm (Examples.upload_of Examples.png_as_jpeg)
      Examples.fresh_world /\
    size file <= MAX_FILE_SIZE /\
    validateFileType file = true /\
    writeFile_error Examples.calm = None /\ stat_error Examples.calm = None /\
    class_string (generateSafeFilename (unique Examples.calm) (name file)) /\
    (RouteA.POST Examples.calm (Examples.upload_of Examples.png_as_jpeg)
       Examples.fresh_world).1 = stored_A Examples.calm file.
Proof.
  apply (accepted_upload_passed_every_check Examples.calm
           (Examples.upload_of Examples.png_as_jpeg) Examples.fresh_world).
  vm_compute. reflexivity.
Defined.

(** X18. An upload answered 400 or 429 left no file behind: after a 429
    the upload directory is as it was, and after a 400 it is as it was or,
    if it was missing, has been made and is empty. This holds in all
    three routes. *)
Theorem rejected_upload_writes_nothing
    (env : UploadEnv) (req : Request) (w : World) :
  (status (RouteA.POST env req w).1 = 429 ->
   uploads (RouteA.POST env req w).2 = uploads w) /\
  (status (RouteB.POST env req w).1 = 429 ->
   uploads (RouteB.POST env req w).2 = uploads w) /\
  (status (RouteA.POST env req w).1 = 400 ->
   directory_untouched (uploads w) (uploads (RouteA.POST env req w).2)) /\
  (status (RouteB.POST env req w).1 = 400 ->
   directory_untouched (uploads w) (uploads (RouteB.POST env req w).2)) /\
  (status (RouteBasic.POST env req w).1 = 400 ->
   directory_untouched (uploads w) (uploads (RouteBasic.POST env req w).2)).
Proof.
  unfold directory_untouched. split_and!.
  - route_leaves env req w; done.
  - route_leaves env req w; done.
  - route_leaves env req w; try done; auto.
  - route_leaves env req w; try done; auto.
  - route_leaves env req w; try done; auto.
Qed.

Lemma rejected_upload_writes_nothing_witness :
  uploads (RouteA.POST Examples.calm (Examples.upload_of Examples.empty_text)
             Examples.exhausted_world).2 = uploads Examples.exhausted_world /\
  directory_untouched (uploads Examples.fresh_world)
    (uploads (RouteA.POST Examples.calm
                (Examples.upload_of Examples.empty_text)
                Examples.fresh_world).2).
Proof.
  split.
  - apply (rejected_upload_writes_nothing Examples.calm
             (Examples.upload_of Examples.empty_text)
             Examples.exhausted_world).
    vm_compute. reflexivity.
  - apply (rejected_upload_writes_nothing Examples.calm
             (Examples.upload_of Examples.empty_text) Examples.fresh_world).
    vm_compute. reflexivity.
Defined.

(** X19. The basic route answers with status 200, 400 or 500 only, never
    with a [code] field and never with headers of its own. *)
Theorem basic_route_answers (env : UploadEnv) (req : Request) (w : World) :
  let r := (RouteBasic.POST env req w).1 in
  (status r = 200 \/ status r = 400 \/ status r = 500) /\
  json_field "code" (body r) = None /\
  headers r = [].
Proof. cbv zeta. route_leaves env req w; split_and!; auto. Qed.

(** X20. The basic route stores a file on its declared type and its
    extension alone: when these are allowed, the size is within the limit
    and neither the write nor the [stat] fails, the answer is 200
    whatever the bytes are. *)
Theorem basic_route_ignores_content
    (env : UploadEnv) (req : Request) (w : World) (file : File) :
  directory_ready env w -> form_error req = None ->
  file_field req = Some (FormFile file) ->
  size file <= MAX_FILE_SIZE ->
  type file ∈ ALLOWED_TYPES ->
  toLowerCase (Path.extname (name file)) ∈ ALLOWED_EXTENSIONS ->
  writeFile_error env = None -> stat_error env = None ->
  (RouteBasic.POST env req w).1 = stored_basic env file.
Proof.
  unfold directory_ready. intros Hdir Hf Hfile Hsz Ht He Hw Hs.
  assert (Hv : validateFileType_basic file = true).
  { unfold validateFileType_basic. apply andb_true_iff.
    by rewrite !has_true. }
  assert (Hsize : (size file >? MAX_FILE_SIZE) = false).
  { destruct (Z.gtb_spec (size file) MAX_FILE_SIZE); [lia | done]. }
  unfold_route. rewrite Hf, Hfile. cbn [as_file].
  destruct (uploads w) as [files|] eqn:Hup; cbn; rewrite ?Hdir by done; cbn;
    rewrite Hsize, Hv; cbn.
  all: erewrite writeFile_into by (cbn; done).
  all: rewrite Hw; unfold getFileStats; rewrite stat_written, Hs; done.
Qed.

Lemma basic_route_ignores_content_witness :
  (RouteBasic.POST Examples.calm (Examples.upload_of MoreExamples.script_as_png)
     Examples.fresh_world).1
  = stored_basic Examples.calm MoreExamples.script_as_png /\
  validateFileType MoreExamples.script_as_png = false.
Proof.
  split; [|vm_compute; reflexivity].
  apply (basic_route_ignores_content Examples.calm
           (Examples.upload_of MoreExamples.script_as_png) Examples.fresh_world
           MoreExamples.script_as_png).
  - intros _. reflexivity.
  - reflexivity.
  - reflexivity.
  - vm_compute. discriminate.
  - apply has_true. vm_compute. reflexivity.
  - apply has_true. vm_compute. reflexivity.
  - reflexivity.
  - reflexivity.
Defined.

Lemma validateFileType_extension (file : File) :
  validateFileType file = true ->
  toLowerCase (Path.extname (name file)) ∈ ALLOWED_EXTENSIONS.
Proof.
  unfold validateFileType. intros Hval.
  destruct (has ALLOWED_TYPES (type file)); cbn [negb orb] in Hval; [|done].
  destruct (has ALLOWED_EXTENSIONS _) eqn:He; cbn [negb] in Hval; [|done].
  by apply has_true.
Qed.

Lemma extname_generateSafeFilename (u : Unique) (originalName : jsstring) :
  Path.extname (generateSafeFilename u originalName)
  = Path.extname originalName.
Proof.
  destruct (stem_token u originalName) as [Hs _].
  replace (generateSafeFilename u originalName)
    with ((baseFilename originalName ++ [DASH] ++ uniqueId u)
          ++ Path.extname originalName)
    by (unfold generateSafeFilename; by rewrite <- !app_assoc).
  apply extname_stem_ext; auto using token_string_plain, extname_ext_shaped.
  by destruct (baseFilename originalName).
Qed.

Lemma upper_of_lower (c : N) :
  (if is_lower (lower_char c) then (lower_char c - 32)%N else lower_char c)
  = (if is_lower c then (c - 32)%N else c).
Proof.
  unfold lower_char, is_upper.
  destruct (N.leb_spec 65 c), (N.leb_spec c 90); cbn [andb]; try done.
  unfold is_lower.
  repeat match goal with
         | |- context [(?a <=? ?b)%N] => destruct (N.leb_spec a b)
         end; cbn [andb]; lia.
Qed.

Lemma toUpperCase_of_lower (l : jsstring) (n : Z) :
  RouteB.toUpperCase (slice_from (toLowerCase l) n)
  = RouteB.toUpperCase (slice_from l n).
Proof.
  unfold RouteB.toUpperCase, slice_from, toLowerCase.
  rewrite skipn_map, map_map.
  apply map_ext. intros c. apply upper_of_lower.
Qed.

Lemma allowed_extension_format (ext : jsstring) :
  toLowerCase ext ∈ ALLOWED_EXTENSIONS ->
  RouteB.toUpperCase (slice_from ext 1) ∈ FORMATS.
Proof.
  intros H. rewrite <- toUpperCase_of_lower. revert H.
  unfold ALLOWED_EXTENSIONS. rewrite !elem_of_union, !elem_of_singleton.
  intros [[[-> | ->] | ->] | ->]; apply list_elem_of_In; vm_compute;
    repeat (first [left; reflexivity | right]).
Qed.

(** X21. The second route answers 200 only to an upload that
    [validateFileType] accepted, and then reports as [metadata.format] the
    upper-cased extension of the original name without its dot, which is
    one of JPG, JPEG, PNG and WEBP; the reported width and height are
    always 0, the size is that of the content. *)
Theorem second_route_reports_format
    (env : UploadEnv) (req : Request) (w : World) :
  status (RouteB.POST env req w).1 = 200 ->
  exists file,
    file_field req = Some (FormFile file) /\
    validateFileType file = true /\
    let format :=
      RouteB.toUpperCase (slice_from (Path.extname (name file)) 1) in
    format ∈ FORMATS /\
    (RouteB.POST env req w).1 = stored_B env file format.
Proof.
  route_leaves env req w; try done.
  all: intros _; exists file; apply as_file_Some in Hfile.
  all: split_and!; try done;
    [ by apply allowed_extension_format, validateFileType_extension
    | unfold stored_B; by rewrite extname_generateSafeFilename ].
Qed.

Lemma second_route_reports_format_witness :
  exists file,
    file_field (Examples.upload_of Examples.png_as_jpeg)
      = Some (FormFile file) /\
    validateFileType file = true /\
    let format :=
      RouteB.toUpperCase (slice_from (Path.extname (name file)) 1) in
    format ∈ FORMATS /\
    (RouteB.POST Examples.calm (Examples.upload_of Examples.png_as_jpeg)
       Examples.fresh_world).1 = stored_B Examples.calm file format.
Proof.
  apply (second_route_reports_format Examples.calm
           (Examples.upload_of Examples.png_as_jpeg) Examples.fresh_world).
  vm_compute. reflexivity.
Defined.

(** X22. When the write goes through and the [stat] after it fails, the
    first route answers [WRITE_ERROR] with status 500 and the second
    answers [UNKNOWN_ERROR] with the message of the failure; in both the
    file that was written stays in the upload directory. *)
Theorem failed_stat_leaves_written_file
    (env : UploadEnv) (req : Request) (w : World) (file : File) (t : Thrown) :
  passes_rate_limit env req w -> directory_ready env w ->
  form_error req = None -> file_field req = Some (FormFile file) ->
  size file <= MAX_FILE_SIZE -> validateFileType file = true ->
  writeFile_error env = None -> stat_error env = Some t ->
  let entry :=
    mkDirEntry (generateSafeFilename (unique env) (name file))
               (write_mtime env) (size file) false in
  (RouteA.POST env req w).1 = errorResponse Errors.WRITE_ERROR /\
  (RouteB.POST env req w).1 = errorResponse (Other t) /\
  (exists files, uploads (RouteA.POST env req w).2 = Some files /\
                 entry ∈ files) /\
  (exists files, uploads (RouteB.POST env req w).2 = Some files /\
                 entry ∈ files).
Proof.
  unfold passes_rate_limit, directory_ready.
  intros Hpass Hdir Hf Hfile Hsz Hv Hw Hs. cbv zeta.
  assert (Hsize : (size file >? MAX_FILE_SIZE) = false).
  { destruct (Z.gtb_spec (size file) MAX_FILE_SIZE); [lia | done]. }
  assert (Hin : forall files : list DirEntry,
    mkDirEntry (generateSafeFilename (unique env) (name file))
               (write_mtime env) (size file) false
    ∈ List.filter
        (fun f => negb (string_eqb (ename f)
                          (generateSafeFilename (unique env) (name file))))
        files
      ++ [mkDirEntry (generateSafeFilename (unique env) (name file))
                     (write_mtime env) (Z.of_nat (length (content file)))
                     false]).
  { intros files. apply elem_of_app. right. apply list_elem_of_here. }
  split_and!; unfold_route;
    destruct (RateLimit.checkRateLimit _ _ _) as [[] m] eqn:Hlimit;
    try discriminate Hpass; cbn; clear Hpass.
  all: rewrite Hf, Hfile; cbn [as_file].
  all: destruct (uploads w) as [files|] eqn:Hup; cbn;
    rewrite ?Hdir by done; cbn; rewrite Hsize, Hv; cbn.
  all: erewrite writeFile_into by (cbn; done).
  all: rewrite Hw; unfold getFileStats; rewrite stat_written, Hs; cbn.
  all: first [ done
             | eexists; split; [reflexivity | apply Hin]
             | eexists; split; [reflexivity | apply (Hin [])] ].
Qed.

Lemma failed_stat_leaves_written_file_witness :
  let entry :=
    mkDirEntry (generateSafeFilename (unique MoreExamples.stat_fails)
                  (name Examples.png_as_jpeg))
               (write_mtime MoreExamples.stat_fails)
               (size Examples.png_as_jpeg) false in
  (RouteA.POST MoreExamples.stat_fails
     (Examples.upload_of Examples.png_as_jpeg) Examples.fresh_world).1
  = errorResponse Errors.WRITE_ERROR /\
  (RouteB.POST MoreExamples.stat_fails
     (Examples.upload_of Examples.png_as_jpeg) Examples.fresh_world).1
  = errorResponse (Other (ErrorObject (js "EACCES"))) /\
  (exists files,
     uploads (RouteA.POST MoreExamples.stat_fails
                (Examples.upload_of Examples.png_as_jpeg)
                Examples.fresh_world).2 = Some files /\
     entry ∈ files) /\
  (exists files,
     uploads (RouteB.POST MoreExamples.stat_fails
                (Examples.upload_of Examples.png_as_jpeg)
                Examples.fresh_world).2 = Some files /\
     entry ∈ files).
Proof.
  apply (failed_stat_leaves_written_file MoreExamples.stat_fails
           (Examples.upload_of Examples.png_as_jpeg) Examples.fresh_world
           Examples.png_as_jpeg (ErrorObject (js "EACCES"))).
  - vm_compute. reflexivity.
  - intros _. reflexivity.
  - reflexivity.
  - reflexivity.
  - vm_compute. discriminate.
  - vm_compute. reflexivity.
  - reflexivity.
  - reflexivity.
Defined.

End routes_more.

(* ===================================================================== *)
(** ** Properties of [validateImage] and [errorHandler] *)
(* ===================================================================== *)

Section validators.
Import Validators.

#[local] Arguments js : simpl never.

(** X23. [validateImage] returns metadata exactly when sharp returned it
    with both dimensions present, not zero and at most 8000; the metadata
    is handed on unchanged. *)
Theorem validateImage_accepts (sharp : Thrown + Metadata) (m : Metadata) :
  validateImage sharp = inr m <->
  sharp = inr m /\
  exists w h, width m = Some w /\ height m = Some h /\
              w <> 0 /\ h <> 0 /\ w <= 8000 /\ h <= 8000.
Proof.
  unfold validateImage, validateImage_try. split.
  - destruct sharp as [t|[[w|] [h|]]]; cbn; try discriminate;
      rewrite ?orb_true_r; try discriminate.
    destruct (Z.eqb_spec w 0), (Z.eqb_spec h 0); cbn; try discriminate.
    destruct (Z.gtb_spec w 8000), (Z.gtb_spec h 8000); cbn; try discriminate.
    intros [= <-]. split; [done|]. exists w, h. cbn. split_and!; auto; lia.
  - intros [-> (w & h & Hw & Hh & Hw0 & Hh0 & Hw8 & Hh8)].
    destruct m as [mw mh]. cbn in *. subst. cbn.
    destruct (Z.eqb_spec w 0), (Z.eqb_spec h 0); try done. cbn.
    destruct (Z.gtb_spec w 8000), (Z.gtb_spec h 8000); try lia. done.
Qed.

(** X24. Whatever goes wrong in [validateImage], the caller sees a
    [ProcessingError] with status 400, no details and one of the three
    validation codes, and [errorHandler] turns it into a failure body with
    that message and code: the message of a failure of sharp itself is
    lost, and [UNKNOWN_ERROR] is never reported. *)
Theorem validateImage_failures (sharp : Thrown + Metadata) (error : Caught) :
  validateImage sharp = inl error ->
  exists message code,
    error = Processing (mkProcessingError message code 400 None) /\
    code ∈ validation_codes /\
    code <> js "UNKNOWN_ERROR" /\
    errorHandler error = mkHandled false message code None.
Proof.
  assert (Hcodes : Forall (fun code => code ∈ validation_codes /\
                                       code <> js "UNKNOWN_ERROR")
                          validation_codes).
  { unfold validation_codes. repeat constructor;
      first [ apply list_elem_of_In; vm_compute;
              repeat (first [left; reflexivity | right])
            | vm_compute; discriminate ]. }
  unfold validation_codes in Hcodes at 2.
  apply Forall_cons in Hcodes as [[H1 H1'] Hcodes].
  apply Forall_cons in Hcodes as [[H2 H2'] Hcodes].
  apply Forall_cons in Hcodes as [[H3 H3'] _].
  unfold validateImage, validateImage_try.
  destruct sharp as [t|metadata]; cbn.
  - intros [= <-]. by eexists _, _.
  - destruct (_ || _); cbn.
    + intros [= <-]. by eexists _, _.
    + destruct (_ || _); cbn; [|discriminate].
      intros [= <-]. by eexists _, _.
Qed.

Lemma validateImage_failures_witness :
  exists message code,
    Processing (new_ProcessingError (js "Failed to validate image")
                  (js "VALIDATION_FAILED") (Some 400) None)
    = Processing (mkProcessingError message code 400 None) /\
    code ∈ validation_codes /\
    code <> js "UNKNOWN_ERROR" /\
    errorHandler
      (Processing (new_ProcessingError (js "Failed to validate image")
                     (js "VALIDATION_FAILED") (Some 400) None))
    = mkHandled false message code None.
Proof.
  apply (validateImage_failures (inl (ErrorObject (js "unsupported image format")))).
  reflexivity.
Defined.

End validators.

(* ===================================================================== *)
(** ** Properties of the metadata route *)
(* ===================================================================== *)

Section metadata.
Import Metadata.

#[local] Arguments js : simpl never.

Lemma parse_digits_ends (acc : option Z) (rest : jsstring) :
  numeral_ends rest -> parse_digits 10 acc rest = acc.
Proof.
  destruct rest as [|c rest]; [done|]. intros (Hd & _).
  cbn [parse_digits]. unfold radix_digit. rewrite Hd.
  destruct (is_lower c) eqn:Hl.
  - unfold is_lower in Hl. apply andb_true_iff in Hl as [Hl _].
    apply N.leb_le in Hl.
    destruct (Z.ltb_spec (Z.of_N c - 97 + 10) 10); [lia | done].
  - destruct (is_upper c) eqn:Hu; [|done].
    unfold is_upper in Hu. apply andb_true_iff in Hu as [Hu _].
    apply N.leb_le in Hu.
    destruct (Z.ltb_spec (Z.of_N c - 65 + 10) 10); [lia | done].
Qed.

Lemma parse_digits_acc (u : Decimal.uint) : forall (acc : positive) rest,
  numeral_ends rest ->
  parse_digits 10 (Some (Z.pos acc)) (uint_chars u ++ rest)
  = Some (Z.pos (Pos.of_uint_acc u acc)).
Proof.
  induction u; intros acc rest Hrest;
    cbn [uint_chars app Pos.of_uint_acc];
    [ by apply parse_digits_ends | ..];
    cbn [parse_digits];
    match goal with
    | |- context [radix_digit 10 ?c] =>
        let v := eval vm_compute in (radix_digit 10 c) in
        change (radix_digit 10 c) with v
    end;
    cbn [default from_option id]; rewrite <- (IHu _ rest) by done;
    do 2 f_equal; lia.
Qed.

Lemma parse_digits_zero (u : Decimal.uint) : forall rest,
  numeral_ends rest ->
  parse_digits 10 (Some 0) (uint_chars u ++ rest)
  = Some (Z.of_N (Pos.of_uint u)).
Proof.
  induction u; intros rest Hrest; cbn [uint_chars app Pos.of_uint];
    [ by apply parse_digits_ends | ..];
    cbn [parse_digits];
    match goal with
    | |- context [radix_digit 10 ?c] =>
        let v := eval vm_compute in (radix_digit 10 c) in
        change (radix_digit 10 c) with v
    end;
    cbn [default from_option id Z.mul Z.add];
    first [ by apply IHu | by apply (parse_digits_acc u _ rest) ].
Qed.

Lemma parse_digits_start (u : Decimal.uint) (rest : jsstring) :
  u <> Decimal.Nil -> numeral_ends rest ->
  parse_digits 10 None (uint_chars u ++ rest)
  = Some (Z.of_N (Pos.of_uint u)).
Proof.
  intros Hu Hrest. rewrite <- (parse_digits_zero u rest) by done.
  destruct u; done.
Qed.

(** No [0x] prefix is seen in a decimal numeral that ends properly. *)
Lemma no_hex_prefix (u : Decimal.uint) (rest : jsstring) :
  numeral_ends rest ->
  match uint_chars u ++ rest with
  | 48%N :: x :: rest' =>
      if (x =? 120)%N || (x =? 88)%N then (16, rest')
      else (10, uint_chars u ++ rest)
  | _ => (10, uint_chars u ++ rest)
  end = (10, uint_chars u ++ rest).
Proof.
  intros Hrest. destruct u as [|u|u|u|u|u|u|u|u|u|u]; cbn [uint_chars app].
  - destruct rest as [|c [|x rest]]; [done | by repeat case_match |].
    destruct (N.eqb_spec c 48) as [->|Hc].
    + destruct Hrest as (Hd & _). vm_compute in Hd. discriminate.
    + repeat case_match; congruence.
  - destruct u; cbn [uint_chars app]; try done.
    destruct rest as [|x rest]; [done|]. destruct Hrest as (_ & H1 & H2).
    by destruct (N.eqb_spec x 120), (N.eqb_spec x 88).
  - done.
  - done.
  - done.
  - done.
  - done.
  - done.
  - done.
  - done.
  - done.
Qed.

Lemma trim_start_numeral (u : Decimal.uint) (rest : jsstring) :
  u <> Decimal.Nil ->
  trim_start (uint_chars u ++ rest) = uint_chars u ++ rest.
Proof. destruct u; done. Qed.

Lemma to_double_safe (n : Z) :
  n <= MAX_SAFE_INTEGER -> to_double n = Some n.
Proof.
  unfold to_double, MAX_SAFE_INTEGER. intros Hn.
  destruct (Z.ltb_spec n (2 ^ 53)); [done | lia].
Qed.

Lemma parseInt_positive (p : positive) (rest : jsstring) :
  Z.pos p <= MAX_SAFE_INTEGER -> numeral_ends rest ->
  parseInt (Some (uint_chars (Pos.to_uint p) ++ rest)) = Some (Z.pos p).
Proof.
  intros Hsafe Hrest.
  pose proof (DecimalPos.Unsigned.to_uint_nonnil p) as Hnil.
  pose proof (DecimalPos.Unsigned.of_to p) as Hof.
  unfold parseInt. cbn [default from_option id].
  rewrite trim_start_numeral by done.
  set (u := Pos.to_uint p) in *.
  assert (Hsign :
    match uint_chars u ++ rest with
    | c :: rest' => if (c =? 45)%N then (-1, rest')
                    else if (c =? 43)%N then (1, rest')
                    else (1, uint_chars u ++ rest)
    | [] => (1, uint_chars u ++ rest)
    end = (1, uint_chars u ++ rest)).
  { destruct u; done. }
  rewrite Hsign, no_hex_prefix, parse_digits_start by done.
  rewrite Hof. cbn [mbind option_bind Z.of_N].
  rewrite to_double_safe by done. done.
Qed.

(** [parseInt] reads back what [String] printed for an integer that a
    double holds, whatever follows the numeral. *)
Lemma parseInt_string_of_int (z : Z) (rest : jsstring) :
  Z.abs z <= MAX_SAFE_INTEGER -> numeral_ends rest ->
  parseInt (Some (string_of_int z ++ rest)) = Some z.
Proof.
  intros Hsafe Hrest. destruct z as [|p|p]; cbn [string_of_int].
  - unfold parseInt. cbn [default from_option id app trim_start].
    change (is_white_space 48) with false. cbv iota.
    change (48 =? 45)%N with false. change (48 =? 43)%N with false.
    cbv iota.
    pose proof (no_hex_prefix (Decimal.D0 Decimal.Nil) rest Hrest) as Hx.
    cbn [uint_chars app] in Hx. rewrite Hx.
    pose proof (parse_digits_start (Decimal.D0 Decimal.Nil) rest) as Hp.
    cbn [uint_chars app] in Hp. rewrite Hp by done. reflexivity.
  - by apply parseInt_positive.
  - pose proof (DecimalPos.Unsigned.to_uint_nonnil p) as Hnil.
    pose proof (DecimalPos.Unsigned.of_to p) as Hof.
    unfold parseInt. cbn [default from_option id app trim_start].
    change (is_white_space DASH) with false. cbv iota.
    change (DASH =? 45)%N with true. cbv iota.
    rewrite no_hex_prefix, parse_digits_start by done.
    rewrite Hof. cbn [mbind option_bind Z.of_N].
    rewrite to_double_safe by lia. done.
Qed.

(** [parseInt] on the cases its documentation lists. *)
Lemma parseInt_documented :
  parseInt (Some (js "  42px")) = Some 42 /\
  parseInt (Some (js "0x1F")) = Some 31 /\
  parseInt (Some (js "-7.5")) = Some (-7) /\
  parseInt (Some (js "+15")) = Some 15 /\
  parseInt (Some (js "015")) = Some 15 /\
  parseInt (Some (js "abc")) = None /\
  parseInt (Some (js "")) = None /\
  parseInt (Some (js "-")) = None /\
  parseInt (Some (js "0x")) = None /\
  parseInt None = None /\
  parseInt (Some (js "9007199254740992")) = Some 9007199254740992 /\
  parseInt (Some (js "9007199254740993")) = Some 9007199254740992 /\
  parseInt (Some (js "9007199254740995")) = Some 9007199254740996 /\
  parseInt (Some (js "-9007199254740993")) = Some (-9007199254740992) /\
  parseInt (Some (js "123456789012345678901234567890"))
    = Some 123456789012345677877719597056 /\
  parseInt (Some (js "0x20000000000001")) = Some 9007199254740992.
Proof. vm_compute. split_and!; reflexivity. Qed.

Lemma split_from_piece (a : jsstring) : forall cur s,
  32%N ∉ a -> split_from cur (a ++ s) = split_from (cur ++ a) s.
Proof.
  induction a as [|c a IH]; intros cur s Ha; cbn [app].
  - by rewrite app_nil_r.
  - apply not_elem_of_cons in Ha as [Hc Ha]. cbn [split_from].
    destruct (N.eqb_spec c 32); [done|].
    rewrite IH by done. by rewrite <- app_assoc.
Qed.

Lemma split_from_space (cur s : jsstring) :
  split_from cur (32%N :: s) = cur :: split_from [] s.
Proof. done. Qed.

Lemma split_from_first (s : jsstring) : forall cur,
  exists tail pieces, split_from cur s = (cur ++ tail) :: pieces.
Proof.
  induction s as [|c s IH]; intros cur; cbn [split_from].
  - exists [], []. by rewrite app_nil_r.
  - destruct (c =? 32)%N.
    + exists [], (split_from [] s). by rewrite app_nil_r.
    + destruct (IH (cur ++ [c])) as (tail & pieces & ->).
      exists (c :: tail), pieces. by rewrite <- app_assoc.
Qed.

Lemma string_of_int_no_space (z : Z) : 32%N ∉ string_of_int z.
Proof.
  assert (Hu : forall u, 32%N ∉ uint_chars u).
  { intros u Hin. pose proof (uint_chars_digits u) as Hd.
    rewrite Forall_forall in Hd. by apply Hd in Hin. }
  destruct z; cbn [string_of_int].
  - apply not_elem_of_cons. split; [done | apply not_elem_of_nil].
  - apply Hu.
  - apply not_elem_of_cons. split; [done | apply Hu].
Qed.

(** X25. The metadata handler answers in one of three ways: 400 when the
    [image] field is missing or an empty string, and then nothing was
    written; the generic failure with status 500, and then a copy that was
    written has not been unlinked; or status 200, whatever [identify]
    printed, after the copy was written, inspected and unlinked. *)
Theorem metadata_answers (env : MetaEnv) (req : MetaRequest) :
  let r := (POST env req).1 in
  let trace := (POST env req).2 in
  (r = no_file /\ trace = [] /\ as_file (image_field req) = None) \/
  (r = failure /\
   (trace = [] \/
    exists file, image_field req = Some (FormFile file) /\
      (trace = [Process.Wrote (filepath env file)] \/
       trace = [Process.Wrote (filepath env file);
                Process.Ran (command env file)]))) \/
  (exists file stdout,
     image_field req = Some (FormFile file) /\
     identify env (command env file) = Some stdout /\
     status r = 200 /\
     trace = [Process.Wrote (filepath env file);
              Process.Ran (command env file);
              Process.Unlinked (filepath env file)]).
Proof.
  cbv zeta. unfold POST.
  destruct (formData_error req); [right; left; auto|].
  destruct (image_field req) as [[[|c s]|file]|]; cbn [as_file fst snd];
    [left; auto | right; left; auto | | left; auto].
  destruct (write_fails env _); [right; left; auto|].
  destruct (identify env _) as [stdout|] eqn:Hid; cbn [fst snd app].
  - destruct (remove_fails env _); cbn [fst snd].
    + right. left. split; [done|]. right. exists file. auto.
    + right. right. by exists file, stdout.
  - right. left. split; [done|]. right. exists file. auto.
Qed.

(** X26. When [identify] prints width, height, format and size in bytes
    as [W H FORMAT SIZEB], whatever follows, the answer carries the three
    numbers and the format as printed. The numbers are integers a double
    holds; the format has no blank. *)
Theorem metadata_reads_identify_output
    (env : MetaEnv) (req : MetaRequest) (file : File)
    (w h s : Z) (format rest : jsstring) :
  formData_error req = None -> image_field req = Some (FormFile file) ->
  write_fails env (filepath env file) = false ->
  remove_fails env (filepath env file) = false ->
  Z.abs w <= MAX_SAFE_INTEGER -> Z.abs h <= MAX_SAFE_INTEGER ->
  Z.abs s <= MAX_SAFE_INTEGER ->
  32%N ∉ format ->
  identify env (command env file)
  = Some (string_of_int w ++ js " " ++ string_of_int h ++ js " " ++
          format ++ js " " ++ string_of_int s ++ js "B" ++ rest) ->
  (POST env req).1 =
    mkResponse 200
      (JObj [ ("width", JNum w); ("height", JNum h);
              ("format", JStr format); ("size", JNum s) ]%string) [].
Proof.
  intros Hform Himg Hwr Hrm Hw Hh Hs Hfmt Hid.
  unfold POST. rewrite Hform, Himg, Hwr, Hid, Hrm. cbn [fst].
  unfold answer, split.
  change (js " ") with [32%N]. change (js "B") with [66%N]. cbn [app].
  rewrite split_from_piece by apply string_of_int_no_space.
  rewrite split_from_space.
  rewrite split_from_piece by apply string_of_int_no_space.
  rewrite split_from_space.
  rewrite split_from_piece by done. rewrite split_from_space.
  rewrite split_from_piece by apply string_of_int_no_space.
  change (66%N :: rest) with ([66%N] ++ rest).
  rewrite (split_from_piece [66%N])
    by (apply not_elem_of_cons; split; [done | apply not_elem_of_nil]).
  cbn [app].
  destruct (split_from_first rest (string_of_int s ++ [66%N]))
    as (tail & pieces & ->).
  cbn [lookup list_lookup].
  rewrite <- (app_nil_r (string_of_int w)), <- (app_nil_r (string_of_int h)).
  rewrite !parseInt_string_of_int by done.
  rewrite <- !app_assoc. rewrite parseInt_string_of_int by done.
  done.
Qed.

Lemma metadata_reads_identify_output_witness :
  (POST MetadataExamples.meta_env MetadataExamples.image_upload).1 =
    mkResponse 200
      (JObj [ ("width", JNum 640); ("height", JNum 480);
              ("format", JStr (js "PNG")); ("size", JNum 12345) ]%string) [].
Proof.
  apply (metadata_reads_identify_output MetadataExamples.meta_env
           MetadataExamples.image_upload Examples.png_as_jpeg
           640 480 12345 (js "PNG") []); try reflexivity.
  - vm_compute. discriminate.
  - vm_compute. discriminate.
  - vm_compute. discriminate.
  - intros H. apply list_elem_of_In in H. vm_compute in H.
    repeat (destruct H as [H|H]; [discriminate H|]). exact H.
Defined.

End metadata.
